(** * Indicator and labelling core of the trading-analysis notebooks

    A shallow embedding of the notebook drafts (three code cells that
    define the same pipeline with growing feature lists) and the
    stand-alone script [yfinance[apple_data].ipynb].

    Numbers.  In the main part a float64 cell is modelled as [option Q]:
    [Some q] is a finite number, computed exactly, and [None] is NaN (a
    missing value); rounding, overflow and the infinities are outside
    that model.  The module [Float64] follows the sliding sum of
    [rolling(window).mean()] on binary64 numbers themselves.

    Series.  A pandas Series is a list of (label, cell) pairs; labels are
    integers, as the labelling loop addresses rows by integer label. *)

From Stdlib Require Import List Bool Arith ZArith QArith Qabs Lia Lqa.
From Stdlib Require String Qpower Uint63.
From Stdlib Require PrimFloat SpecFloat FloatOps FloatAxioms.
Import ListNotations.

Set Implicit Arguments.

(** ** Cells and series *)

Abbreviation value := (option Q) (only parsing).

Definition Series := list (nat * value).

Definition index (s : Series) : list nat := map fst s.
Definition values (s : Series) : list value := map snd s.

(** A series carrying [vs] on the index of [s]. *)
Definition on_index (s : Series) (vs : list value) : Series :=
  combine (index s) vs.

Definition is_obs (v : value) : bool :=
  match v with Some _ => true | None => false end.

(** Equality of cells up to the value of the fraction. *)
Definition veq (a b : value) : Prop :=
  match a, b with
  | Some x, Some y => x == y
  | None, None => True
  | _, _ => False
  end.

Definition veqb (a b : value) : bool :=
  match a, b with
  | Some x, Some y => Qeq_bool x y
  | None, None => true
  | _, _ => false
  end.

(** ** Errors *)

Inductive exn :=
| ValueError
| KeyError
| IndexError
| ZeroDivisionError
| RecursionError
| FetchError.

Inductive Result (A : Type) :=
| Ok (a : A)
| Raise (e : exn).

Arguments Ok {A} a.
Arguments Raise {A} e.

Definition bind {A B} (r : Result A) (k : A -> Result B) : Result B :=
  match r with
  | Ok a => k a
  | Raise e => Raise e
  end.

Notation "x <- r ;; k" := (bind r (fun x => k))
  (at level 61, r at next level, right associativity).

(** ** Rolling windows

    [Series.rolling(window=w)] with the defaults ([min_periods = w],
    right-aligned, closed on the right) gives row [i] the half-open range
    [win_start w i .. win_end w i) of positions.  The aggregation walks
    the rows once and keeps a running state: rows leaving the window are
    removed from it, rows entering are added. *)

Definition win_end (w i : nat) : nat := if w =? 0 then i else S i.
Definition win_start (w i : nat) : nat := win_end w i - w.

Section Roll.
Variable St : Type.
Variable add remove : value -> St -> St.
Variable init : St.
Variable calc : St -> value.

(** [for j in range(lo, lo + len): st = f(vals[j], st)] *)
Fixpoint range_fold (f : value -> St -> St) (vals : list value)
         (lo len : nat) (st : St) : St :=
  match len with
  | O => st
  | S k => range_fold f vals (S lo) k (f (nth lo vals None) st)
  end.

Definition roll_step (w : nat) (vals : list value) (i : nat) (st : St) : St :=
  let s := win_start w i in
  let e := win_end w i in
  if (i =? 0) || (win_end w (i - 1) <=? s) then
    range_fold add vals s (e - s) init
  else
    let st1 := range_fold remove vals
                 (win_start w (i - 1)) (s - win_start w (i - 1)) st in
    range_fold add vals (win_end w (i - 1)) (e - win_end w (i - 1)) st1.

Fixpoint roll_loop (w : nat) (vals : list value) (i n : nat) (st : St)
  : list value :=
  match n with
  | O => []
  | S n' =>
      let st' := roll_step w vals i st in
      calc st' :: roll_loop w vals (S i) n' st'
  end.

Definition roll (w : nat) (vals : list value) : list value :=
  roll_loop w vals 0 (length vals) init.
End Roll.

(** Running mean: number of observations and their sum. *)
Definition mean_state := (Z * Q)%type.

Definition add_mean (val : value) (st : mean_state) : mean_state :=
  match val with
  | Some v => ((fst st + 1)%Z, snd st + v)
  | None => st
  end.

Definition remove_mean (val : value) (st : mean_state) : mean_state :=
  match val with
  | Some v => ((fst st - 1)%Z, snd st - v)
  | None => st
  end.

(** The guards pandas adds against rounding artefacts (a run of equal
    values, a sign that the inputs cannot produce) leave an exact
    quotient unchanged and are not modelled. *)
Definition calc_mean (minp : Z) (st : mean_state) : value :=
  if ((minp <=? fst st)%Z && (0 <? fst st)%Z)%bool
  then Some (snd st / inject_Z (fst st))
  else None.

Definition mean_init : mean_state := (0%Z, 0).

(** [x.rolling(window=w).mean()] on the cells of a series. *)
Definition rolling_mean (w : nat) (vals : list value) : list value :=
  roll add_mean remove_mean mean_init (calc_mean (Z.of_nat w)) w vals.

(** All three notebook cells: [return data.rolling(window=window).mean()] *)
Definition calculate_SMA (data : Series) (window : nat) : Series :=
  on_index data (rolling_mean window (values data)).

(** Running variance (Welford's update): observations, mean, and the sum
    of squared deviations from the mean. *)
Record var_state := { v_nobs : Z; v_mean : Q; v_ssqdm : Q }.

Definition var_init : var_state := {| v_nobs := 0; v_mean := 0; v_ssqdm := 0 |}.

Definition add_var (val : value) (st : var_state) : var_state :=
  match val with
  | None => st
  | Some v =>
      let nobs := (v_nobs st + 1)%Z in
      let prev_mean := v_mean st in
      let delta := v - v_mean st in
      let mean_x :=
        if (nobs =? 0)%Z then 0 else v_mean st + delta / inject_Z nobs in
      {| v_nobs := nobs;
         v_mean := mean_x;
         v_ssqdm := v_ssqdm st + (v - prev_mean) * (v - mean_x) |}
  end.

Definition remove_var (val : value) (st : var_state) : var_state :=
  match val with
  | None => st
  | Some v =>
      let nobs := (v_nobs st - 1)%Z in
      if (nobs =? 0)%Z then {| v_nobs := nobs; v_mean := 0; v_ssqdm := 0 |}
      else
        let prev_mean := v_mean st in
        let delta := v - v_mean st in
        let mean_x := v_mean st - delta / inject_Z nobs in
        {| v_nobs := nobs;
           v_mean := mean_x;
           v_ssqdm := v_ssqdm st - (v - prev_mean) * (v - mean_x) |}
  end.

(** [ddof = 1]: the sample variance. *)
Definition calc_var (minp : Z) (st : var_state) : value :=
  if ((minp <=? v_nobs st)%Z && (1 <? v_nobs st)%Z)%bool
  then Some (v_ssqdm st / inject_Z (v_nobs st - 1))
  else None.

Definition rolling_var (w : nat) (vals : list value) : list value :=
  roll add_var remove_var var_init (calc_var (Z.of_nat w)) w vals.

Definition Qltb (x y : Q) : bool :=
  match x ?= y with Lt => true | _ => false end.

(** The square root is not a rational function; the development takes it
    as a parameter [sqrtQ] wherever the standard deviation is needed. *)
Definition zsqrt (sqrtQ : Q -> Q) (v : value) : value :=
  match v with
  | Some x => Some (if Qltb x 0 then 0 else sqrtQ x)
  | None => None
  end.

(** [x.rolling(window=w).std()] *)
Definition rolling_std (sqrtQ : Q -> Q) (w : nat) (vals : list value)
  : list value :=
  map (zsqrt sqrtQ) (rolling_var w vals).

(** ** Cell arithmetic: NaN is absorbing, comparisons with NaN are false *)

Definition vlift2 (op : Q -> Q -> Q) (a b : value) : value :=
  match a, b with
  | Some x, Some y => Some (op x y)
  | _, _ => None
  end.

Definition vadd := vlift2 Qplus.
Definition vsub := vlift2 Qminus.
Definition vmul := vlift2 Qmult.

(** Division.  A zero divisor gives an infinity or NaN in IEEE
    arithmetic; the cell type has no infinity, and the quotient is then
    left missing.  [rs_divisor_positive] and [rsi_divisor_positive] show
    that the divisions of [calculate_RSI] never meet a zero divisor. *)
Definition vdiv (a b : value) : value :=
  match a, b with
  | Some x, Some y => if Qeq_bool y 0 then None else Some (x / y)
  | _, _ => None
  end.

Definition vlt (a b : value) : bool :=
  match a, b with
  | Some x, Some y => Qltb x y
  | _, _ => false
  end.

Definition vgt (a b : value) : bool := vlt b a.

Definition vabs (a : value) : value := option_map Qabs a.

Fixpoint map2 {A B C} (f : A -> B -> C) (l1 : list A) (l2 : list B) : list C :=
  match l1, l2 with
  | a :: t1, b :: t2 => f a b :: map2 f t1 t2
  | _, _ => []
  end.

(** ** Exponentially weighted mean

    [x.ewm(alpha=a, min_periods=m).mean()] with the defaults
    [adjust=True], [ignore_na=False].  The loop keeps the weighted
    average so far, the total weight [old_wt] behind it and the number of
    observations seen. *)

Definition obs_incr (v : value) : Z := if is_obs v then 1%Z else 0%Z.

Definition ewm_gate (minp nobs : Z) (weighted : value) : value :=
  if (minp <=? nobs)%Z then weighted else None.

Definition ewm_update (alpha : Q) (weighted : value) (old_wt : Q) (cur : value)
  : value * Q :=
  match weighted with
  | Some wv =>
      let old_wt1 := old_wt * (1 - alpha) in
      match cur with
      | Some c =>
          let wv' :=
            if Qeq_bool wv c then wv
            else (old_wt1 * wv + 1 * c) / (old_wt1 + 1) in
          (Some wv', old_wt1 + 1)
      | None => (Some wv, old_wt1)
      end
  | None =>
      match cur with
      | Some c => (Some c, old_wt)
      | None => (None, old_wt)
      end
  end.

Fixpoint ewm_loop (alpha : Q) (minp : Z) (rest : list value)
         (weighted : value) (old_wt : Q) (nobs : Z) : list value :=
  match rest with
  | [] => []
  | cur :: tl =>
      let nobs' := (nobs + obs_incr cur)%Z in
      let '(weighted', old_wt') := ewm_update alpha weighted old_wt cur in
      ewm_gate minp nobs' weighted'
        :: ewm_loop alpha minp tl weighted' old_wt' nobs'
  end.

Definition ewm_mean (alpha : Q) (minp : Z) (vals : list value) : list value :=
  match vals with
  | [] => []
  | v0 :: rest =>
      let nobs := obs_incr v0 in
      ewm_gate minp nobs v0 :: ewm_loop alpha minp rest v0 1 nobs
  end.

(** The Python wrapper: [alpha] must satisfy [0 < alpha <= 1], and
    [min_periods] is raised to at least one. *)
Definition ewm (s : Series) (alpha : Q) (min_periods : nat) : Result Series :=
  if (Qltb 0 alpha && Qle_bool alpha 1)%bool
  then Ok (on_index s (ewm_mean alpha (Z.max (Z.of_nat min_periods) 1) (values s)))
  else Raise ValueError.

(** Python's [a / b] on integers. *)
Definition py_div (a b : nat) : Result Q :=
  if b =? 0 then Raise ZeroDivisionError
  else Ok (inject_Z (Z.of_nat a) / inject_Z (Z.of_nat b)).

(** Third cell:
    [alpha = 2 / (window + 1)]
    [return data.ewm(alpha=alpha, min_periods=window).mean()] *)
Definition calculate_EMA (data : Series) (window : nat) : Result Series :=
  alpha <- py_div 2 (window + 1) ;;
  ewm data alpha window.

(** The smoothing factor [calculate_EMA] hands to [ewm]. *)
Definition ema_alpha (w : nat) : Q :=
  inject_Z (Z.of_nat 2) / inject_Z (Z.of_nat (w + 1)).

(** ** Binary operations between series

    Two series with the same index combine row by row.  Otherwise both
    are aligned on the sorted union of their labels, and a label missing
    on either side gives NaN.  The alignment is that of series whose
    labels are distinct; where a label repeats, pandas pairs every row of
    the label on one side with every row of it on the other. *)

Fixpoint lookup (l : nat) (s : Series) : value :=
  match s with
  | [] => None
  | (k, v) :: tl => if k =? l then v else lookup l tl
  end.

Fixpoint insert_label (l : nat) (ls : list nat) : list nat :=
  match ls with
  | [] => [l]
  | k :: tl =>
      if l <? k then l :: ls
      else if l =? k then ls
      else k :: insert_label l tl
  end.

Definition index_union (a b : list nat) : list nat :=
  fold_right insert_label [] (a ++ b).

Definition series_binop (op : value -> value -> value) (a b : Series) : Series :=
  if list_eq_dec Nat.eq_dec (index a) (index b)
  then on_index a (map2 op (values a) (values b))
  else map (fun l => (l, op (lookup l a) (lookup l b)))
           (index_union (index a) (index b)).

Definition series_map (f : value -> value) (s : Series) : Series :=
  map (fun p => (fst p, f (snd p))) s.

(** [s.diff()]: the first row has no predecessor. *)
Fixpoint diff_from (prev : value) (l : list value) : list value :=
  match l with
  | [] => []
  | x :: tl => vsub x prev :: diff_from x tl
  end.

Definition diff_values (l : list value) : list value := diff_from None l.

Definition diff (s : Series) : Series := on_index s (diff_values (values s)).

(** [s[mask]]: the rows where the mask holds, with their labels. *)
Definition mask (p : value -> bool) (s : Series) : Series :=
  filter (fun r => p (snd r)) s.

(** ** MACD *)

(** Second cell: the three averages call [ewm] with [alpha = 1/window]. *)
Definition calculate_MACD_v2 (data : Series)
           (slow_ema_window fast_ema_window signal_ema_window : nat)
  : Result (Series * Series) :=
  a_fast <- py_div 1 fast_ema_window ;;
  fast_ema <- ewm data a_fast fast_ema_window ;;
  a_slow <- py_div 1 slow_ema_window ;;
  slow_ema <- ewm data a_slow slow_ema_window ;;
  let macd := series_binop vsub fast_ema slow_ema in
  a_sig <- py_div 1 signal_ema_window ;;
  signal_line <- ewm macd a_sig signal_ema_window ;;
  Ok (macd, signal_line).

(** Third cell: the three averages go through [calculate_EMA]. *)
Definition calculate_MACD (data : Series)
           (slow_ema_window fast_ema_window signal_ema_window : nat)
  : Result (Series * Series) :=
  fast_ema <- calculate_EMA data fast_ema_window ;;
  slow_ema <- calculate_EMA data slow_ema_window ;;
  let macd := series_binop vsub fast_ema slow_ema in
  signal_line <- calculate_EMA macd signal_ema_window ;;
  Ok (macd, signal_line).

(** ** RSI (second and third cell, same text) *)

Definition gains (delta : Series) : Series :=
  mask (fun v => vgt v (Some 0)) delta.

Definition losses (delta : Series) : Series :=
  series_map vabs (mask (fun v => vlt v (Some 0)) delta).

Definition rsi_of_rs (rs : value) : value :=
  vsub (Some 100) (vdiv (Some 100) (vadd (Some 1) rs)).

Definition calculate_RSI (data : Series) (window : nat) : Result Series :=
  let delta := diff data in
  let up := gains delta in
  let down := losses delta in
  a_up <- py_div 1 window ;;
  up_avg <- ewm up a_up window ;;
  a_down <- py_div 1 window ;;
  down_avg <- ewm down a_down window ;;
  let RS := series_binop vdiv up_avg down_avg in
  Ok (series_map rsi_of_rs RS).

(** ** Labels *)

Inductive Label := Buy | Sell | Hold.

Definition Label_eqb (a b : Label) : bool :=
  match a, b with
  | Buy, Buy | Sell, Sell | Hold, Hold => true
  | _, _ => false
  end.

Definition LabelSeries := list (nat * Label).

(** [pd.Series(values, index=idx)]: the lengths must agree. *)
Definition pd_Series (targets : list Label) (idx : list nat) : Result LabelSeries :=
  if length targets =? length idx then Ok (combine idx targets)
  else Raise ValueError.

(** ** Feature tables *)

(** Columns of the third cell's table. *)
Record Features := {
  f_index : list nat;
  SMA_20 : list value;
  EMA_12 : list value;
  MACD : list value;
  MACD_signal : list value;
  RSI_14 : list value;
  BB_upper : list value;
  BB_lower : list value;
  EMA_crossover : list bool;
  RSI_momentum : list value;
  BB_width : list value
}.

(** Columns of the second cell's table. *)
Record Features_v2 := {
  f2_index : list nat;
  SMA_20_v2 : list value;
  RSI_14_v2 : list value;
  MACD_v2 : list value;
  MACD_signal_v2 : list value;
  BB_upper_v2 : list value;
  BB_lower_v2 : list value;
  RSI_momentum_v2 : list value;
  BB_width_v2 : list value
}.

(** An empty frame takes the index of the first series stored in it. *)
Definition adopt_index (idx : list nat) (s : Series) : list nat :=
  match idx, s with
  | [], _ :: _ => index s
  | _, _ => idx
  end.

(** [frame[col] = s]: the series is aligned to the frame's index.  (A
    series with repeated labels and another index cannot be aligned:
    pandas raises [ValueError]; the series stored by [create_features]
    have distinct labels whenever the prices have.) *)
Definition reindex (idx : list nat) (s : Series) : list value :=
  if list_eq_dec Nat.eq_dec (index s) idx then values s
  else map (fun l => lookup l s) idx.

Fixpoint position (l : nat) (idx : list nat) : option nat :=
  match idx with
  | [] => None
  | k :: tl => if k =? l then Some 0%nat else option_map S (position l tl)
  end.

(** [frame.loc[l, col]] read as one cell, as the labelling rules do.  A
    label that no row carries raises [KeyError].  A label carried by
    several rows makes [.loc] return a Series instead of a cell, and the
    rules, which take its truth value, then fail with [ValueError]. *)
Definition loc {A} (idx : list nat) (col : list A) (l : nat) : Result A :=
  match position l idx with
  | None => Raise KeyError
  | Some p =>
      if existsb (Nat.eqb l) (skipn (S p) idx) then Raise ValueError
      else
        match nth_error col p with
        | Some v => Ok v
        | None => Raise KeyError
        end
  end.

(** [s.iloc[i]] *)
Definition iloc (s : Series) (i : nat) : Result value :=
  match nth_error (values s) i with
  | Some v => Ok v
  | None => Raise IndexError
  end.

Section Pipeline.
Variable sqrtQ : Q -> Q.

Definition calculate_bollinger_bands (data : Series) (window : nat)
  : Series * Series :=
  let rolling_mean_ := rolling_mean window (values data) in
  let std := rolling_std sqrtQ window (values data) in
  let two_std := map (vmul (Some 2)) std in
  (on_index data (map2 vadd rolling_mean_ two_std),
   on_index data (map2 vsub rolling_mean_ two_std)).

(** Third cell. *)
Definition create_features (data : Series) : Result Features :=
  let sma := calculate_SMA data 20 in
  let idx := adopt_index [] sma in
  let c_sma := reindex idx sma in
  ema <- calculate_EMA data 12 ;;
  let c_ema := reindex idx ema in
  m <- calculate_MACD data 26 12 9 ;;
  let c_macd := reindex idx (fst m) in
  let c_signal := reindex idx (snd m) in
  rsi <- calculate_RSI data 14 ;;
  let c_rsi := reindex idx rsi in
  let bb := calculate_bollinger_bands data 20 in
  let c_upper := reindex idx (fst bb) in
  let c_lower := reindex idx (snd bb) in
  Ok {| f_index := idx;
        SMA_20 := c_sma;
        EMA_12 := c_ema;
        MACD := c_macd;
        MACD_signal := c_signal;
        RSI_14 := c_rsi;
        BB_upper := c_upper;
        BB_lower := c_lower;
        EMA_crossover := map2 vgt c_ema c_sma;
        RSI_momentum := diff_values c_rsi;
        BB_width := map2 vsub c_upper c_lower |}.

(** Second cell. *)
Definition create_features_v2 (data : Series) : Result Features_v2 :=
  let sma := calculate_SMA data 20 in
  let idx := adopt_index [] sma in
  let c_sma := reindex idx sma in
  rsi <- calculate_RSI data 14 ;;
  let c_rsi := reindex idx rsi in
  m <- calculate_MACD_v2 data 26 12 9 ;;
  let c_macd := reindex idx (fst m) in
  let c_signal := reindex idx (snd m) in
  let bb := calculate_bollinger_bands data 20 in
  let c_upper := reindex idx (fst bb) in
  let c_lower := reindex idx (snd bb) in
  Ok {| f2_index := idx;
        SMA_20_v2 := c_sma;
        RSI_14_v2 := c_rsi;
        MACD_v2 := c_macd;
        MACD_signal_v2 := c_signal;
        BB_upper_v2 := c_upper;
        BB_lower_v2 := c_lower;
        RSI_momentum_v2 := diff_values c_rsi;
        BB_width_v2 := map2 vsub c_upper c_lower |}.
End Pipeline.

(** ** Labelling *)

(** [a and b] evaluates [b] only when [a] holds. *)
Definition py_and (a : Result bool) (b : Result bool) : Result bool :=
  x <- a ;; if x then b else Ok false.

(** Third cell: the rule applied to row [i]. *)
Definition label_row (features : Features) (i : nat) : Result Label :=
  let crossover := loc (f_index features) (EMA_crossover features) i in
  let rsi := loc (f_index features) (RSI_14 features) i in
  buy <- py_and crossover (r <- rsi ;; Ok (vlt r (Some 30))) ;;
  if buy then Ok Buy
  else
    sell <- py_and (c <- crossover ;; Ok (negb c))
                   (r <- rsi ;; Ok (vgt r (Some 70))) ;;
    if sell then Ok Sell else Ok Hold.

Fixpoint target_loop (features : Features) (rows : list nat)
         (targets : list Label) : Result (list Label) :=
  match rows with
  | [] => Ok targets
  | i :: rest =>
      t <- label_row features i ;;
      target_loop features rest (targets ++ [t])
  end.

(** Third cell: the [return] follows the loop. *)
Definition define_target (data : Series) (features : Features)
  : Result LabelSeries :=
  targets <- target_loop features (seq 0 (length data)) [] ;;
  pd_Series targets (index data).

(** Second cell: the rule applied to row [i]. *)
Definition label_row_v2 (data : Series) (features : Features_v2) (i : nat)
  : Result Label :=
  let rsi := loc (f2_index features) (RSI_14_v2 features) i in
  let sma := loc (f2_index features) (SMA_20_v2 features) i in
  buy <- py_and (r <- rsi ;; Ok (vlt r (Some 30)))
                (p <- iloc data i ;; s <- sma ;; Ok (vgt p s)) ;;
  if buy then Ok Buy
  else
    sell <- py_and (r <- rsi ;; Ok (vgt r (Some 70)))
                   (p <- iloc data i ;; s <- sma ;; Ok (vlt p s)) ;;
    if sell then Ok Sell else Ok Hold.

(** Second cell: the [return] is the last statement of the loop body, so
    the first iteration leaves the function; with no iteration at all the
    function falls off its end and gives Python's [None]. *)
Definition target_loop_v2 (data : Series) (features : Features_v2)
           (rows : list nat) (targets : list Label)
  : Result (option LabelSeries) :=
  match rows with
  | [] => Ok None
  | i :: _ =>
      t <- label_row_v2 data features i ;;
      s <- pd_Series (targets ++ [t]) (index data) ;;
      Ok (Some s)
  end.

Definition define_target_v2 (data : Series) (features : Features_v2)
  : Result (option LabelSeries) :=
  target_loop_v2 data features (seq 0 (length data)) [].

(** ** The stand-alone script *)

Record ScriptRow := { Close : value; Script_SMA_20 : value }.

Definition ScriptFrame := list (nat * ScriptRow).

(** [data['SMA_20'] = calculate_SMA(data, window=20)], where the script's
    [calculate_SMA] rolls over [data['Close']]. *)
Definition script_create_features (close : Series) : ScriptFrame :=
  map2 (fun r sma => (fst r, {| Close := snd r; Script_SMA_20 := sma |}))
       close (values (calculate_SMA close 20)).

(** [np.where(data['Close'] > data['SMA_20'], 'Buy', 'Sell')] *)
Definition trading_decision (data : ScriptFrame) : LabelSeries :=
  map (fun r =>
         (fst r,
          if vgt (Close (snd r)) (Script_SMA_20 (snd r)) then Buy else Sell))
      data.

(** ** Evaluation: what reaches the AUC-ROC computation

    The classifier and the metric are library code.  The embedding keeps
    the arguments the notebooks build for [roc_auc_score] and the test
    with which that function chooses between its binary and its
    multiclass computation; the area itself is not computed. *)

(** Class labels in the order scikit-learn gives them (sorted strings). *)
Definition classes_of (y : list Label) : list Label :=
  filter (fun c => existsb (Label_eqb c) y) [Buy; Hold; Sell].

Inductive Score :=
| Score1D (v : list Q)
| Score2D (m : list (list Q)).

Inductive multi_class_mode := mc_raise | mc_ovr | mc_ovo.

Inductive auc_job :=
| BinaryJob (y_true : list Label) (y_score : Score)
| MulticlassJob (mode : multi_class_mode) (y_true : list Label) (y_score : Score).

Definition is_multiclass (y_true : list Label) : bool :=
  2 <? length (classes_of y_true).

Definition wide_score (y_score : Score) : bool :=
  match y_score with
  | Score1D _ => false
  | Score2D m => match m with [] => false | row :: _ => 2 <? length row end
  end.

(** The binary computation needs both classes among the true labels
    and raises [ValueError] when only one is present. *)
Definition roc_auc_score (y_true : list Label) (y_score : Score)
           (multi_class : multi_class_mode) : Result auc_job :=
  if (is_multiclass y_true || wide_score y_score)%bool then
    match multi_class with
    | mc_raise => Raise ValueError
    | mode => Ok (MulticlassJob mode y_true y_score)
    end
  else if length (classes_of y_true) <? 2 then Raise ValueError
  else Ok (BinaryJob y_true y_score).

(** [m[:, k]] *)
Fixpoint column (k : nat) (m : list (list Q)) : Result (list Q) :=
  match m with
  | [] => Ok []
  | row :: tl =>
      match nth_error row k with
      | None => Raise IndexError
      | Some x => rest <- column k tl ;; Ok (x :: rest)
      end
  end.

(** Second and third cell, [build_model]:
    [roc_auc_score(y_test, model.predict_proba(X_test)[:, 1])] *)
Definition build_model_auc_score (proba : list (list Q)) : Result Score :=
  col <- column 1 proba ;; Ok (Score1D col).

Definition build_model_auc (y_test : list Label) (proba : list (list Q))
  : Result auc_job :=
  y_score <- build_model_auc_score proba ;;
  roc_auc_score y_test y_score mc_raise.

(** [pd.get_dummies(y)]: one indicator column per label present in [y]. *)
Definition get_dummies (y : list Label) : list (list bool) :=
  map (fun l => map (Label_eqb l) (classes_of y)) y.

(** The script's [evaluate]: both arguments of [roc_auc_score] are
    indicator tables. *)
Definition evaluate_auc_args (y_true y_pred : list Label)
  : list (list bool) * list (list bool) :=
  (get_dummies y_true, get_dummies y_pred).

(** A score covers the classes when it has one column for each. *)
Definition covers_classes (n_classes : nat) (y_score : Score) : bool :=
  match y_score with
  | Score1D _ => n_classes <=? 1
  | Score2D m => forallb (fun row => length row =? n_classes) m
  end.

(** ** main (third cell)

    The body ends with a call of [main] itself.  [stack] is the number of
    frames the interpreter still allows; when none is left the call
    raises [RecursionError].  The fetch and the model fit are external:
    [download] gives the answer of the fetch made by the [call]-th
    activation, [build_model] the outcome of fitting and scoring. *)
Section Main.
Variable sqrtQ : Q -> Q.
Variable download : nat -> Result Series.
Variable build_model : Features -> LabelSeries -> Result unit.

Fixpoint main (stack call : nat) : Result unit :=
  match stack with
  | O => Raise RecursionError
  | S stack' =>
      data <- download call ;;
      features <- create_features sqrtQ data ;;
      target <- define_target data features ;;
      _ <- build_model features target ;;
      _ <- main stack' (S call) ;;
      Ok tt
  end.
End Main.

(** ** Reference notions used in the statements *)

(** Positions [lo .. hi) of a list. *)
Definition slice {A} (l : list A) (lo hi : nat) : list A :=
  firstn (hi - lo) (skipn lo l).

Fixpoint obs_sum (l : list value) : Q :=
  match l with
  | [] => 0
  | Some x :: tl => x + obs_sum tl
  | None :: tl => obs_sum tl
  end.

Fixpoint obs_count (l : list value) : nat :=
  match l with
  | [] => O
  | Some _ :: tl => S (obs_count tl)
  | None :: tl => obs_count tl
  end.

(** Arithmetic mean of a list of cells: missing when the list is empty
    or holds a missing cell. *)
Definition mean_of (l : list value) : value :=
  if (forallb is_obs l && negb (length l =? 0))%bool
  then Some (obs_sum l / inject_Z (Z.of_nat (length l)))
  else None.

(** A series is well formed when no label occurs twice. *)
Definition well_formed (s : Series) : Prop := NoDup (index s).

(** The dense integer index [0 .. n-1]. *)
Definition range_indexed (s : Series) : Prop := index s = seq 0 (length s).

Definition const_series (n : nat) (c : Q) : Series :=
  map (fun i => (i, Some c)) (seq 0 n).

(** The running state of the rolling mean describes the cells [l]. *)
Definition mean_inv (st : mean_state) (l : list value) : Prop :=
  fst st = Z.of_nat (obs_count l) /\ snd st == obs_sum l.

(** ** Sample inputs *)

Definition sma_example : Series :=
  [(0%nat, Some 1); (1%nat, Some 2); (2%nat, Some 6)].

(** Cells that never decrease from one row to the next. *)
Fixpoint increasing_from (prev : Q) (l : list value) : bool :=
  match l with
  | [] => true
  | Some x :: tl => (Qle_bool prev x && increasing_from x tl)%bool
  | None :: _ => false
  end.

Definition increasing (s : Series) : bool :=
  match values s with
  | Some x :: tl => increasing_from x tl
  | _ => false
  end.

(** The row's close lies strictly above its moving average, both defined. *)
Definition close_above_sma (r : ScriptRow) : Prop :=
  exists c s, Close r = Some c /\ Script_SMA_20 r = Some s /\ s < c.

Definition two_rows : Series := [(0%nat, Some 10); (1%nat, Some 11)].

Definition two_rows_features_v2 : Features_v2 :=
  {| f2_index := [0; 1]%nat;
     SMA_20_v2 := [None; None];
     RSI_14_v2 := [None; None];
     MACD_v2 := [None; None];
     MACD_signal_v2 := [None; None];
     BB_upper_v2 := [None; None];
     BB_lower_v2 := [None; None];
     RSI_momentum_v2 := [None; None];
     BB_width_v2 := [None; None] |}.

Definition script_example : ScriptFrame :=
  [(0%nat, {| Close := Some 10; Script_SMA_20 := None |});
   (1%nat, {| Close := Some 12; Script_SMA_20 := Some 11 |});
   (2%nat, {| Close := Some 9; Script_SMA_20 := Some (21 # 2) |})].

Definition three_class_test : list Label := [Buy; Sell; Hold; Hold].

Definition three_class_proba : list (list Q) :=
  [[6 # 10; 3 # 10; 1 # 10];
   [1 # 10; 2 # 10; 7 # 10];
   [2 # 10; 7 # 10; 1 # 10];
   [3 # 10; 4 # 10; 3 # 10]].

(** A table lines up with the price series: same index, full columns. *)
Definition aligned (data : Series) (features : Features) : Prop :=
  f_index features = index data /\
  length (EMA_crossover features) = length data /\
  length (RSI_14 features) = length data.

(** Adjusted exponential smoothing in closed form, on the observations
    seen so far listed from the newest to the oldest: the weighted sum
    [x_t + (1-a) x_(t-1) + (1-a)^2 x_(t-2) + ...] and the sum of the
    weights [1 + (1-a) + (1-a)^2 + ...]. *)
Fixpoint ewm_num (alpha : Q) (newest_first : list Q) : Q :=
  match newest_first with
  | [] => 0
  | x :: older => x + (1 - alpha) * ewm_num alpha older
  end.

Fixpoint ewm_den (alpha : Q) (n : nat) : Q :=
  match n with
  | O => 0
  | S k => 1 + (1 - alpha) * ewm_den alpha k
  end.

(** The smoothing factor of the second cell's [calculate_MACD]. *)
Definition wilder_alpha (w : nat) : Q :=
  inject_Z (Z.of_nat 1) / inject_Z (Z.of_nat w).

(** The state kept by the smoothing loop is the closed form on the
    observations seen so far. *)
Definition ewm_inv (alpha : Q) (weighted : value) (old_wt : Q)
           (newest_first : list Q) : Prop :=
  exists wv, weighted = Some wv /\
    wv * ewm_den alpha (length newest_first) == ewm_num alpha newest_first /\
    old_wt == ewm_den alpha (length newest_first).



Definition positive_or_missing (v : value) : Prop :=
  match v with
  | None => True
  | Some x => 0 < x
  end.




(** The averages the RSI is usually built from: every row counts, a row
    without a loss counts as a loss of zero (and likewise for gains). *)
Definition clip_loss (v : value) : value :=
  option_map (fun x => if Qltb x 0 then - x else 0) v.

Definition clip_gain (v : value) : value :=
  option_map (fun x => if Qltb 0 x then x else 0) v.

Definition usual_average_loss (data : Series) (w : nat) : list value :=
  ewm_mean (wilder_alpha w) (Z.of_nat w)
           (map clip_loss (diff_values (values data))).

Definition usual_average_gain (data : Series) (w : nat) : list value :=
  ewm_mean (wilder_alpha w) (Z.of_nat w)
           (map clip_gain (diff_values (values data))).

Definition rising : Series :=
  [(0%nat, Some 1); (1%nat, Some 2); (2%nat, Some 3); (3%nat, Some 5)].


(** A list transformer whose output up to any row is fixed by its input
    up to that row. *)
Definition prefix_stable {A B} (F : list A -> list B) : Prop :=
  forall k l, firstn k (F l) = F (firstn k l).

(** The cells of row [i] of a feature table, column by column. *)
Definition feature_row (f : Features) (i : nat) :=
  (nth_error (f_index f) i,
   (nth_error (SMA_20 f) i, nth_error (EMA_12 f) i),
   (nth_error (MACD f) i, nth_error (MACD_signal f) i),
   (nth_error (RSI_14 f) i, nth_error (RSI_momentum f) i),
   (nth_error (BB_upper f) i, nth_error (BB_lower f) i),
   (nth_error (BB_width f) i, nth_error (EMA_crossover f) i)).

(** The columns of the third cell's table as functions of the cells of
    the price series. *)
Definition ema_column (w : nat) (vals : list value) : list value :=
  ewm_mean (ema_alpha w) (Z.of_nat w) vals.

Definition macd_column (vals : list value) : list value :=
  map2 vsub (ema_column 12 vals) (ema_column 26 vals).

Definition signal_column (vals : list value) : list value :=
  ema_column 9 (macd_column vals).

Definition rsi_column (vals : list value) : list value :=
  repeat None (length vals).

Definition two_std_column (sqrtQ : Q -> Q) (vals : list value) : list value :=
  map (vmul (Some 2)) (rolling_std sqrtQ 20 vals).

Definition upper_column (sqrtQ : Q -> Q) (vals : list value) : list value :=
  map2 vadd (rolling_mean 20 vals) (two_std_column sqrtQ vals).

Definition lower_column (sqrtQ : Q -> Q) (vals : list value) : list value :=
  map2 vsub (rolling_mean 20 vals) (two_std_column sqrtQ vals).

Definition feature_columns (sqrtQ : Q -> Q) (idx : list nat)
           (vals : list value) : Features :=
  {| f_index := idx;
     SMA_20 := rolling_mean 20 vals;
     EMA_12 := ema_column 12 vals;
     MACD := macd_column vals;
     MACD_signal := signal_column vals;
     RSI_14 := rsi_column vals;
     BB_upper := upper_column sqrtQ vals;
     BB_lower := lower_column sqrtQ vals;
     EMA_crossover := map2 vgt (ema_column 12 vals) (rolling_mean 20 vals);
     RSI_momentum := diff_values (rsi_column vals);
     BB_width := map2 vsub (upper_column sqrtQ vals) (lower_column sqrtQ vals) |}.

Definition causal_example_a : Series :=
  [(0%nat, Some 1); (1%nat, Some 2); (2%nat, Some 6)].

Definition causal_example_b : Series :=
  [(0%nat, Some 1); (1%nat, Some 2); (2%nat, Some 1); (3%nat, Some 9)].

(** A series in which one label is used for every row. *)
Definition repeated_label_example : Series :=
  [(0%nat, Some 1); (0%nat, Some 2); (0%nat, Some 1)].

(** ** Shapes of the feature tables *)

(** Every column of the third cell's table has [n] cells. *)
Definition columns_have_length (f : Features) (n : nat) : Prop :=
  length (SMA_20 f) = n /\ length (EMA_12 f) = n /\
  length (MACD f) = n /\ length (MACD_signal f) = n /\
  length (RSI_14 f) = n /\ length (BB_upper f) = n /\
  length (BB_lower f) = n /\ length (EMA_crossover f) = n /\
  length (RSI_momentum f) = n /\ length (BB_width f) = n.

(** Every column of the second cell's table has [n] cells. *)
Definition columns_have_length_v2 (f : Features_v2) (n : nat) : Prop :=
  length (SMA_20_v2 f) = n /\ length (RSI_14_v2 f) = n /\
  length (MACD_v2 f) = n /\ length (MACD_signal_v2 f) = n /\
  length (BB_upper_v2 f) = n /\ length (BB_lower_v2 f) = n /\
  length (RSI_momentum_v2 f) = n /\ length (BB_width_v2 f) = n.

(** ** Sample variance of a window *)

Fixpoint obs_sumsq (l : list value) : Q :=
  match l with
  | [] => 0
  | Some x :: tl => x * x + obs_sumsq tl
  | None :: tl => obs_sumsq tl
  end.

(** Sum of the squared deviations of the cells of [l] from [m]. *)
Fixpoint sq_dev_sum (m : Q) (l : list value) : Q :=
  match l with
  | [] => 0
  | Some x :: tl => (x - m) * (x - m) + sq_dev_sum m tl
  | None :: tl => sq_dev_sum m tl
  end.

(** Sample variance (divisor [n - 1]) of a list of cells: missing when
    a cell is missing or when there are fewer than two cells. *)
Definition variance_of (l : list value) : value :=
  match mean_of l with
  | Some m =>
      if 1 <? length l
      then Some (sq_dev_sum m l / inject_Z (Z.of_nat (length l) - 1))
      else None
  | None => None
  end.

(** The running state of the rolling variance describes the cells [l]. *)
Definition var_inv (st : var_state) (l : list value) : Prop :=
  v_nobs st = Z.of_nat (obs_count l) /\
  v_mean st * inject_Z (Z.of_nat (obs_count l)) == obs_sum l /\
  v_ssqdm st
  + inject_Z (Z.of_nat (obs_count l)) * (v_mean st * v_mean st)
  == obs_sumsq l.

Definition bollinger_example : Series :=
  [(0%nat, Some 1); (1%nat, Some 3); (2%nat, Some 7)].

(** ** Ranges *)

(** A cell is missing or lies between [lo] and [hi]. *)
Definition within (lo hi : Q) (v : value) : Prop :=
  match v with
  | None => True
  | Some x => lo <= x /\ x <= hi
  end.

(** A cell is missing or zero. *)
Definition zero_or_missing (v : value) : Prop :=
  match v with
  | None => True
  | Some x => x == 0
  end.

(** ** Further sample inputs *)

Definition four_rows : Series :=
  [(0%nat, Some 10); (1%nat, Some 12); (2%nat, Some 11); (3%nat, Some 15)].

Definition one_row : Series := [(0%nat, Some 10)].

Definition one_row_features_v2 : Features_v2 :=
  {| f2_index := [0%nat];
     SMA_20_v2 := [None];
     RSI_14_v2 := [None];
     MACD_v2 := [None];
     MACD_signal_v2 := [None];
     BB_upper_v2 := [None];
     BB_lower_v2 := [None];
     RSI_momentum_v2 := [None];
     BB_width_v2 := [None] |}.

Definition dated_row : Series := [(5%nat, Some 10)].

(** A table in which the label 0 is carried by every row. *)
Definition repeated_label_features : Features :=
  {| f_index := [0; 0; 0]%nat;
     SMA_20 := [None; None; None];
     EMA_12 := [None; None; None];
     MACD := [None; None; None];
     MACD_signal := [None; None; None];
     RSI_14 := [None; None; None];
     BB_upper := [None; None; None];
     BB_lower := [None; None; None];
     EMA_crossover := [false; false; false];
     RSI_momentum := [None; None; None];
     BB_width := [None; None; None] |}.

(** Twenty-one rows with the closes 0, 1, ..., 20. *)
Definition ramp : Series :=
  map (fun i => (i, Some (inject_Z (Z.of_nat i)))) (seq 0 21).

Definition gap_series : Series :=
  [(0%nat, Some 1); (1%nat, None); (2%nat, Some 3)].

(** ** The script's example run, by column names

    The frame the script downloads is followed here through its column
    names: [extract_data] gives a table with named columns, the script's
    [create_features] reads the column [Close] and stores [SMA_20], and
    the example run then asks for the table without the column
    [Signal]. *)
Section ScriptRun.
Import String.

Record NamedFrame := {
  nf_index : list nat;
  nf_columns : list (string * list value)
}.

Definition column_names (frame : NamedFrame) : list string :=
  map fst (nf_columns frame).

(** [frame[name]] *)
Fixpoint find_column (name : string) (cols : list (string * list value))
  : option (list value) :=
  match cols with
  | [] => None
  | (k, c) :: tl => if String.eqb k name then Some c else find_column name tl
  end.

Definition get_column (name : string) (frame : NamedFrame)
  : Result (list value) :=
  match find_column name (nf_columns frame) with
  | Some c => Ok c
  | None => Raise KeyError
  end.

(** [frame[name] = col]: an existing column is overwritten in place, a new
    one is appended. *)
Fixpoint store_column (name : string) (col : list value)
         (cols : list (string * list value)) : list (string * list value) :=
  match cols with
  | [] => [(name, col)]
  | (k, c) :: tl =>
      if String.eqb k name then (k, col) :: tl
      else (k, c) :: store_column name col tl
  end.

Definition set_column (name : string) (col : list value) (frame : NamedFrame)
  : NamedFrame :=
  {| nf_index := nf_index frame;
     nf_columns := store_column name col (nf_columns frame) |}.

(** [frame.drop([name], axis=1)] *)
Definition drop_column (name : string) (frame : NamedFrame)
  : Result NamedFrame :=
  match find_column name (nf_columns frame) with
  | None => Raise KeyError
  | Some _ =>
      Ok {| nf_index := nf_index frame;
            nf_columns :=
              filter (fun kc => negb (String.eqb (fst kc) name))
                     (nf_columns frame) |}
  end.

(** The script's [calculate_SMA]:
    [data['Close'].rolling(window=window).mean()] *)
Definition script_calculate_SMA (data : NamedFrame) (window : nat)
  : Result (list value) :=
  close <- get_column "Close" data ;;
  Ok (rolling_mean window close).

(** The script's [create_features]:
    [data['SMA_20'] = calculate_SMA(data, window=20)] *)
Definition script_create_features_named (data : NamedFrame)
  : Result NamedFrame :=
  sma <- script_calculate_SMA data 20 ;;
  Ok (set_column "SMA_20" sma data).

(** The first two lines of the example run after the download:
    [features = create_features(data)]
    [X = features.drop(['Signal'], axis=1)] *)
Definition script_features_X (data : NamedFrame) : Result NamedFrame :=
  features <- script_create_features_named data ;;
  drop_column "Signal" features.

Definition downloaded_example : NamedFrame :=
  {| nf_index := [0; 1]%nat;
     nf_columns :=
       [("Open"%string, [Some 9; Some 10]); ("High"%string, [Some 11; Some 12]);
        ("Low"%string, [Some 8; Some 9]); ("Close"%string, [Some 10; Some 11]);
        ("Adj Close"%string, [Some 10; Some 11]); ("Volume"%string, [Some 100; Some 90])] |}.
End ScriptRun.

(** The third cell's rule on the cells of one row: the crossover flag
    [c] and the RSI [r]. *)
Definition row_rule (c : bool) (r : value) : Label :=
  if (c && vlt r (Some 30))%bool then Buy
  else if (negb c && vgt r (Some 70))%bool then Sell
  else Hold.

Definition rule_at (features : Features) (i : nat) : Label :=
  match nth_error (EMA_crossover features) i,
        nth_error (RSI_14 features) i with
  | Some c, Some r => row_rule c r
  | _, _ => Hold
  end.

Definition rule_example : Features :=
  {| f_index := [0; 1; 2]%nat;
     SMA_20 := [None; None; None];
     EMA_12 := [None; None; None];
     MACD := [None; None; None];
     MACD_signal := [None; None; None];
     RSI_14 := [Some 25; Some 80; Some 50];
     BB_upper := [None; None; None];
     BB_lower := [None; None; None];
     EMA_crossover := [true; false; true];
     RSI_momentum := [None; None; None];
     BB_width := [None; None; None] |}.

(** ** build_model up to the fit (third cell)

    [train_test_split(features, target, test_size=0.2)] draws the rows
    of the training set at random; [split n] stands for the positions
    drawn for a table of [n] rows, training rows first.  The split raises
    [ValueError] when the training set would be empty.
    [LogisticRegression.fit] validates its input before anything else and
    raises [ValueError] when a cell of [X_train] is missing.  What comes
    after the validation (the fit itself, the predictions and the three
    scores) is library code, [fit_and_score]. *)

(** The float cells of row [p]; the crossover flag is a boolean and is
    never missing. *)
Definition feature_cells (f : Features) (p : nat) : list value :=
  [nth p (SMA_20 f) None; nth p (EMA_12 f) None; nth p (MACD f) None;
   nth p (MACD_signal f) None; nth p (RSI_14 f) None;
   nth p (BB_upper f) None; nth p (BB_lower f) None;
   nth p (RSI_momentum f) None; nth p (BB_width f) None].

Definition take_rows (f : Features) (positions : list nat)
  : Result (list (list value)) :=
  if forallb (fun p => p <? length (f_index f)) positions
  then Ok (map (feature_cells f) positions)
  else Raise IndexError.

Definition check_finite (X : list (list value)) : Result unit :=
  if forallb (forallb is_obs) X then Ok tt else Raise ValueError.

Section BuildModel.
Variable split : nat -> list nat * list nat.
Variable fit_and_score : list (list value) -> LabelSeries -> Result unit.

Definition build_model (features : Features) (target : LabelSeries)
  : Result unit :=
  let train := fst (split (length (f_index features))) in
  if length train =? 0 then Raise ValueError
  else
    X_train <- take_rows features train ;;
    _ <- check_finite X_train ;;
    fit_and_score X_train target.
End BuildModel.

(** ** The rolling mean in float64

    The cells of a price series are IEEE binary64 numbers, and pandas
    computes [rolling(window).mean()] on them with a sliding sum: each
    row removes the cells that left the window from the running sum and
    adds the cells that entered it, both with Kahan compensation, and
    the row is the quotient of the sum by the number of observations.
    This part follows that code on the primitive binary64 numbers, NaN
    and the infinities included; [rolling_mean] above is the same walk
    in exact arithmetic, where the compensations are zero and the
    guards of [calc_mean] never apply. *)
Module Float64.
Import PrimFloat FloatOps SpecFloat.

Definition Series := list (nat * float).

Definition index (s : Series) : list nat := map fst s.
Definition values (s : Series) : list float := map snd s.

Section Roll.
Variable St : Type.
Variable add remove : float -> St -> St.
Variable setup : float -> St.

(** [for j in range(lo, lo + len): st = f(vals[j], st)] *)
Fixpoint range_fold (f : float -> St -> St) (vals : list float)
         (lo len : nat) (st : St) : St :=
  match len with
  | O => st
  | S k => range_fold f vals (S lo) k (f (nth lo vals nan) st)
  end.

(** Row [i]: the window is rebuilt from [setup] at the first row and
    when it shares no cell with the previous one; otherwise the cells
    that left are removed, then the cells that entered are added. *)
Definition roll_step (w : nat) (vals : list float) (i : nat) (st : St) : St :=
  let s := win_start w i in
  let e := win_end w i in
  if (i =? 0) || (win_end w (i - 1) <=? s) then
    range_fold add vals s (e - s) (setup (nth s vals nan))
  else
    let st1 := range_fold remove vals
                 (win_start w (i - 1)) (s - win_start w (i - 1)) st in
    range_fold add vals (win_end w (i - 1)) (e - win_end w (i - 1)) st1.

(** The state after each row. *)
Fixpoint roll_loop (w : nat) (vals : list float) (i n : nat) (st : St)
  : list St :=
  match n with
  | O => []
  | S n' =>
      let st' := roll_step w vals i st in
      st' :: roll_loop w vals (S i) n' st'
  end.

Definition roll (w : nat) (vals : list float) : list St :=
  roll_loop w vals 0 (length vals) (setup nan).
End Roll.

(** The variables of [roll_mean]. *)
Record mean_state := {
  nobs : Z;
  sum_x : float;
  neg_ct : Z;
  compensation_add : float;
  compensation_remove : float;
  num_consecutive_same_value : Z;
  prev_value : float
}.

(** [add_mean]: Kahan summation; a NaN cell is skipped. *)
Definition add_mean (val : float) (st : mean_state) : mean_state :=
  if (val =? val)%float then
    let y := (val - compensation_add st)%float in
    let t := (sum_x st + y)%float in
    {| nobs := nobs st + 1;
       sum_x := t;
       neg_ct := if get_sign val then neg_ct st + 1 else neg_ct st;
       compensation_add := (t - sum_x st - y)%float;
       compensation_remove := compensation_remove st;
       num_consecutive_same_value :=
         if (val =? prev_value st)%float
         then num_consecutive_same_value st + 1
         else 1;
       prev_value := val |}
  else st.

(** [remove_mean] *)
Definition remove_mean (val : float) (st : mean_state) : mean_state :=
  if (val =? val)%float then
    let y := (- val - compensation_remove st)%float in
    let t := (sum_x st + y)%float in
    {| nobs := nobs st - 1;
       sum_x := t;
       neg_ct := if get_sign val then neg_ct st - 1 else neg_ct st;
       compensation_add := compensation_add st;
       compensation_remove := (t - sum_x st - y)%float;
       num_consecutive_same_value := num_consecutive_same_value st;
       prev_value := prev_value st |}
  else st.

(** The state from which a window is rebuilt; [first] is the cell at the
    start of the window. *)
Definition setup_mean (first : float) : mean_state :=
  {| nobs := 0;
     sum_x := 0%float;
     neg_ct := 0;
     compensation_add := 0%float;
     compensation_remove := 0%float;
     num_consecutive_same_value := 0;
     prev_value := first |}.

(** The cast [<float64_t>nobs]. *)
Definition float_of_Z (n : Z) : float := of_uint63 (Uint63.of_Z n).

(** [calc_mean]: the quotient, replaced by the repeated value when the
    window holds one value only, and by zero when its sign is one that
    the cells of the window cannot give. *)
Definition calc_mean (minp : Z) (st : mean_state) : float :=
  if ((minp <=? nobs st)%Z && (0 <? nobs st)%Z)%bool then
    let result := (sum_x st / float_of_Z (nobs st))%float in
    if (nobs st <=? num_consecutive_same_value st)%Z then prev_value st
    else if ((neg_ct st =? 0)%Z && (result <? 0)%float)%bool then 0%float
    else if ((neg_ct st =? nobs st)%Z && (0 <? result)%float)%bool then 0%float
    else result
  else nan.

(** [x.rolling(window=w).mean()] on the cells of a series;
    [min_periods] is the window. *)
Definition rolling_mean (w : nat) (vals : list float) : list float :=
  map (calc_mean (Z.of_nat w)) (roll add_mean remove_mean setup_mean w vals).

(** All three notebook cells: [return data.rolling(window=window).mean()] *)
Definition calculate_SMA (data : Series) (window : nat) : Series :=
  combine (index data) (rolling_mean window (values data)).

Section Script.
Import String.

(** The script's frame: an index and named columns of cells. *)
Record Frame := {
  fr_index : list nat;
  fr_columns : list (String.string * list float)
}.

Fixpoint find_column (name : String.string)
         (cols : list (String.string * list float)) : option (list float) :=
  match cols with
  | [] => None
  | (k, c) :: tl => if String.eqb k name then Some c else find_column name tl
  end.

(** The script:
    [return data['Close'].rolling(window=window).mean()] *)
Definition script_calculate_SMA (data : Frame) (window : nat)
  : Result Series :=
  match find_column "Close" (fr_columns data) with
  | Some close => Ok (combine (fr_index data) (rolling_mean window close))
  | None => Raise KeyError
  end.

End Script.

(** *** Reference notions *)

(** The rational number a finite binary64 number stands for (zero for
    NaN and the infinities). *)
Definition SF2Q (x : spec_float) : Q :=
  match x with
  | S754_finite s m e => inject_Z (if s then Z.neg m else Z.pos m) * (2 # 1) ^ e
  | _ => 0
  end.

Definition F2Q (x : float) : Q := SF2Q (Prim2SF x).






(** The [w] cells ending at row [i]. *)
Definition window (xs : list float) (w i : nat) : list float :=
  slice xs (S i - w) (S i).









(** *** Sample inputs *)


End Float64.

(** * Properties *)

Local Open Scope nat_scope.

(** ** Lists, slices and cells *)

Lemma veq_refl (a : value) : veq a a.
Proof. destruct a; simpl; [reflexivity | exact I]. Qed.

Lemma veqb_veq (a b : value) : veqb a b = true <-> veq a b.
Proof.
  destruct a, b; simpl; try apply Qeq_bool_iff; intuition congruence.
Qed.

Lemma index_length (s : Series) : length (index s) = length s.
Proof. apply length_map. Qed.

Lemma values_length (s : Series) : length (values s) = length s.
Proof. apply length_map. Qed.

Lemma combine_fst {A B} (a : list A) (b : list B) :
  length a = length b -> map fst (combine a b) = a.
Proof.
  revert b. induction a as [|x a IH]; intros [|y b] H; simpl in *;
    try discriminate; try reflexivity.
  f_equal. apply IH. lia.
Qed.

Lemma combine_snd {A B} (a : list A) (b : list B) :
  length a = length b -> map snd (combine a b) = b.
Proof.
  revert b. induction a as [|x a IH]; intros [|y b] H; simpl in *;
    try discriminate; try reflexivity.
  f_equal. apply IH. lia.
Qed.

Lemma on_index_length (s : Series) (vs : list value) :
  length vs = length s -> length (on_index s vs) = length s.
Proof.
  intros H. unfold on_index. rewrite length_combine, index_length. lia.
Qed.

Lemma on_index_index (s : Series) (vs : list value) :
  length vs = length s -> index (on_index s vs) = index s.
Proof.
  intros H. unfold on_index, index at 1.
  apply combine_fst. rewrite index_length. lia.
Qed.

Lemma on_index_values (s : Series) (vs : list value) :
  length vs = length s -> values (on_index s vs) = vs.
Proof.
  intros H. unfold on_index, values.
  apply combine_snd. rewrite index_length. lia.
Qed.

Lemma slice_nil {A} (l : list A) (a : nat) : slice l a a = [].
Proof. unfold slice. now rewrite Nat.sub_diag. Qed.

Lemma firstn_split {A} (n k : nat) (m : list A) :
  firstn n m ++ firstn k (skipn n m) = firstn (n + k) m.
Proof.
  revert m. induction n as [|n IH]; intros [|x m]; simpl; try reflexivity.
  - now rewrite firstn_nil.
  - now rewrite IH.
Qed.

Lemma slice_app {A} (l : list A) (a b c : nat) :
  a <= b -> b <= c -> slice l a b ++ slice l b c = slice l a c.
Proof.
  intros Hab Hbc. unfold slice.
  replace (c - a) with ((b - a) + (c - b)) by lia.
  rewrite <- firstn_split. f_equal. f_equal.
  rewrite skipn_skipn. f_equal. lia.
Qed.

Lemma slice_step {A} (d : A) (l : list A) (lo : nat) :
  lo < length l -> slice l lo (S lo) = [nth lo l d].
Proof.
  unfold slice. replace (S lo - lo) with 1 by lia.
  revert lo. induction l as [|x l IH]; intros [|lo] H; simpl in *; try lia.
  - reflexivity.
  - apply IH. lia.
Qed.

Lemma slice_length {A} (l : list A) (lo hi : nat) :
  hi <= length l -> length (slice l lo hi) = hi - lo.
Proof.
  intros H. unfold slice. rewrite length_firstn, length_skipn. lia.
Qed.

Lemma obs_count_app (l1 l2 : list value) :
  obs_count (l1 ++ l2) = obs_count l1 + obs_count l2.
Proof.
  induction l1 as [|[x|] l1 IH]; simpl; auto.
Qed.

Lemma obs_sum_app (l1 l2 : list value) :
  (obs_sum (l1 ++ l2) == obs_sum l1 + obs_sum l2)%Q.
Proof.
  induction l1 as [|[x|] l1 IH]; simpl; try rewrite IH; ring.
Qed.

Lemma obs_count_le (l : list value) : obs_count l <= length l.
Proof. induction l as [|[x|] l IH]; simpl; lia. Qed.

Lemma obs_count_full (l : list value) :
  obs_count l = length l <-> forallb is_obs l = true.
Proof.
  induction l as [|[x|] l IH]; simpl.
  - tauto.
  - rewrite <- IH. lia.
  - pose proof (obs_count_le l). split; [lia | discriminate].
Qed.

(** ** The rolling mean is the mean of the window *)

Lemma mean_inv_add (v : value) (st : mean_state) (l : list value) :
  mean_inv st l -> mean_inv (add_mean v st) (l ++ [v]).
Proof.
  intros [Hn Hs]. unfold mean_inv.
  rewrite obs_count_app, obs_sum_app.
  destruct v as [x|]; simpl; rewrite ?Hs, ?Hn; split; try lia; ring.
Qed.

Lemma mean_inv_remove (v : value) (st : mean_state) (l : list value) :
  mean_inv st (v :: l) -> mean_inv (remove_mean v st) l.
Proof.
  intros [Hn Hs]. unfold mean_inv.
  destruct v as [x|]; simpl in *; rewrite ?Hs, ?Hn; split; try lia; ring.
Qed.

Lemma range_fold_add (vals : list value) (len lo : nat) (st : mean_state)
      (l : list value) :
  lo + len <= length vals ->
  mean_inv st l ->
  mean_inv (range_fold add_mean vals lo len st) (l ++ slice vals lo (lo + len)).
Proof.
  revert lo st l. induction len as [|len IH]; intros lo st l Hb Hi; simpl.
  - now rewrite Nat.add_0_r, slice_nil, app_nil_r.
  - rewrite <- (slice_app vals (a := lo) (b := S lo)) by lia.
    rewrite (slice_step None vals) by lia.
    rewrite app_assoc. replace (lo + S len) with (S lo + len) by lia.
    apply IH; [lia|]. now apply mean_inv_add.
Qed.

Lemma range_fold_remove (vals : list value) (len lo : nat) (st : mean_state)
      (l : list value) :
  lo + len <= length vals ->
  mean_inv st (slice vals lo (lo + len) ++ l) ->
  mean_inv (range_fold remove_mean vals lo len st) l.
Proof.
  revert lo st l. induction len as [|len IH]; intros lo st l Hb Hi; simpl.
  - now rewrite Nat.add_0_r, slice_nil in Hi.
  - rewrite <- (slice_app vals (a := lo) (b := S lo)) in Hi by lia.
    rewrite (slice_step None vals) in Hi by lia.
    replace (lo + S len) with (S lo + len) in Hi by lia.
    apply IH; [lia|]. now apply mean_inv_remove.
Qed.

Lemma win_bounds (w i : nat) :
  win_start w i <= win_end w i /\ win_end w i <= S i /\
  win_start w (i - 1) <= win_start w i /\
  win_end w (i - 1) <= win_end w i.
Proof.
  unfold win_start, win_end. destruct (w =? 0); lia.
Qed.

(** One step of the walk re-establishes the description of the state by
    the current window, whether the window is rebuilt or slid. *)
Lemma roll_step_mean (w : nat) (vals : list value) (i : nat) (st : mean_state) :
  i < length vals ->
  (i = 0 \/ mean_inv st (slice vals (win_start w (i - 1)) (win_end w (i - 1)))) ->
  mean_inv (roll_step add_mean remove_mean mean_init w vals i st)
           (slice vals (win_start w i) (win_end w i)).
Proof.
  intros Hi Hst. unfold roll_step.
  destruct (win_bounds w i) as (Hse & He & Hss & Hee).
  assert (Hfresh : mean_inv (range_fold add_mean vals (win_start w i)
                     (win_end w i - win_start w i) mean_init)
                     (slice vals (win_start w i) (win_end w i))).
  { replace (win_end w i) with (win_start w i + (win_end w i - win_start w i))
      at 2 by lia.
    apply (range_fold_add vals _ _ (l := [])); [lia|].
    split; reflexivity. }
  destruct ((i =? 0) || (win_end w (i - 1) <=? win_start w i)) eqn:Hc.
  - exact Hfresh.
  - apply orb_false_iff in Hc. destruct Hc as [Hi0 Hov].
    apply Nat.eqb_neq in Hi0. apply Nat.leb_gt in Hov.
    destruct Hst as [->|Hst]; [lia|].
    destruct (win_bounds w (i - 1)) as (Hse' & He' & _).
    rewrite <- (slice_app vals (a := win_start w i) (b := win_end w (i - 1)))
      by lia.
    replace (win_end w i)
      with (win_end w (i - 1) + (win_end w i - win_end w (i - 1))) at 2 by lia.
    apply range_fold_add; [lia|].
    apply range_fold_remove; [lia|].
    replace (win_start w (i - 1) + (win_start w i - win_start w (i - 1)))
      with (win_start w i) by lia.
    rewrite slice_app by lia. exact Hst.
Qed.

Lemma roll_loop_length St (add remove : value -> St -> St) init calc
      (w : nat) (vals : list value) (n i : nat) (st : St) :
  length (roll_loop add remove init calc w vals i n st) = n.
Proof.
  revert i st. induction n as [|n IH]; intros; simpl; auto.
Qed.

Lemma roll_length St (add remove : value -> St -> St) init calc
      (w : nat) (vals : list value) :
  length (roll add remove init calc w vals) = length vals.
Proof. apply roll_loop_length. Qed.

Lemma roll_loop_mean (w : nat) (minp : Z) (vals : list value) (n i : nat)
      (st : mean_state) (k : nat) :
  i + n <= length vals ->
  (i = 0 \/ mean_inv st (slice vals (win_start w (i - 1)) (win_end w (i - 1)))) ->
  k < n ->
  exists st',
    nth_error (roll_loop add_mean remove_mean mean_init (calc_mean minp)
                         w vals i n st) k = Some (calc_mean minp st') /\
    mean_inv st' (slice vals (win_start w (i + k)) (win_end w (i + k))).
Proof.
  revert i st k. induction n as [|n IH]; intros i st k Hb Hst Hk; [lia|].
  simpl. pose proof (roll_step_mean w vals (i := i) (st := st)) as Hstep.
  specialize (Hstep ltac:(lia) Hst).
  destruct k as [|k]; simpl.
  - eexists. split; [reflexivity|]. now rewrite Nat.add_0_r.
  - replace (i + S k) with (S i + k) by lia.
    apply IH; [lia | | lia].
    right. now replace (S i - 1) with i by lia.
Qed.

(** The gate of [calc_mean] against the reference mean. *)
Lemma calc_mean_window (w : nat) (st : mean_state) (l : list value) :
  mean_inv st l -> length l = w ->
  veq (calc_mean (Z.of_nat w) st) (mean_of l).
Proof.
  intros [Hn Hs] Hl. unfold calc_mean, mean_of. rewrite Hn, Hl.
  pose proof (obs_count_le l) as Hle.
  destruct (forallb is_obs l) eqn:Hall.
  - apply obs_count_full in Hall. rewrite Hall, Hl.
    rewrite Z.leb_refl. simpl andb.
    destruct (Nat.eqb_spec w 0) as [->|Hw0].
    + simpl. exact I.
    + replace (0 <? Z.of_nat w)%Z with true by (symmetry; apply Z.ltb_lt; lia).
      simpl. now rewrite Hs.
  - assert (obs_count l <> length l) as Hne.
    { intros E. apply obs_count_full in E. congruence. }
    replace (Z.of_nat w <=? Z.of_nat (obs_count l))%Z with false
      by (symmetry; apply Z.leb_gt; lia).
    simpl. exact I.
Qed.

Lemma calc_mean_warmup (w : nat) (st : mean_state) (l : list value) :
  mean_inv st l -> length l < w -> calc_mean (Z.of_nat w) st = None.
Proof.
  intros [Hn _] Hl. unfold calc_mean. rewrite Hn.
  pose proof (obs_count_le l).
  replace (Z.of_nat w <=? Z.of_nat (obs_count l))%Z with false
    by (symmetry; apply Z.leb_gt; lia).
  reflexivity.
Qed.

Lemma rolling_mean_spec (w : nat) (vals : list value) (i : nat) :
  i < length vals ->
  exists v,
    nth_error (rolling_mean w vals) i = Some v /\
    (w <= S i -> veq v (mean_of (slice vals (S i - w) (S i)))) /\
    (S i < w -> v = None).
Proof.
  intros Hi. unfold rolling_mean, roll.
  destruct (roll_loop_mean w (Z.of_nat w) vals (n := length vals) (i := 0)
              (st := mean_init) (k := i) (Nat.le_refl _) (or_introl eq_refl) Hi)
    as (st & Hn & Hinv).
  simpl in Hinv. exists (calc_mean (Z.of_nat w) st). split; [exact Hn|].
  unfold win_start, win_end in Hinv. split; intros Hw.
  - destruct (w =? 0) eqn:Hw0.
    + apply Nat.eqb_eq in Hw0. subst w.
      rewrite Nat.sub_0_r, slice_nil in *.
      now apply calc_mean_window.
    + apply Nat.eqb_neq in Hw0.
      apply calc_mean_window; [exact Hinv|].
      rewrite slice_length by lia. lia.
  - destruct (w =? 0) eqn:Hw0; [apply Nat.eqb_eq in Hw0; lia|].
    apply calc_mean_warmup with (l := slice vals (S i - w) (S i)); [exact Hinv|].
    rewrite slice_length by lia. lia.
Qed.

(** In exact arithmetic [calculate_SMA] returns a series of the same
    length and index whose value at row [i] is the arithmetic mean of the
    [w] input cells at rows [i-w+1 .. i] when [i >= w-1], and is missing
    at every earlier row.  (The module [Float64] follows the same
    function on binary64 cells.) *)
Lemma calculate_SMA_exact (data : Series) (w : nat) :
  length (calculate_SMA data w) = length data /\
  index (calculate_SMA data w) = index data /\
  forall i, i < length data ->
    exists v,
      nth_error (values (calculate_SMA data w)) i = Some v /\
      (w <= S i -> veq v (mean_of (slice (values data) (S i - w) (S i)))) /\
      (S i < w -> v = None).
Proof.
  assert (Hlen : length (rolling_mean w (values data)) = length data).
  { unfold rolling_mean. now rewrite roll_length, values_length. }
  unfold calculate_SMA. split; [|split].
  - now apply on_index_length.
  - now apply on_index_index.
  - intros i Hi. rewrite on_index_values by exact Hlen.
    apply rolling_mean_spec. now rewrite values_length.
Qed.

(** ** Exponentially weighted mean: when the call is accepted *)

Lemma Qltb_lt (x y : Q) : Qltb x y = true <-> (x < y)%Q.
Proof.
  unfold Qltb. rewrite Qlt_alt. destruct (x ?= y)%Q; intuition congruence.
Qed.

Lemma inject_nat_pos (k : nat) : 1 <= k -> (0 < inject_Z (Z.of_nat k))%Q.
Proof.
  intros H. replace 0%Q with (inject_Z 0) by reflexivity.
  rewrite <- Zlt_Qlt. lia.
Qed.

Lemma py_div_ok (a b : nat) :
  1 <= b -> py_div a b = Ok (inject_Z (Z.of_nat a) / inject_Z (Z.of_nat b))%Q.
Proof.
  intros H. unfold py_div. destruct (Nat.eqb_spec b 0); [lia | reflexivity].
Qed.

Lemma ewm_ok (s : Series) (alpha : Q) (w : nat) :
  (0 < alpha)%Q -> (alpha <= 1)%Q -> 1 <= w ->
  ewm s alpha w = Ok (on_index s (ewm_mean alpha (Z.of_nat w) (values s))).
Proof.
  intros H0 H1 Hw. unfold ewm.
  apply Qltb_lt in H0. apply Qle_bool_iff in H1. rewrite H0, H1. simpl.
  now rewrite Z.max_l by lia.
Qed.

Lemma ema_alpha_range (w : nat) :
  1 <= w ->
  (0 < inject_Z (Z.of_nat 2) / inject_Z (Z.of_nat (w + 1)) /\
   inject_Z (Z.of_nat 2) / inject_Z (Z.of_nat (w + 1)) <= 1)%Q.
Proof.
  intros Hw. pose proof (inject_nat_pos (k := w + 1) ltac:(lia)) as Hp. split.
  - apply Qlt_shift_div_l; [exact Hp|]. rewrite Qmult_0_l. reflexivity.
  - apply Qle_shift_div_r; [exact Hp|]. rewrite Qmult_1_l.
    rewrite <- Zle_Qle. lia.
Qed.

Lemma wilder_alpha_range (w : nat) :
  1 <= w ->
  (0 < inject_Z (Z.of_nat 1) / inject_Z (Z.of_nat w) /\
   inject_Z (Z.of_nat 1) / inject_Z (Z.of_nat w) <= 1)%Q.
Proof.
  intros Hw. pose proof (inject_nat_pos Hw) as Hp. split.
  - apply Qlt_shift_div_l; [exact Hp|]. rewrite Qmult_0_l. reflexivity.
  - apply Qle_shift_div_r; [exact Hp|]. rewrite Qmult_1_l.
    rewrite <- Zle_Qle. lia.
Qed.

Lemma calculate_EMA_ok (data : Series) (w : nat) :
  1 <= w ->
  calculate_EMA data w =
  Ok (on_index data (ewm_mean (ema_alpha w) (Z.of_nat w) (values data))).
Proof.
  intros Hw. unfold calculate_EMA.
  rewrite py_div_ok by lia. simpl bind.
  destruct (ema_alpha_range Hw). now apply ewm_ok.
Qed.

Lemma calculate_EMA_window_zero (data : Series) :
  calculate_EMA data 0 = Raise ValueError.
Proof. reflexivity. Qed.

Lemma ewm_loop_length alpha minp (rest : list value) weighted old_wt nobs :
  length (ewm_loop alpha minp rest weighted old_wt nobs) = length rest.
Proof.
  revert weighted old_wt nobs.
  induction rest as [|cur tl IH]; intros; simpl; [reflexivity|].
  destruct (ewm_update alpha weighted old_wt cur). simpl. now rewrite IH.
Qed.

Lemma ewm_mean_length alpha minp (vals : list value) :
  length (ewm_mean alpha minp vals) = length vals.
Proof.
  destruct vals; simpl; [reflexivity|]. now rewrite ewm_loop_length.
Qed.

(** ** Constant series *)

Lemma const_series_values (n : nat) (c : Q) :
  values (const_series n c) = repeat (Some c) n.
Proof.
  unfold const_series, values. rewrite map_map. simpl.
  generalize 0. induction n as [|n IH]; intros k; simpl; [reflexivity|].
  now rewrite IH.
Qed.

Lemma const_series_length (n : nat) (c : Q) : length (const_series n c) = n.
Proof. unfold const_series. now rewrite length_map, length_seq. Qed.

Lemma slice_incl {A} (l : list A) (lo hi : nat) (x : A) :
  In x (slice l lo hi) -> In x l.
Proof.
  unfold slice. intros H.
  rewrite <- (firstn_skipn lo l). apply in_or_app. right.
  rewrite <- (firstn_skipn (hi - lo) (skipn lo l)). apply in_or_app. now left.
Qed.

Lemma slice_repeat {A} (x : A) (n lo hi : nat) :
  exists k, slice (repeat x n) lo hi = repeat x k.
Proof.
  exists (length (slice (repeat x n) lo hi)).
  apply Forall_eq_repeat, Forall_forall. intros y Hy.
  apply slice_incl in Hy. symmetry. now apply repeat_spec in Hy.
Qed.

Lemma obs_sum_repeat (c : Q) (k : nat) :
  (obs_sum (repeat (Some c) k) == inject_Z (Z.of_nat k) * c)%Q.
Proof.
  induction k as [|k IH].
  - simpl. ring.
  - change (obs_sum (repeat (Some c) (S k))) with (c + obs_sum (repeat (Some c) k))%Q.
    rewrite IH, Nat2Z.inj_succ. unfold Z.succ. rewrite inject_Z_plus. ring.
Qed.

Lemma mean_of_repeat (c : Q) (k : nat) (v : Q) :
  veq (Some v) (mean_of (repeat (Some c) k)) -> (v == c)%Q.
Proof.
  unfold mean_of. rewrite repeat_length.
  destruct (forallb is_obs (repeat (Some c) k) && negb (k =? 0)) eqn:E;
    simpl; [|tauto].
  apply andb_true_iff in E. destruct E as [_ E].
  apply negb_true_iff, Nat.eqb_neq in E.
  intros ->. rewrite obs_sum_repeat.
  pose proof (inject_nat_pos (k := k) ltac:(lia)).
  field. intros Hz. rewrite Hz in H. now apply Qlt_irrefl in H.
Qed.

Lemma sma_of_constant (n : nat) (c : Q) (w i : nat) (v : Q) :
  nth_error (values (calculate_SMA (const_series n c) w)) i = Some (Some v) ->
  (v == c)%Q.
Proof.
  intros Hv.
  assert (Hlen : length (rolling_mean w (values (const_series n c)))
                 = length (const_series n c)).
  { unfold rolling_mean. now rewrite roll_length, values_length. }
  unfold calculate_SMA in Hv. rewrite on_index_values in Hv by exact Hlen.
  assert (Hi : i < length (values (const_series n c))).
  { rewrite values_length, <- Hlen. apply nth_error_Some. congruence. }
  destruct (rolling_mean_spec w (values (const_series n c)) Hi)
    as (v' & Hv' & Hmean & Hwarm).
  rewrite Hv in Hv'. injection Hv' as <-.
  destruct (Nat.le_gt_cases w (S i)) as [Hw|Hw].
  - specialize (Hmean Hw). rewrite const_series_values in Hmean.
    destruct (slice_repeat (Some c : value) n (S i - w) (S i)) as (k & Hk).
    rewrite Hk in Hmean. now apply mean_of_repeat in Hmean.
  - specialize (Hwarm Hw). discriminate.
Qed.

Lemma ewm_loop_constant alpha minp (c : Q) (k : nat) old_wt nobs :
  Forall (fun v => v = None \/ v = Some c)
         (ewm_loop alpha minp (repeat (Some c) k) (Some c) old_wt nobs).
Proof.
  revert old_wt nobs. induction k as [|k IH]; intros; simpl; [constructor|].
  rewrite Qeq_bool_refl. constructor; [|apply IH].
  unfold ewm_gate. destruct (minp <=? _)%Z; auto.
Qed.

Lemma ewm_mean_constant alpha minp (c : Q) (n : nat) :
  Forall (fun v => v = None \/ v = Some c)
         (ewm_mean alpha minp (repeat (Some c) n)).
Proof.
  destruct n as [|n]; simpl; constructor.
  - unfold ewm_gate. destruct (minp <=? _)%Z; auto.
  - apply ewm_loop_constant.
Qed.

Lemma ema_of_constant (n : nat) (c : Q) (w i : nat) (v : Q) (s : Series) :
  calculate_EMA (const_series n c) w = Ok s ->
  nth_error (values s) i = Some (Some v) ->
  v = c.
Proof.
  intros Hs Hv. destruct w as [|w]; [discriminate|].
  rewrite calculate_EMA_ok in Hs by lia. injection Hs as <-.
  rewrite on_index_values in Hv
    by now rewrite ewm_mean_length, values_length.
  rewrite const_series_values in Hv.
  pose proof (ewm_mean_constant (ema_alpha (S w)) (Z.of_nat (S w)) c n) as H.
  rewrite Forall_forall in H. apply nth_error_In in Hv.
  destruct (H _ Hv) as [E|E]; congruence.
Qed.

(** C7, as amended.  For every constant price series and every window,
    every defined value of [calculate_SMA] and every defined value of
    [calculate_EMA] equals the constant. *)
Theorem constant_series_sma_ema (n : nat) (c : Q) (w i : nat) (v : Q) :
  (nth_error (values (calculate_SMA (const_series n c) w)) i = Some (Some v) ->
   (v == c)%Q) /\
  (forall s, calculate_EMA (const_series n c) w = Ok s ->
             nth_error (values s) i = Some (Some v) -> (v == c)%Q).
Proof.
  split.
  - apply sma_of_constant.
  - intros s Hs Hv. rewrite (ema_of_constant _ _ _ _ Hs Hv). reflexivity.
Qed.

Lemma constant_series_sma_ema_witness :
  exists v1 v2 s,
    nth_error (values (calculate_SMA (const_series 3 5) 2)) 1 = Some (Some v1) /\
    calculate_EMA (const_series 3 5) 2 = Ok s /\
    nth_error (values s) 2 = Some (Some v2) /\
    (v1 == 5)%Q /\ (v2 == 5)%Q.
Proof.
  eexists. eexists. eexists.
  split; [vm_compute; reflexivity|].
  split; [vm_compute; reflexivity|].
  split; [vm_compute; reflexivity|].
  split.
  - apply (proj1 (constant_series_sma_ema 3 5 2 1 _)). vm_compute. reflexivity.
  - eapply (proj2 (constant_series_sma_ema 3 5 2 2 _)); vm_compute; reflexivity.
Defined.

(** C7, as stated, fails: on the increasing series 1, 2, 6 the moving
    averages of window 2 differ from the input at the rows where they are
    defined. *)
Lemma increasing_series_sma_ema_differ :
  increasing sma_example = true /\
  nth_error (values sma_example) 1 = Some (Some 2%Q) /\
  (exists v, nth_error (values (calculate_SMA sma_example 2)) 1 = Some (Some v) /\
             (v == 3 # 2)%Q /\ ~ (v == 2)%Q) /\
  (exists s v, calculate_EMA sma_example 2 = Ok s /\
               nth_error (values s) 1 = Some (Some v) /\
               (v == 7 # 4)%Q /\ ~ (v == 2)%Q).
Proof.
  split; [reflexivity|]. split; [reflexivity|]. split.
  - eexists. split; [vm_compute; reflexivity|]. split; [reflexivity | discriminate].
  - eexists. eexists. split; [vm_compute; reflexivity|].
    split; [vm_compute; reflexivity|]. split; [reflexivity | discriminate].
Qed.

(** ** The script's trading rule *)

Lemma vlt_spec (a b : value) :
  vlt a b = true <-> exists x y, a = Some x /\ b = Some y /\ (x < y)%Q.
Proof.
  destruct a as [x|], b as [y|]; simpl; split;
    try discriminate; try (intros (x' & y' & E1 & E2 & _); discriminate).
  - intros H. apply Qltb_lt in H. eauto.
  - intros (x' & y' & E1 & E2 & H). injection E1 as <-. injection E2 as <-.
    now apply Qltb_lt.
Qed.

Lemma close_above_sma_vgt (r : ScriptRow) :
  vgt (Close r) (Script_SMA_20 r) = true <-> close_above_sma r.
Proof.
  unfold vgt, close_above_sma. rewrite vlt_spec. split.
  - intros (x & y & E1 & E2 & H). eauto.
  - intros (c & s & E1 & E2 & H). eauto.
Qed.

(** C9.  [trading_decision] gives every row of its input one label: Buy
    when the close is above the 20-row average, Sell otherwise (a missing
    average included); Hold is never produced. *)
Theorem trading_decision_buy_or_sell (data : ScriptFrame) :
  length (trading_decision data) = length data /\
  map fst (trading_decision data) = map fst data /\
  (forall i l r, nth_error data i = Some (l, r) ->
     exists t, nth_error (trading_decision data) i = Some (l, t) /\
               ((t = Buy /\ close_above_sma r) \/
                (t = Sell /\ ~ close_above_sma r))) /\
  ~ In Hold (map snd (trading_decision data)).
Proof.
  unfold trading_decision. split; [apply length_map|].
  split; [rewrite map_map; reflexivity|]. split.
  - intros i l r H. rewrite nth_error_map, H. simpl.
    eexists. split; [reflexivity|].
    destruct (vgt (Close r) (Script_SMA_20 r)) eqn:E.
    + left. split; [reflexivity|]. now apply close_above_sma_vgt.
    + right. split; [reflexivity|]. intros C.
      apply close_above_sma_vgt in C. congruence.
  - rewrite map_map. simpl. intros H. apply in_map_iff in H.
    destruct H as ((l & r) & E & _). simpl in E.
    destruct (vgt (Close r) (Script_SMA_20 r)); discriminate.
Qed.

Lemma trading_decision_buy_or_sell_witness :
  trading_decision script_example = [(0, Sell); (1, Buy); (2, Sell)] /\
  exists t, nth_error (trading_decision script_example) 1 = Some (1, t) /\
            ((t = Buy /\ close_above_sma {| Close := Some 12%Q;
                                            Script_SMA_20 := Some 11%Q |}) \/
             (t = Sell /\ ~ close_above_sma {| Close := Some 12%Q;
                                               Script_SMA_20 := Some 11%Q |})).
Proof.
  split; [reflexivity|].
  destruct (trading_decision_buy_or_sell script_example) as (_ & _ & H & _).
  apply (H 1 1). reflexivity.
Defined.

(** ** main *)

(** C10.  The body of [main] ends with a call of [main] and has no
    other way out: whatever the fetch and the model fit do, and however
    many frames are left, a call of [main] ends with an exception and
    never returns normally. *)
Theorem main_never_returns (sqrtQ : Q -> Q) (download : nat -> Result Series)
        (build_model : Features -> LabelSeries -> Result unit)
        (stack call : nat) :
  (exists e, main sqrtQ download build_model stack call = Raise e) /\
  main sqrtQ download build_model stack call <> Ok tt.
Proof.
  assert (H : exists e, main sqrtQ download build_model stack call = Raise e).
  { revert call. induction stack as [|stack IH]; intros call; cbn [main].
    - now exists RecursionError.
    - destruct (download call) as [data|e]; cbn [bind]; [|now exists e].
      destruct (create_features sqrtQ data) as [features|e]; cbn [bind];
        [|now exists e].
      destruct (define_target data features) as [target|e]; cbn [bind];
        [|now exists e].
      destruct (build_model features target) as [[]|e]; cbn [bind];
        [|now exists e].
      destruct (IH (S call)) as (e & He). rewrite He. now exists e. }
  split; [exact H|]. destruct H as (e & ->). discriminate.
Qed.

(** ** Labelling every row *)

Lemma pd_Series_ok (targets : list Label) (idx : list nat) :
  length targets = length idx ->
  pd_Series targets idx = Ok (combine idx targets).
Proof.
  intros H. unfold pd_Series. now rewrite H, Nat.eqb_refl.
Qed.

Lemma pd_Series_mismatch (targets : list Label) (idx : list nat) :
  length targets <> length idx -> pd_Series targets idx = Raise ValueError.
Proof.
  intros H. unfold pd_Series.
  destruct (Nat.eqb_spec (length targets) (length idx)); [contradiction|].
  reflexivity.
Qed.

(** C1, second cell.  With two rows or more the loop of the second
    cell's [define_target] is left in its first iteration with a single
    label, and building the result against the full index fails: no
    label sequence is returned. *)
Theorem define_target_v2_stops_after_first_row
        (data : Series) (features : Features_v2) :
  2 <= length data ->
  exists e, define_target_v2 data features = Raise e.
Proof.
  intros Hlen. unfold define_target_v2.
  destruct data as [|r0 [|r1 rest]]; simpl in Hlen; try lia.
  cbn [length seq target_loop_v2].
  destruct (label_row_v2 (r0 :: r1 :: rest) features 0) as [t|e];
    [|now exists e].
  cbn [bind]. rewrite pd_Series_mismatch.
  - now exists ValueError.
  - simpl. lia.
Qed.

Lemma define_target_v2_stops_after_first_row_witness :
  2 <= length two_rows /\
  exists e, define_target_v2 two_rows two_rows_features_v2 = Raise e.
Proof.
  split; [simpl; lia|].
  apply define_target_v2_stops_after_first_row. simpl. lia.
Defined.

Lemma define_target_v2_two_rows :
  define_target_v2 two_rows two_rows_features_v2 = Raise ValueError.
Proof. reflexivity. Qed.

Lemma define_target_v2_empty (features : Features_v2) :
  define_target_v2 [] features = Ok None.
Proof. reflexivity. Qed.

Lemma position_seq (n i k : nat) :
  i < n -> position (k + i) (seq k n) = Some i.
Proof.
  revert i k. induction n as [|n IH]; intros i k Hi; [lia|]. simpl.
  destruct i as [|i].
  - now rewrite Nat.add_0_r, Nat.eqb_refl.
  - destruct (Nat.eqb_spec k (k + S i)); [lia|].
    replace (k + S i) with (S k + i) by lia. rewrite IH by lia. reflexivity.
Qed.

(** On the dense integer index no label repeats, and [loc] reads the
    cell at the position of the label. *)
Lemma loc_seq {A} (n : nat) (col : list A) (i : nat) :
  i < n ->
  loc (seq 0 n) col i
  = match nth_error col i with
    | Some v => Ok v
    | None => Raise KeyError
    end.
Proof.
  intros Hi. unfold loc.
  pose proof (position_seq (n := n) (i := i) 0 Hi) as Hp.
  simpl in Hp. rewrite Hp, skipn_seq.
  replace (existsb (Nat.eqb i) (seq (0 + S i) (n - S i))) with false;
    [reflexivity|].
  symmetry. apply not_true_iff_false. intros H.
  apply existsb_exists in H. destruct H as (x & Hx & E).
  apply in_seq in Hx. apply Nat.eqb_eq in E. lia.
Qed.

Lemma loc_range {A} (n : nat) (col : list A) (i : nat) :
  i < n -> length col = n ->
  exists v, loc (seq 0 n) col i = Ok v.
Proof.
  intros Hi Hlen. rewrite loc_seq by exact Hi.
  destruct (nth_error col i) eqn:E; [eauto|].
  apply nth_error_None in E. lia.
Qed.

Lemma label_row_ok (features : Features) (n i : nat) :
  f_index features = seq 0 n ->
  length (EMA_crossover features) = n ->
  length (RSI_14 features) = n ->
  i < n ->
  exists t, label_row features i = Ok t.
Proof.
  intros Hidx Hc Hr Hi. unfold label_row. rewrite Hidx.
  destruct (loc_range (EMA_crossover features) Hi Hc) as (c & ->).
  destruct (loc_range (RSI_14 features) Hi Hr) as (r & ->).
  unfold py_and. cbn [bind negb].
  destruct c; cbn [bind negb];
    destruct (vlt r (Some 30%Q)); cbn [bind]; eauto;
    destruct (vgt r (Some 70%Q)); cbn [bind]; eauto.
Qed.

Lemma target_loop_ok (features : Features) (n : nat) (rows : list nat)
      (targets : list Label) :
  f_index features = seq 0 n ->
  length (EMA_crossover features) = n ->
  length (RSI_14 features) = n ->
  Forall (fun i => i < n) rows ->
  exists ts, target_loop features rows targets = Ok ts /\
             length ts = length targets + length rows.
Proof.
  intros Hidx Hc Hr. revert targets.
  induction rows as [|i rows IH]; intros targets Hrows; simpl.
  - exists targets. split; [reflexivity | lia].
  - apply Forall_cons_iff in Hrows. destruct Hrows as [Hi Hrest].
    destruct (@label_row_ok features n i Hidx Hc Hr Hi) as (t & ->). simpl.
    destruct (IH (targets ++ [t]) Hrest) as (ts & Hts & Hlen).
    exists ts. split; [exact Hts|]. rewrite Hlen, length_app. simpl. lia.
Qed.

(** C1, third cell.  On a price series with the dense integer index and
    a table lined up with it, [define_target] returns one label for each
    row of the series, on the index of the series. *)
Lemma define_target_labels_every_row (data : Series) (features : Features) :
  range_indexed data -> aligned data features ->
  exists s, define_target data features = Ok s /\
            length s = length data /\ map fst s = index data.
Proof.
  intros Hrange (Hidx & Hc & Hr). unfold define_target.
  rewrite Hrange in Hidx.
  destruct (@target_loop_ok features (length data) (seq 0 (length data)) []
              Hidx Hc Hr) as (ts & -> & Hlen).
  { apply Forall_forall. intros i Hi. apply in_seq in Hi. lia. }
  simpl in Hlen. rewrite length_seq in Hlen. simpl.
  rewrite pd_Series_ok by now rewrite index_length.
  eexists. split; [reflexivity|]. split.
  - rewrite length_combine, index_length. lia.
  - apply combine_fst. now rewrite index_length.
Qed.

(** The loop addresses the table by the integers [0 .. n-1]: on a series
    whose labels are not these integers the lookup fails. *)
Lemma define_target_other_labels (sqrtQ : Q -> Q) :
  exists f, create_features sqrtQ [(5, Some 1%Q)] = Ok f /\
            define_target [(5, Some 1%Q)] f = Raise KeyError.
Proof. eexists. split; [vm_compute; reflexivity | reflexivity]. Qed.

(** ** What reaches the AUC-ROC computation *)

Lemma column_length (k : nat) (m : list (list Q)) (col : list Q) :
  column k m = Ok col -> length col = length m.
Proof.
  revert col. induction m as [|row m IH]; intros col; simpl.
  - intros E. injection E as <-. reflexivity.
  - destruct (nth_error row k); [|discriminate].
    destruct (column k m) as [rest|e]; simpl; [|discriminate].
    intros E. injection E as <-. simpl. f_equal. now apply IH.
Qed.

(** C8.  When the test labels hold more than two classes, the score
    [build_model] passes to [roc_auc_score] is the single probability
    column with index 1: it does not have one column per class, and the
    call is refused with [ValueError]. *)
Theorem build_model_auc_assumes_binary (y_test : list Label)
        (proba : list (list Q)) :
  is_multiclass y_test = true ->
  (forall sc, build_model_auc_score proba = Ok sc ->
     (exists col, sc = Score1D col /\ column 1 proba = Ok col) /\
     covers_classes (length (classes_of y_test)) sc = false) /\
  (exists e, build_model_auc y_test proba = Raise e).
Proof.
  intros Hmc. unfold build_model_auc, build_model_auc_score. split.
  - intros sc. destruct (column 1 proba) as [col|e]; simpl; [|discriminate].
    intros E. injection E as <-. split; [eauto|]. simpl.
    unfold is_multiclass in Hmc. apply Nat.ltb_lt in Hmc.
    apply Nat.leb_gt. lia.
  - destruct (column 1 proba) as [col|e]; simpl; [|now exists e].
    unfold roc_auc_score. rewrite Hmc. simpl. now exists ValueError.
Qed.

Lemma build_model_auc_assumes_binary_witness :
  is_multiclass three_class_test = true /\
  build_model_auc_score three_class_proba
    = Ok (Score1D [3 # 10; 2 # 10; 7 # 10; 4 # 10]%Q) /\
  covers_classes (length (classes_of three_class_test))
    (Score1D [3 # 10; 2 # 10; 7 # 10; 4 # 10]%Q) = false /\
  exists e, build_model_auc three_class_test three_class_proba = Raise e.
Proof.
  destruct (build_model_auc_assumes_binary three_class_test three_class_proba)
    as (Hsc & Hraise); [reflexivity|].
  split; [reflexivity|]. split; [reflexivity|].
  split; [|exact Hraise].
  apply (Hsc (Score1D [3 # 10; 2 # 10; 7 # 10; 4 # 10]%Q)). reflexivity.
Defined.

Lemma build_model_auc_three_classes :
  build_model_auc three_class_test three_class_proba = Raise ValueError.
Proof. reflexivity. Qed.

(** The script's [evaluate] builds an indicator row with one column for
    every class present, and exactly the row's own class is set. *)
Lemma get_dummies_rows (y : list Label) (i : nat) (l : Label) :
  nth_error y i = Some l ->
  exists row, nth_error (get_dummies y) i = Some row /\
              length row = length (classes_of y) /\
              forall k c, nth_error (classes_of y) k = Some c ->
                          nth_error row k = Some (Label_eqb l c).
Proof.
  intros H. unfold get_dummies. rewrite nth_error_map, H. simpl.
  eexists. split; [reflexivity|]. split; [apply length_map|].
  intros k c Hk. now rewrite nth_error_map, Hk.
Qed.

(** ** Exponential smoothing: warm-up and closed form *)

Lemma ewm_update_obs (alpha : Q) (weighted : value) (old_wt : Q) (cur : value) :
  is_obs (fst (ewm_update alpha weighted old_wt cur))
  = (is_obs weighted || is_obs cur)%bool.
Proof.
  destruct weighted as [wv|], cur as [c|]; reflexivity.
Qed.

Lemma obs_incr_count (v : value) : obs_incr v = Z.of_nat (obs_count [v]).
Proof. destruct v; reflexivity. Qed.

Lemma ewm_loop_defined (alpha : Q) (minp : Z) (rest : list value)
      (weighted : value) (old_wt : Q) (seen i : nat) (v : value) :
  (1 <= minp)%Z ->
  (is_obs weighted = true <-> 0 < seen) ->
  nth_error (ewm_loop alpha minp rest weighted old_wt (Z.of_nat seen)) i
    = Some v ->
  (is_obs v = true <->
   (minp <= Z.of_nat (seen + obs_count (firstn (S i) rest)))%Z).
Proof.
  intros Hminp. revert weighted old_wt seen i v.
  induction rest as [|cur tl IH]; intros weighted old_wt seen i v Hw Hv.
  - destruct i; discriminate.
  - cbn [ewm_loop] in Hv.
    pose proof (ewm_update_obs alpha weighted old_wt cur) as Hobs.
    destruct (ewm_update alpha weighted old_wt cur) as [weighted' old_wt'].
    cbn [fst] in Hobs.
    change (firstn (S i) (cur :: tl)) with ([cur] ++ firstn i tl).
    rewrite obs_count_app, Nat.add_assoc.
    assert (Hw' : is_obs weighted' = true <-> 0 < seen + obs_count [cur]).
    { rewrite Hobs, orb_true_iff, Hw.
      destruct cur; simpl; split; intros; auto; lia. }
    rewrite obs_incr_count, <- Nat2Z.inj_add in Hv.
    remember (seen + obs_count [cur]) as seen' eqn:Hseen'.
    destruct i as [|i]; cbn [nth_error] in Hv.
    + injection Hv as <-. cbn [firstn obs_count]. rewrite Nat.add_0_r.
      unfold ewm_gate.
      destruct (Z.leb_spec minp (Z.of_nat seen')) as [Hle|Hgt].
      * rewrite Hw'. split; [intros _; exact Hle | intros _; lia].
      * split; [discriminate | lia].
    + now apply IH in Hv.
Qed.

(** A row of the exponentially weighted mean is defined exactly when at
    least [minp] observations have been seen up to that row. *)
Lemma ewm_mean_defined (alpha : Q) (minp : Z) (vals : list value)
      (i : nat) (v : value) :
  (1 <= minp)%Z ->
  nth_error (ewm_mean alpha minp vals) i = Some v ->
  (is_obs v = true <->
   (minp <= Z.of_nat (obs_count (firstn (S i) vals)))%Z).
Proof.
  intros Hminp Hv. destruct vals as [|v0 rest]; [destruct i; discriminate|].
  cbn [ewm_mean] in Hv. destruct i as [|i]; cbn [nth_error] in Hv.
  - injection Hv as <-. cbn [firstn]. unfold ewm_gate.
    rewrite obs_incr_count.
    destruct (Z.leb_spec minp (Z.of_nat (obs_count [v0]))) as [Hle|Hgt].
    + split; [intros _; exact Hle|]. intros _. destruct v0; simpl in *; [reflexivity | lia].
    + split; [discriminate | lia].
  - rewrite obs_incr_count in Hv.
    apply ewm_loop_defined in Hv; [|exact Hminp|].
    + rewrite Hv. change (firstn (S (S i)) (v0 :: rest))
        with ([v0] ++ firstn (S i) rest).
      now rewrite obs_count_app.
    + destruct v0; simpl; split; intros; auto; try lia; discriminate.
Qed.

Lemma ewm_den_pos (alpha : Q) (n : nat) :
  (alpha <= 1)%Q ->
  (0 <= ewm_den alpha n)%Q /\ (1 <= n -> (0 < ewm_den alpha n)%Q).
Proof.
  intros Ha. induction n as [|n [IH _]]; simpl.
  - split; [apply Qle_refl | lia].
  - assert (0 <= (1 - alpha) * ewm_den alpha n)%Q.
    { apply Qmult_le_0_compat; [lra | exact IH]. }
    split; [lra | intros _; lra].
Qed.

Lemma ewm_update_closed (alpha : Q) (wv old_wt x : Q) (seen : list Q) :
  (alpha <= 1)%Q ->
  ewm_inv alpha (Some wv) old_wt seen ->
  ewm_inv alpha (fst (ewm_update alpha (Some wv) old_wt (Some x)))
          (snd (ewm_update alpha (Some wv) old_wt (Some x))) (x :: seen).
Proof.
  intros Ha (wv0 & E & Hwv & Hwt). injection E as <-.
  destruct (@ewm_den_pos alpha (length seen) Ha) as [Hd _].
  assert (Hm : (0 <= (1 - alpha) * ewm_den alpha (length seen))%Q).
  { apply Qmult_le_0_compat; [lra | exact Hd]. }
  cbn [ewm_update fst snd]. eexists. split; [reflexivity|].
  cbn [length ewm_den ewm_num]. rewrite <- Hwv. split.
  - destruct (Qeq_bool wv x) eqn:Heq.
    + apply Qeq_bool_iff in Heq. rewrite <- Heq. ring.
    + rewrite Hwt. field. lra.
  - rewrite Hwt. ring.
Qed.

Lemma ewm_loop_closed (alpha : Q) (minp : Z) (xs : list Q) (wv old_wt : Q)
      (seen : list Q) (nobs : Z) (i : nat) :
  (alpha <= 1)%Q ->
  ewm_inv alpha (Some wv) old_wt seen ->
  i < length xs ->
  exists y,
    nth_error (ewm_loop alpha minp (map Some xs) (Some wv) old_wt nobs) i
      = Some (ewm_gate minp (nobs + Z.of_nat (S i)) (Some y)) /\
    ewm_inv alpha (Some y) (ewm_den alpha (S i + length seen))
            (rev (firstn (S i) xs) ++ seen).
Proof.
  intros Ha. revert wv old_wt seen nobs i.
  induction xs as [|x xs IH]; intros wv old_wt seen nobs i Hinv Hi;
    [simpl in Hi; lia|].
  pose proof (ewm_update_closed x Ha Hinv) as Hstep.
  cbn [map ewm_loop].
  destruct (ewm_update alpha (Some wv) old_wt (Some x)) as [weighted' old_wt']
    eqn:Hupd.
  cbn [fst snd] in Hstep.
  destruct Hstep as (y & -> & Hy & Hwt).
  destruct i as [|i]; cbn [nth_error].
  - exists y. split.
    + reflexivity.
    + exists y. split; [reflexivity|]. simpl rev. simpl app.
      split; [exact Hy | reflexivity].
  - destruct (IH y old_wt' (x :: seen) (nobs + obs_incr (Some x))%Z i) as (z & Hz & Hinvz).
    + exists y. split; [reflexivity|]. split; assumption.
    + simpl in Hi. lia.
    + exists z. split.
      * rewrite Hz.
        replace (nobs + obs_incr (Some x) + Z.of_nat (S i))%Z
          with (nobs + Z.of_nat (S (S i)))%Z by (unfold obs_incr; cbn [is_obs]; lia).
        reflexivity.
      * change (firstn (S (S i)) (x :: xs)) with (x :: firstn (S i) xs).
        change (rev (x :: firstn (S i) xs)) with (rev (firstn (S i) xs) ++ [x]).
        rewrite <- app_assoc. simpl app.
        replace (S (S i) + length seen) with (S i + length (x :: seen))
          by (simpl; lia).
        exact Hinvz.
Qed.

(** On a series without missing cells, row [i] of the exponentially
    weighted mean is missing while fewer than [minp] rows have been
    seen, and is afterwards the closed form of exponential smoothing
    with decay [1 - alpha] over rows [0 .. i]. *)
Lemma ewm_mean_closed_form (alpha : Q) (minp : Z) (xs : list Q) (i : nat) :
  (alpha <= 1)%Q -> i < length xs ->
  exists y,
    nth_error (ewm_mean alpha minp (map Some xs)) i
      = Some (if (minp <=? Z.of_nat (S i))%Z then Some y else None) /\
    (y == ewm_num alpha (rev (firstn (S i) xs)) / ewm_den alpha (S i))%Q.
Proof.
  intros Ha Hi. destruct xs as [|x0 xs]; [simpl in Hi; lia|].
  assert (Hfin : forall y k l,
             ewm_inv alpha (Some y) (ewm_den alpha (S k)) l -> length l = S k ->
             (y == ewm_num alpha l / ewm_den alpha (S k))%Q).
  { intros y k l (y' & E & Hy & _) Hl. injection E as <-. rewrite Hl in Hy.
    destruct (@ewm_den_pos alpha (S k) Ha) as [_ Hp].
    specialize (Hp ltac:(lia)). rewrite <- Hy. field. lra. }
  cbn [map ewm_mean]. destruct i as [|i]; cbn [nth_error].
  - exists x0. split; [reflexivity|]. simpl. field; lra.
  - assert (H0 : ewm_inv alpha (Some x0) 1 [x0]).
    { exists x0. split; [reflexivity|]. simpl. split; ring. }
    destruct (@ewm_loop_closed alpha minp xs x0 1%Q [x0] (obs_incr (Some x0)) i
                Ha H0) as (y & Hy & Hinv).
    { simpl in Hi. lia. }
    exists y. split.
    + rewrite Hy. unfold ewm_gate.
      replace (obs_incr (Some x0) + Z.of_nat (S i))%Z with (Z.of_nat (S (S i)))
        by (unfold obs_incr; cbn [is_obs]; lia).
      reflexivity.
    + change (firstn (S (S i)) (x0 :: xs)) with (x0 :: firstn (S i) xs).
      change (rev (x0 :: firstn (S i) xs)) with (rev (firstn (S i) xs) ++ [x0]).
      apply (Hfin y (S i)).
      * replace (S (S i)) with (S i + length [x0]) by (simpl; lia). exact Hinv.
      * rewrite length_app, length_rev, length_firstn. cbn [length] in *. lia.
Qed.

(** ** MACD: the smoothing factors of the two drafts *)

Lemma wilder_ok (s : Series) (w : nat) :
  1 <= w ->
  ewm s (wilder_alpha w) w
  = Ok (on_index s (ewm_mean (wilder_alpha w) (Z.of_nat w) (values s))).
Proof.
  intros Hw. destruct (wilder_alpha_range Hw). now apply ewm_ok.
Qed.

Lemma calculate_MACD_v2_unfold (data : Series) (slow fast sig : nat) :
  1 <= slow -> 1 <= fast -> 1 <= sig ->
  let ema w s := on_index s (ewm_mean (wilder_alpha w) (Z.of_nat w) (values s)) in
  let macd := series_binop vsub (ema fast data) (ema slow data) in
  calculate_MACD_v2 data slow fast sig = Ok (macd, ema sig macd).
Proof.
  intros Hs Hf Hg. unfold calculate_MACD_v2.
  rewrite !py_div_ok by assumption. cbn [bind].
  fold (wilder_alpha fast) (wilder_alpha slow) (wilder_alpha sig).
  rewrite !wilder_ok by assumption. cbn [bind].
  rewrite wilder_ok by assumption. reflexivity.
Qed.

Lemma calculate_MACD_unfold (data : Series) (slow fast sig : nat) :
  1 <= slow -> 1 <= fast -> 1 <= sig ->
  let ema w s := on_index s (ewm_mean (ema_alpha w) (Z.of_nat w) (values s)) in
  let macd := series_binop vsub (ema fast data) (ema slow data) in
  calculate_MACD data slow fast sig = Ok (macd, ema sig macd).
Proof.
  intros Hs Hf Hg. unfold calculate_MACD.
  rewrite !calculate_EMA_ok by assumption. cbn [bind].
  rewrite calculate_EMA_ok by assumption. reflexivity.
Qed.

(** From window 2 on, [1/w] is not [2/(w+1)]. *)
Lemma wilder_alpha_differs (w : nat) :
  2 <= w -> ~ (wilder_alpha w == ema_alpha w)%Q.
Proof.
  intros Hw H. unfold wilder_alpha, ema_alpha in H.
  pose proof (inject_nat_pos (k := w) ltac:(lia)) as Ha.
  pose proof (inject_nat_pos (k := w + 1) ltac:(lia)) as Hb.
  set (a := inject_Z (Z.of_nat w)) in *.
  set (b := inject_Z (Z.of_nat (w + 1))) in *.
  assert (E1 : (b == inject_Z (Z.of_nat 1) / a * (a * b))%Q).
  { change (inject_Z (Z.of_nat 1)) with 1%Q. field. lra. }
  assert (E2 : (inject_Z (Z.of_nat 2) / b * (a * b) == inject_Z 2 * a)%Q).
  { change (inject_Z (Z.of_nat 2)) with (inject_Z 2). field. lra. }
  rewrite H, E2 in E1. unfold a, b in E1.
  rewrite <- inject_Z_mult in E1.
  unfold Qeq in E1. cbn [Qnum Qden inject_Z] in E1. lia.
Qed.

(** On a price series without missing cells, [calculate_EMA] is missing
    at the rows before [window - 1] and is afterwards exponential
    smoothing with factor [2 / (window + 1)]: the weighted mean of rows
    [0 .. i] with weights [(1 - alpha)^k] on the row [k] steps back. *)
Lemma calculate_EMA_closed_form (idx : list nat) (xs : list Q) (w i : nat)
      (s : Series) :
  length idx = length xs -> i < length xs ->
  calculate_EMA (combine idx (map Some xs)) w = Ok s ->
  1 <= w /\
  exists y,
    nth_error (values s) i = Some (if w <=? S i then Some y else None) /\
    (y == ewm_num (ema_alpha w) (rev (firstn (S i) xs))
          / ewm_den (ema_alpha w) (S i))%Q.
Proof.
  intros Hlen Hi Hs.
  assert (Hw : 1 <= w) by (destruct w; [discriminate Hs | lia]).
  split; [exact Hw|].
  rewrite calculate_EMA_ok in Hs by exact Hw. injection Hs as <-.
  assert (Hvals : values (combine idx (map Some xs)) = map Some xs).
  { unfold values. apply combine_snd. now rewrite length_map. }
  rewrite on_index_values
    by now rewrite ewm_mean_length, values_length.
  rewrite Hvals.
  destruct (ema_alpha_range Hw) as [_ Ha].
  destruct (@ewm_mean_closed_form (ema_alpha w) (Z.of_nat w) xs i Ha Hi)
    as (y & Hy & Hform).
  exists y. split; [|exact Hform]. rewrite Hy. do 2 f_equal.
  destruct (Nat.leb_spec w (S i)), (Z.leb_spec (Z.of_nat w) (Z.of_nat (S i)));
    try reflexivity; lia.
Qed.

(** C3, second cell.  On the prices 1, 2, 6 with windows slow 3, fast 2
    and signal 1, the second cell's [calculate_MACD] smooths with
    [alpha = 1/window]: its MACD at row 2 is 61/133, whereas the
    averages with [alpha = 2/(window+1)], which the third cell takes
    from [calculate_EMA], give 50/91. *)
Theorem calculate_MACD_v2_smoothing_factor :
  (exists macd signal,
      calculate_MACD_v2 sma_example 3 2 1 = Ok (macd, signal) /\
      veq (lookup 2 macd) (Some (61 # 133)%Q)) /\
  (exists macd signal,
      calculate_MACD sma_example 3 2 1 = Ok (macd, signal) /\
      veq (lookup 2 macd) (Some (50 # 91)%Q)) /\
  ~ (wilder_alpha 2 == ema_alpha 2)%Q /\
  ~ (61 # 133 == 50 # 91)%Q.
Proof.
  split; [|split; [|split]].
  - eexists. eexists. split; [vm_compute; reflexivity|]. vm_compute. reflexivity.
  - eexists. eexists. split; [vm_compute; reflexivity|]. vm_compute. reflexivity.
  - apply wilder_alpha_differs. lia.
  - discriminate.
Qed.

(** ** RSI: range *)

Lemma series_map_values (f : value -> value) (s : Series) :
  values (series_map f s) = map f (values s).
Proof. unfold values, series_map. now rewrite !map_map. Qed.

Lemma series_map_index (f : value -> value) (s : Series) :
  index (series_map f s) = index s.
Proof. unfold index, series_map. now rewrite map_map. Qed.






Lemma on_index_values_incl (s : Series) (vs : list value) (v : value) :
  In v (values (on_index s vs)) -> In v vs.
Proof.
  unfold values, on_index. intros H. apply in_map_iff in H.
  destruct H as ((l & v') & <- & H). now apply in_combine_r in H.
Qed.

Lemma lookup_cases (l : nat) (s : Series) :
  lookup l s = None \/ In (lookup l s) (values s).
Proof.
  induction s as [|(k & v) s IH]; simpl; [now left|].
  destruct (k =? l); [right; now left|].
  destruct IH as [IH|IH]; [now left | right; now right].
Qed.

Lemma map2_in {A B C} (f : A -> B -> C) (l1 : list A) (l2 : list B) (c : C) :
  In c (map2 f l1 l2) -> exists a b, In a l1 /\ In b l2 /\ c = f a b.
Proof.
  revert l2. induction l1 as [|a l1 IH]; intros [|b l2]; simpl; try tauto.
  intros [<-|H].
  - exists a, b. auto.
  - destruct (IH l2 H) as (a' & b' & Ha & Hb & E). exists a', b'. auto.
Qed.



(** With a ratio that is not negative, [1 + RS] is positive, and
    [100 - 100 / (1 + RS)] lies between 0 and 100. *)
Lemma rsi_divisor_positive (rs : value) :
  positive_or_missing rs -> positive_or_missing (vadd (Some 1%Q) rs).
Proof.
  destruct rs as [r|]; simpl; [|tauto]. intros H. lra.
Qed.


(** The averages whose ratio is taken by [calculate_RSI]: their values. *)
Lemma rsi_averages (data : Series) (w : nat) (s : Series) :
  calculate_RSI data w = Ok s ->
  1 <= w /\
  s = series_map rsi_of_rs
        (series_binop vdiv
           (on_index (gains (diff data))
              (ewm_mean (wilder_alpha w) (Z.of_nat w)
                        (values (gains (diff data)))))
           (on_index (losses (diff data))
              (ewm_mean (wilder_alpha w) (Z.of_nat w)
                        (values (losses (diff data)))))).
Proof.
  unfold calculate_RSI. destruct w as [|w]; [discriminate|].
  rewrite !py_div_ok by lia. cbn [bind]. fold (wilder_alpha (S w)).
  rewrite !wilder_ok by lia. cbn [bind].
  intros E. injection E as <-. split; [lia | reflexivity].
Qed.



(** ** RSI: the gain rows and the loss rows never meet *)

Lemma mask_index_in (p : value -> bool) (s : Series) (l : nat) :
  In l (index (mask p s)) -> exists v, In (l, v) s /\ p v = true.
Proof.
  unfold index, mask. intros H. apply in_map_iff in H.
  destruct H as ((k & v) & E & H). simpl in E. subst k.
  apply filter_In in H. destruct H as [H Hp]. eauto.
Qed.

Lemma nodup_index_functional (s : Series) (l : nat) (v v' : value) :
  NoDup (index s) -> In (l, v) s -> In (l, v') s -> v = v'.
Proof.
  unfold index. induction s as [|(k & u) s IH]; simpl; [tauto|].
  intros Hnd Hv Hv'. apply NoDup_cons_iff in Hnd. destruct Hnd as [Hk Hnd].
  assert (Hin : forall w, In (l, w) s -> In l (map fst s)).
  { intros w Hw. apply in_map_iff. now exists (l, w). }
  destruct Hv as [Ev|Hv], Hv' as [Ev'|Hv'].
  - congruence.
  - injection Ev as -> ->. elim Hk. eapply Hin, Hv'.
  - injection Ev' as -> ->. elim Hk. eapply Hin, Hv.
  - now apply IH.
Qed.

Lemma lookup_absent (l : nat) (s : Series) :
  ~ In l (index s) -> lookup l s = None.
Proof.
  induction s as [|(k & v) s IH]; simpl; [reflexivity|]. intros H.
  destruct (Nat.eqb_spec k l) as [->|Hne]; [tauto|]. apply IH. tauto.
Qed.

Lemma diff_index (s : Series) : index (diff s) = index s.
Proof.
  unfold diff. apply on_index_index. unfold diff_values.
  rewrite <- (values_length s). generalize (@None Q) as prev.
  induction (values s) as [|x l IH]; intros prev; simpl; [reflexivity|].
  now rewrite IH.
Qed.

Lemma gains_losses_disjoint (delta : Series) (l : nat) :
  NoDup (index delta) ->
  In l (index (gains delta)) -> In l (index (losses delta)) -> False.
Proof.
  intros Hnd Hg Hl. unfold losses in Hl. rewrite series_map_index in Hl.
  apply mask_index_in in Hg. apply mask_index_in in Hl.
  destruct Hg as (v & Hv & Hg). destruct Hl as (v' & Hv' & Hl).
  rewrite <- (@nodup_index_functional delta l v v' Hnd Hv Hv') in Hl.
  destruct v as [x|]; simpl in *; [|discriminate].
  apply Qltb_lt in Hg. apply Qltb_lt in Hl. lra.
Qed.

Lemma vdiv_missing_l (y : value) : vdiv None y = None.
Proof. reflexivity. Qed.

Lemma vdiv_missing_r (x : value) : vdiv x None = None.
Proof. now destruct x. Qed.

Lemma index_nil (s : Series) : index s = [] -> s = [].
Proof. destruct s; [reflexivity | discriminate]. Qed.

(** With disjoint indexes, every row of the aligned quotient is missing. *)
Lemma series_div_disjoint (a b : Series) :
  (forall l, In l (index a) -> In l (index b) -> False) ->
  Forall (eq None) (values (series_binop vdiv a b)).
Proof.
  intros Hdis. unfold series_binop.
  destruct (list_eq_dec Nat.eq_dec (index a) (index b)) as [E|_].
  - assert (Ha : a = []).
    { apply index_nil. destruct (index a) as [|l t] eqn:Ei; [reflexivity|].
      exfalso. apply (Hdis l); [now left | rewrite <- E; now left]. }
    subst a. constructor.
  - unfold values. rewrite map_map. simpl. apply Forall_map, Forall_forall.
    intros l _. destruct (in_dec Nat.eq_dec l (index a)) as [Hin|Hout].
    + rewrite (@lookup_absent l b); [now rewrite vdiv_missing_r|].
      intros Hb. exact (Hdis l Hin Hb).
    + now rewrite (@lookup_absent l a Hout).
Qed.

(** On a well-formed price series [calculate_RSI] has no defined value:
    the gains and the losses are cut out of the differences with their
    own labels, a row is never both, and the quotient of the two
    averages is aligned by label. *)
Lemma calculate_RSI_all_missing (data : Series) (w : nat) (s : Series) :
  well_formed data ->
  calculate_RSI data w = Ok s ->
  Forall (eq None) (values s).
Proof.
  intros Hwf Hs. apply rsi_averages in Hs. destruct Hs as (Hw & ->).
  rewrite series_map_values. apply Forall_map.
  eapply Forall_impl; [|apply series_div_disjoint].
  - intros v <-. reflexivity.
  - intros l Hg Hl.
    rewrite on_index_index in Hg by now rewrite ewm_mean_length, values_length.
    rewrite on_index_index in Hl by now rewrite ewm_mean_length, values_length.
    apply (@gains_losses_disjoint (diff data) l); try assumption.
    rewrite diff_index. exact Hwf.
Qed.

Lemma calculate_RSI_ok (data : Series) (w : nat) :
  1 <= w -> exists s, calculate_RSI data w = Ok s.
Proof.
  intros Hw. unfold calculate_RSI.
  rewrite !py_div_ok by lia. cbn [bind]. fold (wilder_alpha w).
  rewrite !wilder_ok by lia. cbn [bind]. eauto.
Qed.

Lemma calculate_RSI_window_zero (data : Series) :
  calculate_RSI data 0 = Raise ZeroDivisionError.
Proof. reflexivity. Qed.





(** C5.  On the rising prices 1, 2, 3, 5 with window 2 the average loss
    in the usual sense is zero at the last row and the average gain is
    positive, yet [calculate_RSI] returns a missing value at every row
    it has (rows 1 to 3), not 100; no exception is raised. *)
Theorem calculate_RSI_zero_loss :
  nth_error (usual_average_loss rising 2) 3 = Some (Some 0%Q) /\
  (exists g, nth_error (usual_average_gain rising 2) 3 = Some (Some g) /\
             (0 < g)%Q) /\
  calculate_RSI rising 2 = Ok [(1, None); (2, None); (3, None)] /\
  rsi_of_rs None = None.
Proof.
  split; [vm_compute; reflexivity|]. split.
  - eexists. split; [vm_compute; reflexivity|]. reflexivity.
  - split; [vm_compute; reflexivity | reflexivity].
Qed.

(** ** Feature assembly *)

Lemma map2_length {A B C} (f : A -> B -> C) (l1 : list A) (l2 : list B) :
  length (map2 f l1 l2) = Nat.min (length l1) (length l2).
Proof.
  revert l2. induction l1 as [|a l1 IH]; intros [|b l2]; simpl; auto.
Qed.

Lemma diff_from_length (prev : value) (l : list value) :
  length (diff_from prev l) = length l.
Proof.
  revert prev. induction l as [|x l IH]; intros prev; simpl; auto.
Qed.

Lemma rolling_mean_length (w : nat) (vals : list value) :
  length (rolling_mean w vals) = length vals.
Proof. apply roll_length. Qed.

Lemma rolling_std_length (sqrtQ : Q -> Q) (w : nat) (vals : list value) :
  length (rolling_std sqrtQ w vals) = length vals.
Proof. unfold rolling_std, rolling_var. now rewrite length_map, roll_length. Qed.

Lemma adopt_index_empty_frame (s : Series) : adopt_index [] s = index s.
Proof. now destruct s. Qed.

Lemma reindex_on_index (data : Series) (vs : list value) :
  length vs = length data -> reindex (index data) (on_index data vs) = vs.
Proof.
  intros H. unfold reindex. rewrite on_index_index by exact H.
  destruct (list_eq_dec Nat.eq_dec (index data) (index data)); [|congruence].
  now apply on_index_values.
Qed.

Lemma on_index_on_index (data : Series) (vs ws : list value) :
  length vs = length data -> on_index (on_index data vs) ws = on_index data ws.
Proof.
  intros H. unfold on_index at 1. now rewrite on_index_index.
Qed.

Lemma series_binop_on_index (op : value -> value -> value) (data : Series)
      (vs ws : list value) :
  length vs = length data -> length ws = length data ->
  series_binop op (on_index data vs) (on_index data ws)
  = on_index data (map2 op vs ws).
Proof.
  intros Hv Hw. unfold series_binop. rewrite !on_index_index by assumption.
  destruct (list_eq_dec Nat.eq_dec (index data) (index data)); [|congruence].
  rewrite on_index_on_index, !on_index_values by assumption. reflexivity.
Qed.

Lemma lookup_all_missing (l : nat) (s : Series) :
  Forall (eq None) (values s) -> lookup l s = None.
Proof.
  intros H. destruct (lookup_cases l s) as [E|Hin]; [exact E|].
  rewrite Forall_forall in H. symmetry. now apply H.
Qed.

Lemma reindex_all_missing (idx : list nat) (s : Series) :
  Forall (eq None) (values s) ->
  reindex idx s = repeat None (length idx).
Proof.
  intros H. unfold reindex.
  destruct (list_eq_dec Nat.eq_dec (index s) idx) as [E|_].
  - rewrite <- E, index_length, <- (values_length s).
    now apply Forall_eq_repeat.
  - rewrite <- (length_map (fun l => lookup l s) idx).
    apply Forall_eq_repeat, Forall_map, Forall_forall. intros l _.
    symmetry. now apply lookup_all_missing.
Qed.

Lemma create_features_columns (sqrtQ : Q -> Q) (data : Series) :
  well_formed data ->
  create_features sqrtQ data
  = Ok (feature_columns sqrtQ (index data) (values data)).
Proof.
  intros Hwf. unfold create_features.
  assert (Hsma : length (rolling_mean 20 (values data)) = length data)
    by now rewrite rolling_mean_length, values_length.
  assert (Hema : forall w, length (ema_column w (values data)) = length data).
  { intros w. unfold ema_column. now rewrite ewm_mean_length, values_length. }
  assert (Hmacd : length (macd_column (values data)) = length data).
  { unfold macd_column. rewrite map2_length, !Hema. lia. }
  assert (Hsig : length (signal_column (values data)) = length data).
  { unfold signal_column, ema_column. now rewrite ewm_mean_length. }
  assert (Hstd : length (two_std_column sqrtQ (values data)) = length data).
  { unfold two_std_column.
    now rewrite length_map, rolling_std_length, values_length. }
  rewrite adopt_index_empty_frame.
  unfold calculate_SMA. rewrite !(@on_index_index data _ Hsma).
  rewrite calculate_EMA_ok by lia. cbn [bind].
  pose proof (@calculate_MACD_unfold data 26 12 9) as HM.
  specialize (HM ltac:(lia) ltac:(lia) ltac:(lia)). cbv zeta in HM.
  rewrite HM. cbn [bind fst snd]. clear HM.
  destruct (@calculate_RSI_ok data 14 ltac:(lia)) as (rsi & Hrsi).
  rewrite Hrsi. cbn [bind].
  pose proof (@calculate_RSI_all_missing data 14 rsi Hwf Hrsi) as Hnone.
  unfold calculate_bollinger_bands. cbn [fst snd].
  fold (ema_column 12 (values data)) (ema_column 26 (values data)).
  rewrite series_binop_on_index by apply Hema.
  fold (macd_column (values data)).
  rewrite on_index_values by exact Hmacd.
  rewrite on_index_on_index by exact Hmacd.
  fold (ema_column 9 (macd_column (values data))).
  fold (signal_column (values data)).
  fold (two_std_column sqrtQ (values data)).
  fold (upper_column sqrtQ (values data)) (lower_column sqrtQ (values data)).
  rewrite !reindex_on_index;
    try (exact Hsig);
    try (unfold upper_column, lower_column;
         rewrite ?map2_length, ?Hema, ?Hsma, ?Hstd, ?Hmacd; lia).
  rewrite (@reindex_all_missing (index data) rsi Hnone), index_length,
    <- (values_length data).
  reflexivity.
Qed.

(** ** Causality *)

Lemma range_fold_ext St (f : value -> St -> St) (l1 l2 : list value)
      (len lo : nat) (st : St) :
  (forall j, lo <= j < lo + len -> nth j l1 None = nth j l2 None) ->
  range_fold f l1 lo len st = range_fold f l2 lo len st.
Proof.
  revert lo st. induction len as [|len IH]; intros lo st H; simpl;
    [reflexivity|].
  rewrite (H lo) by lia. apply IH. intros j Hj. apply H. lia.
Qed.

Lemma roll_step_ext St (add remove : value -> St -> St) (init : St)
      (w : nat) (l1 l2 : list value) (i : nat) (st : St) :
  (forall j, j < S i -> nth j l1 None = nth j l2 None) ->
  roll_step add remove init w l1 i st = roll_step add remove init w l2 i st.
Proof.
  intros H. unfold roll_step.
  destruct (win_bounds w i) as (Hse & He & Hss & Hee).
  rewrite (@range_fold_ext St add l1 l2 (win_end w i - win_start w i)
             (win_start w i) init) by (intros j Hj; apply H; lia).
  destruct ((i =? 0) || (win_end w (i - 1) <=? win_start w i)) eqn:Hc;
    [reflexivity|].
  apply orb_false_iff in Hc. destruct Hc as [_ Hov]. apply Nat.leb_gt in Hov.
  rewrite (@range_fold_ext St remove l1 l2
             (win_start w i - win_start w (i - 1)) (win_start w (i - 1)) st)
    by (intros j Hj; apply H; lia).
  apply range_fold_ext. intros j Hj. apply H. lia.
Qed.

Lemma roll_loop_ext St (add remove : value -> St -> St) (init : St)
      (calc : St -> value) (w : nat) (l1 l2 : list value) (n i : nat) (st : St) :
  (forall j, j < i + n -> nth j l1 None = nth j l2 None) ->
  roll_loop add remove init calc w l1 i n st
  = roll_loop add remove init calc w l2 i n st.
Proof.
  revert i st. induction n as [|n IH]; intros i st H; simpl; [reflexivity|].
  rewrite (@roll_step_ext St add remove init w l1 l2 i st)
    by (intros j Hj; apply H; lia).
  f_equal. apply IH. intros j Hj. apply H. lia.
Qed.

Lemma roll_loop_firstn St (add remove : value -> St -> St) (init : St)
      (calc : St -> value) (w : nat) (l : list value) (n k i : nat) (st : St) :
  firstn k (roll_loop add remove init calc w l i n st)
  = roll_loop add remove init calc w l i (Nat.min k n) st.
Proof.
  revert k i st. induction n as [|n IH]; intros k i st.
  - rewrite Nat.min_0_r. simpl. apply firstn_nil.
  - destruct k as [|k]; [reflexivity|]. simpl. f_equal. apply IH.
Qed.

(** The core of causality: a rolling aggregation of a prefix is the
    prefix of the rolling aggregation. *)
Lemma roll_prefix_stable St (add remove : value -> St -> St) (init : St)
      (calc : St -> value) (w : nat) :
  prefix_stable (roll add remove init calc w).
Proof.
  intros k l. unfold roll. rewrite roll_loop_firstn, length_firstn.
  apply roll_loop_ext. intros j Hj. rewrite nth_firstn.
  destruct (Nat.ltb_spec j k); [reflexivity | lia].
Qed.

Lemma ewm_loop_firstn (alpha : Q) (minp : Z) (rest : list value)
      (weighted : value) (old_wt : Q) (nobs : Z) (k : nat) :
  firstn k (ewm_loop alpha minp rest weighted old_wt nobs)
  = ewm_loop alpha minp (firstn k rest) weighted old_wt nobs.
Proof.
  revert weighted old_wt nobs k.
  induction rest as [|cur tl IH]; intros weighted old_wt nobs k.
  - simpl. now rewrite !firstn_nil.
  - destruct k as [|k]; [reflexivity|]. cbn [firstn ewm_loop].
    destruct (ewm_update alpha weighted old_wt cur) as [weighted' old_wt'].
    cbn [firstn]. f_equal. apply IH.
Qed.

Lemma ewm_mean_prefix_stable (alpha : Q) (minp : Z) :
  prefix_stable (ewm_mean alpha minp).
Proof.
  intros k [|v0 rest]; [simpl; now rewrite !firstn_nil|].
  destruct k as [|k]; [reflexivity|]. cbn [firstn ewm_mean]. f_equal.
  apply ewm_loop_firstn.
Qed.

Lemma diff_values_prefix_stable : prefix_stable diff_values.
Proof.
  intros k l. unfold diff_values. generalize (@None Q) as prev. revert k.
  induction l as [|x l IH]; intros k prev; [simpl; now rewrite !firstn_nil|].
  destruct k as [|k]; [reflexivity|]. simpl. f_equal. apply IH.
Qed.

Lemma map2_firstn {A B C} (f : A -> B -> C) (l1 : list A) (l2 : list B)
      (k : nat) :
  firstn k (map2 f l1 l2) = map2 f (firstn k l1) (firstn k l2).
Proof.
  revert l1 l2. induction k as [|k IH]; intros [|a l1] [|b l2]; simpl;
    try reflexivity.
  now rewrite IH.
Qed.

Lemma prefix_stable_map2 {A B C D} (f : B -> C -> D)
      (F : list A -> list B) (G : list A -> list C) :
  prefix_stable F -> prefix_stable G ->
  prefix_stable (fun l => map2 f (F l) (G l)).
Proof.
  intros HF HG k l. now rewrite map2_firstn, HF, HG.
Qed.

Lemma prefix_stable_map {A B C} (f : B -> C) (F : list A -> list B) :
  prefix_stable F -> prefix_stable (fun l => map f (F l)).
Proof.
  intros HF k l. now rewrite firstn_map, HF.
Qed.

Lemma prefix_stable_compose {A B C} (F : list B -> list C)
      (G : list A -> list B) :
  prefix_stable F -> prefix_stable G -> prefix_stable (fun l => F (G l)).
Proof.
  intros HF HG k l. now rewrite HF, HG.
Qed.

Lemma rsi_column_prefix_stable : prefix_stable rsi_column.
Proof.
  intros k l. unfold rsi_column. rewrite length_firstn.
  revert k. induction (length l) as [|n IH]; intros k.
  - rewrite Nat.min_0_r. apply firstn_nil.
  - destruct k as [|k]; [reflexivity|]. simpl. f_equal. apply IH.
Qed.

Lemma rolling_mean_prefix_stable (w : nat) : prefix_stable (rolling_mean w).
Proof. apply roll_prefix_stable. Qed.

Lemma rolling_std_prefix_stable (sqrtQ : Q -> Q) (w : nat) :
  prefix_stable (rolling_std sqrtQ w).
Proof.
  unfold rolling_std. apply prefix_stable_map.
  unfold rolling_var. apply roll_prefix_stable.
Qed.

Lemma ema_column_prefix_stable (w : nat) : prefix_stable (ema_column w).
Proof. apply ewm_mean_prefix_stable. Qed.

Lemma macd_column_prefix_stable : prefix_stable macd_column.
Proof.
  unfold macd_column.
  apply prefix_stable_map2; apply ema_column_prefix_stable.
Qed.

Lemma signal_column_prefix_stable : prefix_stable signal_column.
Proof.
  unfold signal_column. apply prefix_stable_compose.
  - apply ema_column_prefix_stable.
  - apply macd_column_prefix_stable.
Qed.

Lemma two_std_column_prefix_stable (sqrtQ : Q -> Q) :
  prefix_stable (two_std_column sqrtQ).
Proof.
  unfold two_std_column.
  apply prefix_stable_map, rolling_std_prefix_stable.
Qed.

Lemma upper_column_prefix_stable (sqrtQ : Q -> Q) :
  prefix_stable (upper_column sqrtQ).
Proof.
  unfold upper_column. apply prefix_stable_map2.
  - apply rolling_mean_prefix_stable.
  - apply two_std_column_prefix_stable.
Qed.

Lemma lower_column_prefix_stable (sqrtQ : Q -> Q) :
  prefix_stable (lower_column sqrtQ).
Proof.
  unfold lower_column. apply prefix_stable_map2.
  - apply rolling_mean_prefix_stable.
  - apply two_std_column_prefix_stable.
Qed.

Create HintDb causal.

#[local] Hint Resolve rolling_mean_prefix_stable ema_column_prefix_stable
  macd_column_prefix_stable signal_column_prefix_stable
  rsi_column_prefix_stable diff_values_prefix_stable
  upper_column_prefix_stable lower_column_prefix_stable
  prefix_stable_map2 : causal.

(** Row [i] of a prefix-stable column is fixed by rows [0 .. i] of the
    input. *)
Lemma prefix_stable_row {A B} (F : list A -> list B) (l1 l2 : list A)
      (i : nat) :
  prefix_stable F ->
  firstn (S i) l1 = firstn (S i) l2 ->
  nth_error (F l1) i = nth_error (F l2) i.
Proof.
  intros HF H.
  assert (Hcut : forall l : list B,
             nth_error l i = nth_error (firstn (S i) l) i).
  { intros l. rewrite nth_error_firstn.
    destruct (Nat.ltb_spec i (S i)); [reflexivity | lia]. }
  rewrite (Hcut (F l1)), (Hcut (F l2)). now rewrite !HF, H.
Qed.

Lemma create_features_ok (sqrtQ : Q -> Q) (data : Series) :
  exists f, create_features sqrtQ data = Ok f.
Proof.
  unfold create_features. rewrite calculate_EMA_ok by lia. cbn [bind].
  pose proof (@calculate_MACD_unfold data 26 12 9) as HM.
  specialize (HM ltac:(lia) ltac:(lia) ltac:(lia)). cbv zeta in HM.
  rewrite HM. cbn [bind].
  destruct (@calculate_RSI_ok data 14 ltac:(lia)) as (rsi & ->). cbn [bind].
  eauto.
Qed.

Lemma values_firstn (s : Series) (k : nat) :
  firstn k (values s) = values (firstn k s).
Proof. unfold values. apply firstn_map. Qed.

Lemma index_firstn (s : Series) (k : nat) :
  firstn k (index s) = index (firstn k s).
Proof. unfold index. apply firstn_map. Qed.

Ltac prove_nodup :=
  repeat (constructor; [simpl; intuition discriminate|]); constructor.

(** C6.  Every column of the feature table is causal: when two
    well-formed price series agree on rows 0 to [i], the tables
    [create_features] builds from them have the same cells in row [i],
    in the indicator columns and in the derived columns alike. *)
Theorem create_features_causal (sqrtQ : Q -> Q) (d1 d2 : Series) (i : nat)
        (f1 f2 : Features) :
  well_formed d1 -> well_formed d2 ->
  firstn (S i) d1 = firstn (S i) d2 ->
  create_features sqrtQ d1 = Ok f1 ->
  create_features sqrtQ d2 = Ok f2 ->
  feature_row f1 i = feature_row f2 i.
Proof.
  intros Hwf1 Hwf2 Hpre H1 H2.
  rewrite create_features_columns in H1 by exact Hwf1.
  rewrite create_features_columns in H2 by exact Hwf2.
  injection H1 as <-. injection H2 as <-.
  assert (Hv : firstn (S i) (values d1) = firstn (S i) (values d2))
    by now rewrite !values_firstn, Hpre.
  assert (Hi : firstn (S i) (index d1) = firstn (S i) (index d2))
    by now rewrite !index_firstn, Hpre.
  unfold feature_row, feature_columns.
  cbn [f_index SMA_20 EMA_12 MACD MACD_signal RSI_14 BB_upper BB_lower
       EMA_crossover RSI_momentum BB_width].
  repeat match goal with |- (_, _) = (_, _) => f_equal end;
    try (apply prefix_stable_row; [auto with causal | exact Hv]).
  - apply (@prefix_stable_row _ _ (fun l => l)); [|exact Hi].
    intros k l. reflexivity.
  - apply (@prefix_stable_row _ _ (fun l => diff_values (rsi_column l)));
      [|exact Hv].
    apply prefix_stable_compose; auto with causal.
  - apply (@prefix_stable_row _ _
             (fun l => map2 vsub (upper_column sqrtQ l) (lower_column sqrtQ l)));
      [auto with causal | exact Hv].
  - apply (@prefix_stable_row _ _
             (fun l => map2 vgt (ema_column 12 l) (rolling_mean 20 l)));
      [auto with causal | exact Hv].
Qed.

Lemma create_features_causal_witness :
  exists f1 f2,
    create_features (fun x => x) causal_example_a = Ok f1 /\
    create_features (fun x => x) causal_example_b = Ok f2 /\
    feature_row f1 1 = feature_row f2 1.
Proof.
  eexists. eexists.
  split; [vm_compute; reflexivity|].
  split; [vm_compute; reflexivity|].
  apply (@create_features_causal (fun x => x)
           causal_example_a causal_example_b 1).
  - unfold well_formed. simpl. prove_nodup.
  - unfold well_formed. simpl. prove_nodup.
  - reflexivity.
  - vm_compute. reflexivity.
  - vm_compute. reflexivity.
Defined.

(** ** The pipeline as a whole: every label is Hold *)

Lemma range_indexed_well_formed (data : Series) :
  range_indexed data -> well_formed data.
Proof.
  unfold range_indexed, well_formed. intros ->. apply seq_NoDup.
Qed.

Lemma loc_missing_column (n i : nat) :
  i < n -> loc (seq 0 n) (repeat (@None Q) n) i = Ok None.
Proof.
  intros Hi. rewrite loc_seq by exact Hi.
  now rewrite nth_error_repeat.
Qed.

Lemma label_row_hold (features : Features) (n i : nat) :
  f_index features = seq 0 n ->
  length (EMA_crossover features) = n ->
  RSI_14 features = repeat None n ->
  i < n ->
  label_row features i = Ok Hold.
Proof.
  intros Hidx Hc Hr Hi. unfold label_row. rewrite Hidx, Hr.
  destruct (@loc_range bool n (EMA_crossover features) i Hi Hc) as (c & ->).
  rewrite loc_missing_column by exact Hi.
  unfold py_and. destruct c; reflexivity.
Qed.

Lemma target_loop_hold (features : Features) (n : nat) (rows : list nat)
      (targets : list Label) :
  f_index features = seq 0 n ->
  length (EMA_crossover features) = n ->
  RSI_14 features = repeat None n ->
  Forall (fun i => i < n) rows ->
  target_loop features rows targets
  = Ok (targets ++ repeat Hold (length rows)).
Proof.
  intros Hidx Hc Hr. revert targets.
  induction rows as [|i rows IH]; intros targets Hrows; simpl.
  - now rewrite app_nil_r.
  - apply Forall_cons_iff in Hrows. destruct Hrows as [Hi Hrest].
    rewrite (@label_row_hold features n i Hidx Hc Hr Hi). cbn [bind].
    rewrite IH by exact Hrest. now rewrite <- app_assoc.
Qed.

(** On a price series with the dense integer index, the third cell's
    table followed by the third cell's [define_target] gives one label
    for every row, and every label is Hold: the RSI column has no defined
    value, so neither threshold is ever met. *)
Lemma define_target_after_create_features (sqrtQ : Q -> Q) (data : Series)
      (f : Features) :
  range_indexed data ->
  create_features sqrtQ data = Ok f ->
  define_target data f
  = Ok (combine (index data) (repeat Hold (length data))).
Proof.
  intros Hrange Hf.
  rewrite create_features_columns in Hf
    by now apply range_indexed_well_formed.
  injection Hf as <-. unfold define_target.
  rewrite (@target_loop_hold _ (length data)).
  - cbn [bind app]. rewrite length_seq.
    apply pd_Series_ok. now rewrite repeat_length, index_length.
  - exact Hrange.
  - cbn [feature_columns EMA_crossover]. unfold ema_column.
    rewrite map2_length, ewm_mean_length, rolling_mean_length, values_length.
    lia.
  - cbn [feature_columns RSI_14]. unfold rsi_column.
    now rewrite values_length.
  - apply Forall_forall. intros i Hi. apply in_seq in Hi. lia.
Qed.

(** A defined RSI needs a label that carries both a gain and a loss,
    which only a repeated label provides. *)
Lemma calculate_RSI_repeated_label :
  exists v, calculate_RSI repeated_label_example 1 = Ok [(0, Some v)] /\
            (v == 50)%Q.
Proof. eexists. split; [vm_compute; reflexivity | reflexivity]. Qed.

(** * Further properties of the pipeline *)

(** ** Row counts of the feature tables *)

Lemma reindex_length (idx : list nat) (s : Series) :
  length (reindex idx s) = length idx.
Proof.
  unfold reindex. destruct (list_eq_dec Nat.eq_dec (index s) idx) as [E|_].
  - now rewrite <- E, index_length, values_length.
  - apply length_map.
Qed.

Lemma diff_values_length (l : list value) :
  length (diff_values l) = length l.
Proof. apply diff_from_length. Qed.

Lemma calculate_SMA_index (data : Series) (w : nat) :
  index (calculate_SMA data w) = index data.
Proof.
  unfold calculate_SMA. apply on_index_index.
  now rewrite rolling_mean_length, values_length.
Qed.

(** X1.  On a price series whose labels are distinct, the third cell's
    [create_features] does not fail, keeps the index of the price series
    and gives every column, indicator or derived, one cell for each row
    of the series.  (On repeated labels pandas refuses to align the RSI
    column with the table.) *)
Theorem create_features_shape (sqrtQ : Q -> Q) (data : Series) :
  well_formed data ->
  exists f, create_features sqrtQ data = Ok f /\
            f_index f = index data /\
            columns_have_length f (length data).
Proof.
  intros Hwf. rewrite (create_features_columns sqrtQ Hwf).
  eexists. split; [reflexivity|]. split; [reflexivity|].
  unfold columns_have_length, feature_columns, upper_column, lower_column,
    two_std_column, signal_column, macd_column, rsi_column, ema_column.
  cbn [SMA_20 EMA_12 MACD MACD_signal RSI_14 BB_upper BB_lower
       EMA_crossover RSI_momentum BB_width].
  rewrite !map2_length, diff_values_length, !length_map, !ewm_mean_length,
    !map2_length, !ewm_mean_length, !rolling_std_length, !rolling_mean_length,
    repeat_length, values_length.
  repeat split; lia.
Qed.

Lemma create_features_shape_witness :
  exists f, create_features (fun x => x) four_rows = Ok f /\
            f_index f = [0; 1; 2; 3] /\
            length (RSI_14 f) = 4 /\ length (EMA_crossover f) = 4.
Proof.
  destruct (@create_features_shape (fun x => x) four_rows)
    as (f & Hf & Hidx & Hcols); [unfold well_formed; prove_nodup|].
  exists f. split; [exact Hf|]. split; [exact Hidx|].
  unfold columns_have_length in Hcols. tauto.
Defined.

(** X2.  The same holds for the second cell's [create_features]. *)
Theorem create_features_v2_shape (sqrtQ : Q -> Q) (data : Series) :
  well_formed data ->
  exists f, create_features_v2 sqrtQ data = Ok f /\
            f2_index f = index data /\
            columns_have_length_v2 f (length data).
Proof.
  intros Hwf. unfold create_features_v2.
  destruct (@calculate_RSI_ok data 14 ltac:(lia)) as (rsi & Hrsi).
  rewrite Hrsi. cbn [bind].
  pose proof (@calculate_RSI_all_missing data 14 rsi Hwf Hrsi) as Hnone.
  pose proof (@calculate_MACD_v2_unfold data 26 12 9) as HM.
  specialize (HM ltac:(lia) ltac:(lia) ltac:(lia)). cbv zeta in HM.
  rewrite HM. cbn [bind]. clear HM.
  rewrite adopt_index_empty_frame, calculate_SMA_index.
  rewrite (@reindex_all_missing (index data) rsi Hnone).
  eexists. split; [reflexivity|]. split; [reflexivity|].
  unfold columns_have_length_v2.
  cbn [SMA_20_v2 RSI_14_v2 MACD_v2 MACD_signal_v2 BB_upper_v2 BB_lower_v2
       RSI_momentum_v2 BB_width_v2].
  rewrite !map2_length, diff_values_length, !reindex_length, repeat_length,
    index_length.
  repeat split; lia.
Qed.

Lemma create_features_v2_shape_witness :
  exists f, create_features_v2 (fun x => x) four_rows = Ok f /\
            f2_index f = [0; 1; 2; 3] /\
            length (RSI_14_v2 f) = 4 /\ length (BB_width_v2 f) = 4.
Proof.
  destruct (@create_features_v2_shape (fun x => x) four_rows)
    as (f & Hf & Hidx & Hcols); [unfold well_formed; prove_nodup|].
  exists f. split; [exact Hf|]. split; [exact Hidx|].
  unfold columns_have_length_v2 in Hcols. tauto.
Defined.

(** ** The RSI columns *)

Lemma diff_values_all_missing (n : nat) :
  diff_values (repeat (@None Q) n) = repeat None n.
Proof.
  unfold diff_values. generalize (@None Q) at 1 as prev.
  induction n as [|n IH]; intros prev; simpl; [reflexivity|].
  f_equal. apply IH.
Qed.

(** X3.  On a price series with distinct labels, the RSI column and the RSI
    momentum column are missing in every row of the table, in the second
    cell's table and in the third cell's table alike. *)
Theorem rsi_columns_all_missing (sqrtQ : Q -> Q) (data : Series)
        (f : Features) (f2 : Features_v2) :
  well_formed data ->
  create_features sqrtQ data = Ok f ->
  create_features_v2 sqrtQ data = Ok f2 ->
  RSI_14 f = repeat None (length data) /\
  RSI_momentum f = repeat None (length data) /\
  RSI_14_v2 f2 = repeat None (length data) /\
  RSI_momentum_v2 f2 = repeat None (length data).
Proof.
  intros Hwf Hf Hf2.
  rewrite create_features_columns in Hf by exact Hwf. injection Hf as <-.
  cbn [feature_columns RSI_14 RSI_momentum]. unfold rsi_column.
  rewrite values_length, diff_values_all_missing.
  split; [reflexivity|]. split; [reflexivity|].
  unfold create_features_v2 in Hf2.
  rewrite adopt_index_empty_frame, calculate_SMA_index in Hf2.
  destruct (@calculate_RSI_ok data 14 ltac:(lia)) as (rsi & Hrsi).
  rewrite Hrsi in Hf2. cbn [bind] in Hf2.
  pose proof (@calculate_MACD_v2_unfold data 26 12 9) as HM.
  specialize (HM ltac:(lia) ltac:(lia) ltac:(lia)). cbv zeta in HM.
  rewrite HM in Hf2. cbn [bind] in Hf2. clear HM.
  injection Hf2 as <-. cbn [RSI_14_v2 RSI_momentum_v2].
  rewrite (@reindex_all_missing _ rsi
             (@calculate_RSI_all_missing data 14 rsi Hwf Hrsi)).
  rewrite index_length. now rewrite diff_values_all_missing.
Qed.

Lemma rsi_columns_all_missing_witness :
  exists f f2,
    create_features (fun x => x) rising = Ok f /\
    create_features_v2 (fun x => x) rising = Ok f2 /\
    RSI_14 f = [None; None; None; None] /\
    RSI_14_v2 f2 = [None; None; None; None].
Proof.
  eexists. eexists.
  split; [vm_compute; reflexivity|]. split; [vm_compute; reflexivity|].
  match goal with
  | |- RSI_14 ?f = _ /\ RSI_14_v2 ?f2 = _ =>
      destruct (@rsi_columns_all_missing (fun x => x) rising f f2)
        as (H1 & _ & H2 & _);
      [unfold well_formed; simpl; prove_nodup
      | vm_compute; reflexivity | vm_compute; reflexivity |]
  end.
  split; [exact H1 | exact H2].
Defined.

(** *** How many rows [calculate_RSI] returns *)

Lemma insert_label_in (l x : nat) (ls : list nat) :
  In x (insert_label l ls) <-> x = l \/ In x ls.
Proof.
  induction ls as [|k tl IH]; simpl; [intuition|].
  destruct (Nat.ltb_spec l k); simpl; [intuition|].
  destruct (Nat.eqb_spec l k) as [->|Hne]; simpl; [intuition|].
  rewrite IH. intuition.
Qed.

Lemma insert_label_length (l : nat) (ls : list nat) :
  ~ In l ls -> length (insert_label l ls) = S (length ls).
Proof.
  induction ls as [|k tl IH]; simpl; [reflexivity|]. intros Hn.
  destruct (Nat.ltb_spec l k); [reflexivity|].
  destruct (Nat.eqb_spec l k) as [->|Hne]; [tauto|].
  simpl. f_equal. apply IH. tauto.
Qed.

Lemma sort_labels_in (ls : list nat) (x : nat) :
  In x (fold_right insert_label [] ls) <-> In x ls.
Proof.
  induction ls as [|l ls IH]; simpl; [tauto|].
  rewrite insert_label_in, IH. intuition.
Qed.

Lemma sort_labels_length (ls : list nat) :
  NoDup ls -> length (fold_right insert_label [] ls) = length ls.
Proof.
  induction ls as [|l ls IH]; intros Hnd; simpl; [reflexivity|].
  apply NoDup_cons_iff in Hnd. destruct Hnd as [Hl Hnd].
  rewrite insert_label_length, IH; auto.
  now rewrite sort_labels_in.
Qed.

Lemma mask_index_nodup (p : value -> bool) (s : Series) :
  NoDup (index s) -> NoDup (index (mask p s)).
Proof.
  unfold index, mask. induction s as [|(k & v) s IH]; simpl;
    [constructor|].
  intros Hnd. apply NoDup_cons_iff in Hnd. destruct Hnd as [Hk Hnd].
  destruct (p v); simpl; [|now apply IH].
  constructor; [|now apply IH].
  intros Hin. apply Hk. apply in_map_iff in Hin.
  destruct Hin as (r & <- & Hr). apply filter_In in Hr.
  apply in_map. tauto.
Qed.

Lemma series_binop_length_disjoint (op : value -> value -> value)
      (a b : Series) :
  NoDup (index a) -> NoDup (index b) ->
  (forall l, In l (index a) -> In l (index b) -> False) ->
  length (series_binop op a b) = length a + length b.
Proof.
  intros Ha Hb Hdis. unfold series_binop.
  destruct (list_eq_dec Nat.eq_dec (index a) (index b)) as [E|_].
  - assert (Hnil : index a = []).
    { destruct (index a) as [|l t] eqn:Ei; [reflexivity|].
      exfalso. apply (Hdis l); [now left | rewrite <- E; now left]. }
    assert (a = []) by now apply index_nil.
    assert (b = []) by (apply index_nil; congruence).
    subst. reflexivity.
  - rewrite length_map. unfold index_union.
    assert (Hnd : NoDup (index a ++ index b)).
    { apply NoDup_app; assumption. }
    rewrite (sort_labels_length Hnd), length_app, !index_length. reflexivity.
Qed.

Lemma filter_exclusive_length {A} (p q : A -> bool) (l : list A) :
  (forall x, p x = true -> q x = true -> False) ->
  length (filter p l) + length (filter q l) <= length l.
Proof.
  intros Hpq. induction l as [|x l IH]; simpl; [lia|].
  destruct (p x) eqn:Ep, (q x) eqn:Eq; simpl; try lia.
  exfalso. exact (Hpq x Ep Eq).
Qed.

Lemma diff_first_missing (r : nat * value) (data : Series) :
  exists rest, diff (r :: data) = (fst r, None) :: rest /\
               length rest = length data.
Proof.
  destruct r as (k & v). unfold diff, on_index, diff_values. cbn.
  eexists. split.
  - f_equal. now destruct v.
  - rewrite length_combine, diff_from_length.
    fold (index data) (values data). rewrite index_length, values_length.
    lia.
Qed.

(** X4.  On a non-empty price series with distinct labels [calculate_RSI]
    returns fewer rows than it was given: one for each row whose price
    differs from the row before, and none for the first row or for a row
    without change. *)
Theorem calculate_RSI_row_count (data : Series) (w : nat) (s : Series) :
  well_formed data -> data <> [] ->
  calculate_RSI data w = Ok s ->
  length s = length (gains (diff data)) + length (losses (diff data)) /\
  length s < length data.
Proof.
  intros Hwf Hne Hs. apply rsi_averages in Hs. destruct Hs as (Hw & ->).
  assert (Hnd : NoDup (index (diff data))) by now rewrite diff_index.
  set (up := gains (diff data)). set (down := losses (diff data)).
  assert (Hup : forall vs, length vs = length up ->
                           index (on_index up vs) = index up)
    by (intros; now apply on_index_index).
  assert (Hlen : length (series_map rsi_of_rs
                   (series_binop vdiv
                      (on_index up (ewm_mean (wilder_alpha w) (Z.of_nat w) (values up)))
                      (on_index down (ewm_mean (wilder_alpha w) (Z.of_nat w) (values down)))))
                 = length up + length down).
  { unfold series_map. rewrite length_map.
    rewrite series_binop_length_disjoint.
    - rewrite !on_index_length
        by now rewrite ewm_mean_length, values_length.
      reflexivity.
    - rewrite on_index_index by now rewrite ewm_mean_length, values_length.
      apply mask_index_nodup, Hnd.
    - rewrite on_index_index by now rewrite ewm_mean_length, values_length.
      unfold down, losses. rewrite series_map_index.
      apply mask_index_nodup, Hnd.
    - intros l H1 H2.
      rewrite on_index_index in H1 by now rewrite ewm_mean_length, values_length.
      rewrite on_index_index in H2 by now rewrite ewm_mean_length, values_length.
      exact (@gains_losses_disjoint (diff data) l Hnd H1 H2). }
  split; [exact Hlen|]. rewrite Hlen.
  destruct data as [|r data]; [congruence|].
  destruct (diff_first_missing r data) as (rest & Hd & Hrest).
  unfold up, down, gains, losses, series_map, mask.
  rewrite length_map, Hd. cbn [filter snd vgt vlt]. cbn [length].
  pose proof (@filter_exclusive_length _
                (fun r0 : nat * option Q => vgt (snd r0) (Some 0%Q))
                (fun r0 : nat * option Q => vlt (snd r0) (Some 0%Q)) rest) as H.
  rewrite Hrest in H. apply Nat.lt_succ_r, H.
  intros (k & [x|]) Hg Hl; simpl in *; [|discriminate].
  apply Qltb_lt in Hg. apply Qltb_lt in Hl. lra.
Qed.

Lemma calculate_RSI_row_count_witness :
  exists s, calculate_RSI rising 2 = Ok s /\ length s = 3 /\
            length s < length rising.
Proof.
  eexists. split; [vm_compute; reflexivity|].
  match goal with
  | |- length ?s = _ /\ _ =>
      destruct (@calculate_RSI_row_count rising 2 s) as (H1 & H2);
      [unfold well_formed; simpl; prove_nodup | discriminate
      | vm_compute; reflexivity |]
  end.
  split; [reflexivity | exact H2].
Defined.

(** ** Rolling aggregations in general

    Whatever the running state, if adding a cell and removing the oldest
    cell keep a description of the state by the cells of the window,
    every row of the walk is computed from a state that describes that
    row's window. *)
Section RollInvariant.
Variable St : Type.
Variable add remove : value -> St -> St.
Variable init : St.
Variable calc : St -> value.
Variable Inv : St -> list value -> Prop.
Hypothesis Inv_init : Inv init [].
Hypothesis Inv_add : forall v st l, Inv st l -> Inv (add v st) (l ++ [v]).
Hypothesis Inv_remove : forall v st l, Inv st (v :: l) -> Inv (remove v st) l.

Lemma range_fold_add_inv (vals : list value) (len lo : nat) (st : St)
      (l : list value) :
  lo + len <= length vals ->
  Inv st l ->
  Inv (range_fold add vals lo len st) (l ++ slice vals lo (lo + len)).
Proof.
  revert lo st l. induction len as [|len IH]; intros lo st l Hb Hi; simpl.
  - now rewrite Nat.add_0_r, slice_nil, app_nil_r.
  - rewrite <- (@slice_app _ vals lo (S lo) (lo + S len)) by lia.
    rewrite (slice_step None vals) by lia.
    rewrite app_assoc. replace (lo + S len) with (S lo + len) by lia.
    apply IH; [lia|]. now apply Inv_add.
Qed.

Lemma range_fold_remove_inv (vals : list value) (len lo : nat) (st : St)
      (l : list value) :
  lo + len <= length vals ->
  Inv st (slice vals lo (lo + len) ++ l) ->
  Inv (range_fold remove vals lo len st) l.
Proof.
  revert lo st l. induction len as [|len IH]; intros lo st l Hb Hi; simpl.
  - now rewrite Nat.add_0_r, slice_nil in Hi.
  - rewrite <- (@slice_app _ vals lo (S lo) (lo + S len)) in Hi by lia.
    rewrite (slice_step None vals) in Hi by lia.
    replace (lo + S len) with (S lo + len) in Hi by lia.
    apply IH; [lia|]. now apply Inv_remove.
Qed.

Lemma roll_step_inv (w : nat) (vals : list value) (i : nat) (st : St) :
  i < length vals ->
  (i = 0 \/ Inv st (slice vals (win_start w (i - 1)) (win_end w (i - 1)))) ->
  Inv (roll_step add remove init w vals i st)
      (slice vals (win_start w i) (win_end w i)).
Proof.
  intros Hi Hst. unfold roll_step.
  destruct (win_bounds w i) as (Hse & He & Hss & Hee).
  assert (Hfresh : Inv (range_fold add vals (win_start w i)
                          (win_end w i - win_start w i) init)
                       (slice vals (win_start w i) (win_end w i))).
  { replace (win_end w i) with (win_start w i + (win_end w i - win_start w i))
      at 2 by lia.
    apply (@range_fold_add_inv vals _ _ init []); [lia | exact Inv_init]. }
  destruct ((i =? 0) || (win_end w (i - 1) <=? win_start w i)) eqn:Hc.
  - exact Hfresh.
  - apply orb_false_iff in Hc. destruct Hc as [Hi0 Hov].
    apply Nat.eqb_neq in Hi0. apply Nat.leb_gt in Hov.
    destruct Hst as [->|Hst]; [lia|].
    destruct (win_bounds w (i - 1)) as (Hse' & He' & _).
    rewrite <- (@slice_app _ vals (win_start w i) (win_end w (i - 1))
                  (win_end w i)) by lia.
    replace (win_end w i)
      with (win_end w (i - 1) + (win_end w i - win_end w (i - 1))) at 2 by lia.
    apply range_fold_add_inv; [lia|].
    apply range_fold_remove_inv; [lia|].
    replace (win_start w (i - 1) + (win_start w i - win_start w (i - 1)))
      with (win_start w i) by lia.
    rewrite slice_app by lia. exact Hst.
Qed.

Lemma roll_loop_inv (w : nat) (vals : list value) (n i : nat) (st : St)
      (k : nat) :
  i + n <= length vals ->
  (i = 0 \/ Inv st (slice vals (win_start w (i - 1)) (win_end w (i - 1)))) ->
  k < n ->
  exists st',
    nth_error (roll_loop add remove init calc w vals i n st) k
      = Some (calc st') /\
    Inv st' (slice vals (win_start w (i + k)) (win_end w (i + k))).
Proof.
  revert i st k. induction n as [|n IH]; intros i st k Hb Hst Hk; [lia|].
  simpl. pose proof (@roll_step_inv w vals i st ltac:(lia) Hst) as Hstep.
  destruct k as [|k]; simpl.
  - eexists. split; [reflexivity|]. now rewrite Nat.add_0_r.
  - replace (i + S k) with (S i + k) by lia.
    apply IH; [lia | | lia].
    right. now replace (S i - 1) with i by lia.
Qed.

Lemma roll_inv (w : nat) (vals : list value) (i : nat) :
  i < length vals ->
  exists st,
    nth_error (roll add remove init calc w vals) i = Some (calc st) /\
    Inv st (slice vals (win_start w i) (win_end w i)).
Proof.
  intros Hi. unfold roll.
  destruct (@roll_loop_inv w vals (length vals) 0 init i
              (Nat.le_refl _) (or_introl eq_refl) Hi) as (st & H1 & H2).
  now exists st.
Qed.
End RollInvariant.

(** ** The rolling variance is the sample variance of the window *)

Lemma inject_nat_succ (n : nat) :
  (inject_Z (Z.of_nat (S n)) == inject_Z (Z.of_nat n) + 1)%Q.
Proof. rewrite Nat2Z.inj_succ. unfold Z.succ. now rewrite inject_Z_plus. Qed.

Lemma var_inv_init : var_inv var_init [].
Proof. unfold var_inv. simpl. repeat split; ring. Qed.

Lemma var_inv_add (v : value) (st : var_state) (l : list value) :
  var_inv st l -> var_inv (add_var v st) (l ++ [v]).
Proof.
  intros (Hn & Hm & Hs). unfold var_inv.
  rewrite obs_count_app.
  assert (Hsum : (obs_sum (l ++ [v]) == obs_sum l + obs_sum [v])%Q)
    by apply obs_sum_app.
  assert (Hsq : (obs_sumsq (l ++ [v]) == obs_sumsq l + obs_sumsq [v])%Q).
  { clear. induction l as [|[x|] l IH]; simpl in *; try rewrite IH; ring. }
  rewrite Hsum, Hsq. clear Hsum Hsq.
  destruct v as [x|]; cbn [add_var obs_count obs_sum obs_sumsq].
  - replace (obs_count l + 1) with (S (obs_count l)) by lia.
    assert (Hz : (v_nobs st + 1 =? 0)%Z = false).
    { apply Z.eqb_neq. lia. }
    rewrite Hz. cbn [v_nobs v_mean v_ssqdm].
    assert (Hq : (inject_Z (v_nobs st + 1)
                  == inject_Z (Z.of_nat (obs_count l)) + 1)%Q).
    { rewrite Hn, inject_Z_plus. reflexivity. }
    pose proof (inject_nat_pos (k := S (obs_count l)) ltac:(lia)) as Hpos.
    rewrite inject_nat_succ in *.
    set (n := inject_Z (Z.of_nat (obs_count l))) in *.
    rewrite Hq, <- Hm, <- Hs.
    split; [lia|]. split; field; lra.
  - rewrite Nat.add_0_r. split; [exact Hn|]. split.
    + rewrite Hm. ring.
    + rewrite Hs. ring.
Qed.

Lemma obs_count_zero (l : list value) :
  obs_count l = 0 -> (obs_sum l == 0)%Q /\ (obs_sumsq l == 0)%Q.
Proof.
  induction l as [|[x|] l IH]; simpl; intros H;
    [split; reflexivity | discriminate | now apply IH].
Qed.

Lemma var_inv_remove (v : value) (st : var_state) (l : list value) :
  var_inv st (v :: l) -> var_inv (remove_var v st) l.
Proof.
  intros (Hn & Hm & Hs). unfold var_inv.
  destruct v as [x|]; cbn [remove_var obs_count obs_sum obs_sumsq] in *;
    [|repeat split; assumption].
  rewrite inject_nat_succ in *.
  set (n := inject_Z (Z.of_nat (obs_count l))) in *.
  destruct (Z.eqb_spec (v_nobs st - 1) 0) as [Hz|Hz]; cbn [v_nobs v_mean v_ssqdm].
  - assert (Hc : obs_count l = 0) by lia.
    destruct (obs_count_zero l Hc) as [H1 H2].
    split; [rewrite Hz, Hc; reflexivity|].
    rewrite H1, H2. split; ring.
  - assert (Hq : (inject_Z (v_nobs st - 1) == n)%Q).
    { unfold n. replace (v_nobs st - 1)%Z with (Z.of_nat (obs_count l)) by lia.
      reflexivity. }
    assert (Hpos : (0 < n)%Q).
    { unfold n. apply inject_nat_pos. lia. }
    rewrite Hq. split; [lia|].
    assert (E1 : (obs_sum l == v_mean st * (n + 1) - x)%Q) by lra.
    assert (E2 : (obs_sumsq l
                  == v_ssqdm st + (n + 1) * (v_mean st * v_mean st) - x * x)%Q)
      by lra.
    rewrite E1, E2. split; field; lra.
Qed.

Lemma sq_dev_sum_expand (m : Q) (l : list value) :
  (sq_dev_sum m l
   == obs_sumsq l - 2 * m * obs_sum l
      + inject_Z (Z.of_nat (obs_count l)) * (m * m))%Q.
Proof.
  induction l as [|[x|] l IH]; cbn [sq_dev_sum obs_sumsq obs_sum obs_count].
  - simpl. ring.
  - rewrite inject_nat_succ, IH. ring.
  - exact IH.
Qed.

Lemma calc_var_window (w : nat) (st : var_state) (l : list value) :
  var_inv st l -> length l = w ->
  veq (calc_var (Z.of_nat w) st) (variance_of l).
Proof.
  intros (Hn & Hm & Hs) Hl. unfold calc_var, variance_of, mean_of.
  rewrite Hn, Hl. pose proof (obs_count_le l) as Hle.
  destruct (forallb is_obs l) eqn:Hall.
  - apply obs_count_full in Hall. rewrite Hall, Hl in *.
    rewrite Z.leb_refl. cbn [andb].
    destruct (Nat.ltb_spec 1 w) as [Hw|Hw].
    + replace (1 <? Z.of_nat w)%Z with true by (symmetry; apply Z.ltb_lt; lia).
      replace (w =? 0) with false by (symmetry; apply Nat.eqb_neq; lia).
      cbn [negb veq].
      pose proof (inject_nat_pos (k := w) ltac:(lia)) as Hpos.
      set (n := inject_Z (Z.of_nat w)) in *.
      assert (Hmean : (obs_sum l / n == v_mean st)%Q).
      { rewrite <- Hm. field. lra. }
      rewrite sq_dev_sum_expand, Hall, Hmean. fold n.
      rewrite <- Hs, <- Hm. apply Qeq_refl || idtac.
      assert (Hd : ~ (inject_Z (Z.of_nat w - 1) == 0)%Q).
      { replace 0%Q with (inject_Z 0) by reflexivity.
        rewrite inject_Z_injective. lia. }
      field. exact Hd.
    + replace (1 <? Z.of_nat w)%Z with false by (symmetry; apply Z.ltb_ge; lia).
      destruct (negb (w =? 0)); exact I.
  - assert (obs_count l <> length l) as Hne.
    { intros E. apply obs_count_full in E. congruence. }
    replace (Z.of_nat w <=? Z.of_nat (obs_count l))%Z with false
      by (symmetry; apply Z.leb_gt; lia).
    exact I.
Qed.

Lemma calc_var_warmup (w : nat) (st : var_state) (l : list value) :
  var_inv st l -> length l < w -> calc_var (Z.of_nat w) st = None.
Proof.
  intros (Hn & _) Hl. unfold calc_var. rewrite Hn.
  pose proof (obs_count_le l).
  replace (Z.of_nat w <=? Z.of_nat (obs_count l))%Z with false
    by (symmetry; apply Z.leb_gt; lia).
  reflexivity.
Qed.

Lemma window_slice (w i : nat) (vals : list value) :
  w <= S i -> i < length vals ->
  slice vals (win_start w i) (win_end w i) = slice vals (S i - w) (S i)
  \/ (w = 0 /\ slice vals (win_start w i) (win_end w i) = []
             /\ slice vals (S i - w) (S i) = []).
Proof.
  intros Hw Hi. unfold win_start, win_end.
  destruct (Nat.eqb_spec w 0) as [->|Hne].
  - right. rewrite !Nat.sub_0_r, !slice_nil. auto.
  - now left.
Qed.

Lemma rolling_var_rows (w : nat) (vals : list value) (i : nat) :
  i < length vals ->
  exists v,
    nth_error (rolling_var w vals) i = Some v /\
    (w <= S i -> veq v (variance_of (slice vals (S i - w) (S i)))) /\
    (S i < w -> v = None).
Proof.
  intros Hi. unfold rolling_var.
  destruct (@roll_inv var_state add_var remove_var var_init
              (calc_var (Z.of_nat w)) var_inv var_inv_init
              var_inv_add var_inv_remove w vals i Hi) as (st & Hrow & Hinv).
  exists (calc_var (Z.of_nat w) st). split; [exact Hrow|]. split; intros Hw.
  - destruct (window_slice vals Hw Hi) as [E|(-> & E1 & E2)].
    + rewrite E in Hinv. apply calc_var_window; [exact Hinv|].
      rewrite slice_length by lia. lia.
    + rewrite E1 in Hinv. rewrite E2. now apply calc_var_window.
  - apply calc_var_warmup with (l := slice vals (win_start w i) (win_end w i));
      [exact Hinv|].
    unfold win_start, win_end.
    destruct (w =? 0); rewrite slice_length by lia; lia.
Qed.

(** ** Bollinger bands *)

Lemma nth_error_map2 {A B C} (f : A -> B -> C) (l1 : list A) (l2 : list B)
      (i : nat) :
  nth_error (map2 f l1 l2) i
  = match nth_error l1 i, nth_error l2 i with
    | Some a, Some b => Some (f a b)
    | _, _ => None
    end.
Proof.
  revert l1 l2. induction i as [|i IH]; intros [|a l1] [|b l2]; simpl;
    try reflexivity.
  - now destruct (nth_error l1 i).
  - apply IH.
Qed.

Lemma Qltb_compat (x y z : Q) : (x == y)%Q -> Qltb x z = Qltb y z.
Proof.
  intros E. destruct (Qltb x z) eqn:H1, (Qltb y z) eqn:H2; try reflexivity.
  - apply Qltb_lt in H1. rewrite E in H1. apply Qltb_lt in H1. congruence.
  - apply Qltb_lt in H2. rewrite <- E in H2. apply Qltb_lt in H2. congruence.
Qed.

Lemma zsqrt_veq (sqrtQ : Q -> Q) (a b : value) :
  (forall x y, (x == y)%Q -> (sqrtQ x == sqrtQ y)%Q) ->
  veq a b -> veq (zsqrt sqrtQ a) (zsqrt sqrtQ b).
Proof.
  intros Hs. destruct a as [x|], b as [y|]; simpl; try tauto.
  intros E. rewrite (Qltb_compat 0 E).
  destruct (Qltb y 0); [reflexivity | now apply Hs].
Qed.

Lemma vlift2_veq (op : Q -> Q -> Q) (a a' b b' : value) :
  (forall x x' y y', (x == x')%Q -> (y == y')%Q -> (op x y == op x' y')%Q) ->
  veq a a' -> veq b b' -> veq (vlift2 op a b) (vlift2 op a' b').
Proof.
  intros Hop. destruct a, a', b, b'; simpl; try tauto. apply Hop.
Qed.

Lemma vadd_veq (a a' b b' : value) :
  veq a a' -> veq b b' -> veq (vadd a b) (vadd a' b').
Proof. apply vlift2_veq. intros x x' y y' -> ->. reflexivity. Qed.

Lemma vsub_veq (a a' b b' : value) :
  veq a a' -> veq b b' -> veq (vsub a b) (vsub a' b').
Proof. apply vlift2_veq. intros x x' y y' -> ->. reflexivity. Qed.

Lemma vmul_veq (a a' b b' : value) :
  veq a a' -> veq b b' -> veq (vmul a b) (vmul a' b').
Proof. apply vlift2_veq. intros x x' y y' -> ->. reflexivity. Qed.

Lemma bollinger_rows (sqrtQ : Q -> Q) (data : Series) (w i : nat) :
  i < length data ->
  exists m v,
    nth_error (rolling_mean w (values data)) i = Some m /\
    nth_error (rolling_var w (values data)) i = Some v /\
    nth_error (values (fst (calculate_bollinger_bands sqrtQ data w))) i
      = Some (vadd m (vmul (Some 2%Q) (zsqrt sqrtQ v))) /\
    nth_error (values (snd (calculate_bollinger_bands sqrtQ data w))) i
      = Some (vsub m (vmul (Some 2%Q) (zsqrt sqrtQ v))).
Proof.
  intros Hi. rewrite <- values_length in Hi.
  destruct (rolling_mean_spec w (values data) Hi) as (m & Hm & _).
  destruct (rolling_var_rows w (values data) Hi) as (v & Hv & _).
  exists m, v. split; [exact Hm|]. split; [exact Hv|].
  unfold calculate_bollinger_bands. cbn [fst snd].
  rewrite !on_index_values
    by (rewrite map2_length, length_map, rolling_std_length,
          rolling_mean_length, values_length; lia).
  rewrite !nth_error_map2, Hm. unfold rolling_std.
  rewrite !nth_error_map, Hv. split; reflexivity.
Qed.

Lemma veq_missing (v : value) : veq v None -> v = None.
Proof. destruct v; simpl; [contradiction | reflexivity]. Qed.

Lemma variance_of_missing (l : list value) :
  length l < 2 \/ forallb is_obs l = false -> variance_of l = None.
Proof.
  unfold variance_of, mean_of. intros [H|H].
  - destruct (forallb is_obs l && negb (length l =? 0))%bool; [|reflexivity].
    replace (1 <? length l) with false
      by (symmetry; apply Nat.ltb_ge; lia).
    reflexivity.
  - now rewrite H.
Qed.

(** X5.  [calculate_bollinger_bands] keeps the index of the price series,
    and both bands are missing at row [i] in each of these cases: the
    row comes before [w-1], so the window is not yet full; one of the
    [w] cells ending at [i] is missing; or [w < 2], since the sample
    standard deviation needs two values. *)
Theorem bollinger_bands_missing_rows (sqrtQ : Q -> Q) (data : Series)
        (w i : nat) :
  i < length data ->
  index (fst (calculate_bollinger_bands sqrtQ data w)) = index data /\
  index (snd (calculate_bollinger_bands sqrtQ data w)) = index data /\
  (S i < w \/ w < 2 \/
   forallb is_obs (slice (values data) (S i - w) (S i)) = false ->
   nth_error (values (fst (calculate_bollinger_bands sqrtQ data w))) i
     = Some None /\
   nth_error (values (snd (calculate_bollinger_bands sqrtQ data w))) i
     = Some None).
Proof.
  intros Hi.
  assert (Hlen : forall op : value -> value -> value,
             length (map2 op (rolling_mean w (values data))
                       (map (vmul (Some 2%Q))
                            (rolling_std sqrtQ w (values data))))
             = length data).
  { intros op. rewrite map2_length, length_map, rolling_std_length,
      rolling_mean_length, values_length. lia. }
  split; [apply on_index_index, Hlen|]. split; [apply on_index_index, Hlen|].
  intros Hcase.
  destruct (bollinger_rows sqrtQ data w Hi) as (m & v & Hm & Hv & Hu & Hl).
  rewrite <- values_length in Hi.
  destruct (rolling_var_rows w (values data) Hi) as (v' & Hv' & Hvar & Hvw).
  rewrite Hv in Hv'. injection Hv' as <-.
  assert (E : v = None).
  { destruct (Nat.le_gt_cases w (S i)) as [Hw|Hw]; [|now apply Hvw].
    apply veq_missing. rewrite <- (@variance_of_missing
                                     (slice (values data) (S i - w) (S i))).
    - now apply Hvar.
    - destruct Hcase as [H|[H|H]]; [lia | left | now right].
      rewrite slice_length by lia. lia. }
  subst v. rewrite Hu, Hl. destruct m; split; reflexivity.
Qed.

Lemma bollinger_bands_missing_rows_witness :
  nth_error (values (fst (calculate_bollinger_bands (fun x => x)
                            bollinger_example 2))) 0 = Some None /\
  nth_error (values (snd (calculate_bollinger_bands (fun x => x)
                            bollinger_example 1))) 2 = Some None /\
  nth_error (values (fst (calculate_bollinger_bands (fun x => x)
                            gap_series 2))) 2 = Some None.
Proof.
  destruct (@bollinger_bands_missing_rows (fun x => x) bollinger_example 2 0)
    as (_ & _ & H1); [simpl; lia|].
  destruct (@bollinger_bands_missing_rows (fun x => x) bollinger_example 1 2)
    as (_ & _ & H2); [simpl; lia|].
  destruct (@bollinger_bands_missing_rows (fun x => x) gap_series 2 2)
    as (_ & _ & H3); [simpl; lia|].
  split; [apply H1; left; lia|]. split; [apply H2; right; left; lia|].
  apply H3. right. right. reflexivity.
Defined.

(** X6.  Wherever both bands are defined, they lie at equal distance on the
    two sides of the simple moving average of the same window; with a
    square root that is never negative the lower band is not above the
    upper one. *)
Theorem bollinger_bands_around_sma (sqrtQ : Q -> Q) (data : Series)
        (w i : nat) (u l : Q) :
  (forall x, (0 <= sqrtQ x)%Q) ->
  nth_error (values (fst (calculate_bollinger_bands sqrtQ data w))) i
    = Some (Some u) ->
  nth_error (values (snd (calculate_bollinger_bands sqrtQ data w))) i
    = Some (Some l) ->
  exists m,
    nth_error (values (calculate_SMA data w)) i = Some (Some m) /\
    (u + l == 2 * m)%Q /\ (l <= m)%Q /\ (m <= u)%Q.
Proof.
  intros Hsqrt Hu Hl.
  assert (Hi : i < length data).
  { assert (H : nth_error (values (fst (calculate_bollinger_bands sqrtQ data w))) i
                <> None) by congruence.
    apply nth_error_Some in H. unfold calculate_bollinger_bands in H.
    cbn [fst] in H. rewrite values_length in H. unfold on_index in H.
    rewrite length_combine, index_length in H. lia. }
  destruct (bollinger_rows sqrtQ data w Hi) as (m & v & Hm & Hv & Hu' & Hl').
  rewrite Hu in Hu'. rewrite Hl in Hl'.
  injection Hu' as Hu'. injection Hl' as Hl'.
  destruct m as [m|]; [|discriminate]. destruct v as [v|]; [|discriminate].
  simpl in Hu', Hl'. injection Hu' as ->. injection Hl' as ->.
  exists m. split.
  - unfold calculate_SMA. rewrite on_index_values; [exact Hm|].
    now rewrite rolling_mean_length, values_length.
  - assert (Hs : (0 <= (if Qltb v 0 then 0 else sqrtQ v))%Q).
    { destruct (Qltb v 0); [apply Qle_refl | apply Hsqrt]. }
    split; [ring|]. split; lra.
Qed.

Lemma bollinger_bands_around_sma_witness :
  exists u l m,
    nth_error (values (fst (calculate_bollinger_bands Qabs
                              bollinger_example 2))) 2 = Some (Some u) /\
    nth_error (values (snd (calculate_bollinger_bands Qabs
                              bollinger_example 2))) 2 = Some (Some l) /\
    nth_error (values (calculate_SMA bollinger_example 2)) 2 = Some (Some m) /\
    (u + l == 2 * m)%Q /\ (l <= m)%Q /\ (m <= u)%Q.
Proof.
  eexists. eexists.
  match goal with
  | |- exists m, ?A = Some (Some ?u) /\ ?B = Some (Some ?l) /\ _ =>
      assert (Hu : A = Some (Some u)) by (vm_compute; reflexivity);
      assert (Hl : B = Some (Some l)) by (vm_compute; reflexivity)
  end.
  destruct (@bollinger_bands_around_sma Qabs bollinger_example
              2 2 _ _ Qabs_nonneg Hu Hl) as (m & Hm & H).
  exists m. split; [exact Hu|]. split; [exact Hl|]. split; [exact Hm | exact H].
Defined.

(** ** Moving averages stay within the range of the prices *)

Lemma obs_sum_bounds (lo hi : Q) (l : list value) :
  Forall (within lo hi) l ->
  (inject_Z (Z.of_nat (obs_count l)) * lo <= obs_sum l)%Q /\
  (obs_sum l <= inject_Z (Z.of_nat (obs_count l)) * hi)%Q.
Proof.
  induction 1 as [|[x|] l Hx Hl [IH1 IH2]]; cbn [obs_count obs_sum].
  - change (inject_Z (Z.of_nat 0)) with 0%Q. lra.
  - rewrite inject_nat_succ. simpl in Hx. lra.
  - auto.
Qed.

Lemma mean_of_within (lo hi : Q) (l : list value) :
  Forall (within lo hi) l -> within lo hi (mean_of l).
Proof.
  intros Hl. unfold mean_of.
  destruct (forallb is_obs l) eqn:Hall; cbn [andb]; [|exact I].
  destruct (Nat.eqb_spec (length l) 0) as [E|Hne]; cbn [negb]; [exact I|].
  apply obs_count_full in Hall.
  destruct (obs_sum_bounds Hl) as [H1 H2]. rewrite Hall in H1, H2.
  pose proof (inject_nat_pos (k := length l) ltac:(lia)) as Hpos.
  simpl. split.
  - apply Qle_shift_div_l; [exact Hpos|]. lra.
  - apply Qle_shift_div_r; [exact Hpos|]. lra.
Qed.

Lemma within_veq (lo hi : Q) (a b : value) :
  veq a b -> within lo hi b -> within lo hi a.
Proof.
  destruct a as [x|], b as [y|]; simpl; try tauto.
  intros ->. tauto.
Qed.

Lemma slice_Forall {A} (P : A -> Prop) (l : list A) (lo hi : nat) :
  Forall P l -> Forall P (slice l lo hi).
Proof.
  rewrite !Forall_forall. intros H x Hx. apply H. eapply slice_incl, Hx.
Qed.

Lemma rolling_mean_within (lo hi : Q) (w : nat) (vals : list value) :
  Forall (within lo hi) vals ->
  Forall (within lo hi) (rolling_mean w vals).
Proof.
  intros Hv. apply Forall_forall. intros v Hin.
  apply In_nth_error in Hin. destruct Hin as (i & Hi).
  assert (Hlt : i < length vals).
  { rewrite <- (rolling_mean_length w vals). apply nth_error_Some. congruence. }
  destruct (rolling_mean_spec w vals Hlt) as (v' & Hv' & Hmean & Hwarm).
  rewrite Hi in Hv'. injection Hv' as <-.
  destruct (Nat.le_gt_cases w (S i)) as [Hw|Hw].
  - eapply within_veq; [exact (Hmean Hw)|].
    now apply mean_of_within, slice_Forall.
  - now rewrite (Hwarm Hw).
Qed.






(** ** Window 1 *)

Lemma Forall2_rows {A B} (R : A -> B -> Prop) (l1 : list A) (l2 : list B) :
  length l1 = length l2 ->
  (forall i a b, nth_error l1 i = Some a -> nth_error l2 i = Some b -> R a b) ->
  Forall2 R l1 l2.
Proof.
  revert l2. induction l1 as [|a l1 IH]; intros [|b l2] Hlen H;
    simpl in Hlen; try discriminate; constructor.
  - apply (H 0); reflexivity.
  - apply IH; [lia|]. intros i x y Hx Hy. apply (H (S i)); assumption.
Qed.

Lemma veq_trans (a b c : value) : veq a b -> veq b c -> veq a c.
Proof.
  destruct a, b, c; simpl; try tauto. intros -> ->. reflexivity.
Qed.

Lemma mean_of_single (v : value) : veq (mean_of [v]) v.
Proof.
  destruct v as [x|]; unfold mean_of; simpl; [|exact I]. field.
Qed.

Lemma ewm_loop_alpha_one (alpha : Q) (xs : list Q) (wv old_wt : Q) (nobs : Z) :
  (1 - alpha == 0)%Q -> (1 <= nobs)%Z ->
  Forall2 veq (ewm_loop alpha 1 (map Some xs) (Some wv) old_wt nobs)
          (map Some xs).
Proof.
  intros Ha. revert wv old_wt nobs.
  induction xs as [|x xs IH]; intros wv old_wt nobs Hn; [constructor|].
  cbn [map ewm_loop ewm_update]. constructor.
  - unfold ewm_gate.
    replace (1 <=? nobs + obs_incr (Some x))%Z with true
      by (symmetry; apply Z.leb_le; unfold obs_incr; cbn [is_obs]; lia).
    simpl. destruct (Qeq_bool wv x) eqn:E.
    + now apply Qeq_bool_iff.
    + rewrite Ha. field; lra.
  - apply IH. unfold obs_incr. cbn [is_obs]. lia.
Qed.

(** X8.  With window 1 the simple moving average returns the price series
    itself, missing cells included, and the exponential moving average
    returns it on a series without missing cells. *)
Theorem window_one_returns_prices (data : Series) (idx : list nat)
        (xs : list Q) (s : Series) :
  length idx = length xs ->
  calculate_EMA (combine idx (map Some xs)) 1 = Ok s ->
  Forall2 veq (values (calculate_SMA data 1)) (values data) /\
  index s = idx /\
  Forall2 veq (values s) (map Some xs).
Proof.
  intros Hlen Hs. split.
  - unfold calculate_SMA.
    rewrite on_index_values by now rewrite rolling_mean_length, values_length.
    apply Forall2_rows; [apply rolling_mean_length|].
    intros i a b Ha Hb.
    assert (Hi : i < length (values data))
      by (apply nth_error_Some; congruence).
    destruct (rolling_mean_spec 1 (values data) Hi) as (v & Hv & Hmean & _).
    rewrite Ha in Hv. injection Hv as <-.
    specialize (Hmean ltac:(lia)).
    replace (S i - 1) with i in Hmean by lia.
    rewrite (slice_step None (values data) Hi) in Hmean.
    rewrite (nth_error_nth (values data) i None Hb) in Hmean.
    eapply veq_trans; [exact Hmean | apply mean_of_single].
  - rewrite calculate_EMA_ok in Hs by lia. injection Hs as <-.
    assert (Hidx : index (combine idx (map Some xs)) = idx).
    { unfold index. apply combine_fst. now rewrite length_map. }
    assert (Hvals : values (combine idx (map Some xs)) = map Some xs).
    { unfold values. apply combine_snd. now rewrite length_map. }
    rewrite on_index_index, on_index_values
      by now rewrite ewm_mean_length, values_length.
    split; [exact Hidx|]. rewrite Hvals.
    destruct xs as [|x0 xs]; [constructor|].
    cbn [map ewm_mean]. constructor; [simpl; reflexivity|].
    apply ewm_loop_alpha_one;
      [vm_compute; reflexivity | unfold obs_incr; cbn [is_obs]; lia].
Qed.

Lemma window_one_returns_prices_witness :
  exists s, calculate_EMA (combine [0; 1; 2] (map Some [1; 2; 6]%Q)) 1 = Ok s /\
            Forall2 veq (values (calculate_SMA sma_example 1))
                    (values sma_example) /\
            index s = [0; 1; 2] /\
            Forall2 veq (values s) (map Some [1; 2; 6]%Q).
Proof.
  eexists. split; [vm_compute; reflexivity|].
  apply (@window_one_returns_prices sma_example [0; 1; 2] [1; 2; 6]%Q);
    [reflexivity | vm_compute; reflexivity].
Defined.

(** ** Which windows the indicators accept *)

(** X9.  [calculate_EMA] and [calculate_RSI] accept exactly the windows from
    1 on and keep the labels they are given (all of them for the EMA);
    with window 0 the first fails on the smoothing factor 2, the second
    on the division [1/0]. *)
Theorem ema_rsi_window_check (data : Series) (w : nat) :
  (w = 0 /\ calculate_EMA data w = Raise ValueError
         /\ calculate_RSI data w = Raise ZeroDivisionError) \/
  (1 <= w /\ (exists s, calculate_EMA data w = Ok s /\
                        index s = index data) /\
             (exists s, calculate_RSI data w = Ok s /\
                        forall l, In l (index s) -> In l (index data))).
Proof.
  destruct w as [|w]; [left; repeat split; reflexivity|]. right.
  split; [lia|]. split.
  - rewrite calculate_EMA_ok by lia. eexists. split; [reflexivity|].
    apply on_index_index. now rewrite ewm_mean_length, values_length.
  - destruct (@calculate_RSI_ok data (S w) ltac:(lia)) as (s & Hs).
    exists s. split; [exact Hs|].
    apply rsi_averages in Hs. destruct Hs as (_ & ->).
    rewrite series_map_index. intros l Hl.
    assert (Hsub : forall p, In l (index (mask p (diff data))) ->
                             In l (index data)).
    { intros p Hp. apply mask_index_in in Hp. destruct Hp as (v & Hv & _).
      rewrite <- diff_index. unfold index. apply in_map_iff.
      now exists (l, v). }
    unfold series_binop in Hl.
    rewrite !on_index_index in Hl
      by now rewrite ewm_mean_length, values_length.
    destruct (list_eq_dec Nat.eq_dec (index (gains (diff data)))
                (index (losses (diff data)))) as [E|_].
    + rewrite on_index_on_index in Hl
        by now rewrite ewm_mean_length, values_length.
      unfold index at 1, on_index in Hl.
      apply in_map_iff in Hl. destruct Hl as ((k & v) & <- & Hl).
      apply in_combine_l in Hl. now apply (Hsub _ Hl).
    + unfold index at 1 in Hl. rewrite map_map in Hl. cbn [fst] in Hl.
      rewrite map_id in Hl. unfold index_union in Hl.
      apply sort_labels_in, in_app_or in Hl. destruct Hl as [Hl|Hl].
      * now apply (Hsub _ Hl).
      * unfold losses in Hl. rewrite series_map_index in Hl.
        now apply (Hsub _ Hl).
Qed.

Lemma macd_window_check_aux (data : Series) (slow fast sig : nat) :
  (calculate_MACD data slow fast sig = Raise ValueError /\
   calculate_MACD_v2 data slow fast sig = Raise ZeroDivisionError) \/
  (1 <= slow /\ 1 <= fast /\ 1 <= sig).
Proof.
  destruct fast as [|fast]; [left; split; reflexivity|].
  destruct slow as [|slow].
  { left. split.
    - unfold calculate_MACD. rewrite calculate_EMA_ok by lia. reflexivity.
    - unfold calculate_MACD_v2. rewrite py_div_ok by lia. cbn [bind].
      fold (wilder_alpha (S fast)). rewrite wilder_ok by lia. reflexivity. }
  destruct sig as [|sig].
  { left. split.
    - unfold calculate_MACD. rewrite !calculate_EMA_ok by lia. reflexivity.
    - unfold calculate_MACD_v2. rewrite !py_div_ok by lia. cbn [bind].
      fold (wilder_alpha (S fast)) (wilder_alpha (S slow)).
      rewrite !wilder_ok by lia. reflexivity. }
  right. lia.
Qed.

(** X10.  Both drafts of [calculate_MACD] return two series on the index of
    the prices when the three windows are at least 1.  When one of them
    is 0 the third cell's version raises [ValueError] and the second
    cell's version raises [ZeroDivisionError]. *)
Theorem macd_window_check (data : Series) (slow fast sig : nat) :
  ((slow = 0 \/ fast = 0 \/ sig = 0) /\
   calculate_MACD data slow fast sig = Raise ValueError /\
   calculate_MACD_v2 data slow fast sig = Raise ZeroDivisionError) \/
  ((1 <= slow /\ 1 <= fast /\ 1 <= sig) /\
   (exists m s, calculate_MACD data slow fast sig = Ok (m, s) /\
                index m = index data /\ index s = index data) /\
   (exists m s, calculate_MACD_v2 data slow fast sig = Ok (m, s) /\
                index m = index data /\ index s = index data)).
Proof.
  assert (Hshape : forall a b c : Q,
    let ema (al : Q) (w : nat) (s : Series) :=
        on_index s (ewm_mean al (Z.of_nat w) (values s)) in
    let macd := series_binop vsub (ema a fast data) (ema b slow data) in
    index macd = index data /\ index (ema c sig macd) = index data).
  { intros a b c ema macd. unfold macd, ema.
    rewrite series_binop_on_index
      by now rewrite ewm_mean_length, values_length.
    assert (Hl : length (map2 vsub
                      (ewm_mean a (Z.of_nat fast) (values data))
                      (ewm_mean b (Z.of_nat slow) (values data)))
                 = length data).
    { rewrite map2_length, !ewm_mean_length, values_length. lia. }
    rewrite on_index_on_index by exact Hl.
    rewrite !on_index_index; auto.
    now rewrite ewm_mean_length, on_index_values. }
  destruct (macd_window_check_aux data slow fast sig) as [(E3 & E2)|Hw].
  { left. split; [|split; assumption].
    destruct slow, fast, sig; auto.
    pose proof (@calculate_MACD_unfold data (S slow) (S fast) (S sig)) as HM.
    specialize (HM ltac:(lia) ltac:(lia) ltac:(lia)). cbv zeta in HM.
    congruence. }
  destruct slow as [|slow]; [lia|]. destruct fast as [|fast]; [lia|].
  destruct sig as [|sig]; [lia|].
  right. split; [lia|]. split.
  - pose proof (@calculate_MACD_unfold data (S slow) (S fast) (S sig)) as HM.
    specialize (HM ltac:(lia) ltac:(lia) ltac:(lia)). cbv zeta in HM.
    rewrite HM. eexists. eexists. split; [reflexivity|].
    apply (Hshape (ema_alpha (S fast)) (ema_alpha (S slow)) (ema_alpha (S sig))).
  - pose proof (@calculate_MACD_v2_unfold data (S slow) (S fast) (S sig)) as HM.
    specialize (HM ltac:(lia) ltac:(lia) ltac:(lia)). cbv zeta in HM.
    rewrite HM. eexists. eexists. split; [reflexivity|].
    apply (Hshape (wilder_alpha (S fast)) (wilder_alpha (S slow))
             (wilder_alpha (S sig))).
Qed.

(** ** MACD *)

Lemma ewm_loop_const_or_missing (alpha : Q) (minp : Z) (c : Q)
      (rest : list value) (weighted : value) (old_wt : Q) (nobs : Z) :
  (weighted = None \/ weighted = Some c) ->
  Forall (fun v => v = None \/ v = Some c) rest ->
  Forall (fun v => v = None \/ v = Some c)
         (ewm_loop alpha minp rest weighted old_wt nobs).
Proof.
  revert weighted old_wt nobs.
  induction rest as [|cur tl IH]; intros weighted old_wt nobs Hw Hrest;
    [constructor|].
  apply Forall_cons_iff in Hrest. destruct Hrest as [Hc Htl].
  assert (Hnext : fst (ewm_update alpha weighted old_wt cur) = None \/
                  fst (ewm_update alpha weighted old_wt cur) = Some c).
  { destruct Hw as [->| ->], Hc as [->| ->]; cbn [ewm_update fst]; auto.
    rewrite Qeq_bool_refl. auto. }
  cbn [ewm_loop].
  destruct (ewm_update alpha weighted old_wt cur) as [weighted' old_wt'].
  cbn [fst] in Hnext. constructor; [|now apply IH].
  unfold ewm_gate. destruct (minp <=? _)%Z; auto.
Qed.

Lemma ewm_mean_const_or_missing (alpha : Q) (minp : Z) (c : Q)
      (vals : list value) :
  Forall (fun v => v = None \/ v = Some c) vals ->
  Forall (fun v => v = None \/ v = Some c) (ewm_mean alpha minp vals).
Proof.
  intros Hv. destruct vals as [|v0 rest]; [constructor|].
  apply Forall_cons_iff in Hv. destruct Hv as [H0 Hrest].
  cbn [ewm_mean]. constructor.
  - unfold ewm_gate. destruct (minp <=? _)%Z; auto.
  - now apply ewm_loop_const_or_missing.
Qed.

Lemma macd_of_constant (a b g : Q) (fast slow sig : nat) (n : nat) (c : Q) :
  let ema (al : Q) (w : nat) (s : Series) :=
      on_index s (ewm_mean al (Z.of_nat w) (values s)) in
  let macd := series_binop vsub (ema a fast (const_series n c))
                           (ema b slow (const_series n c)) in
  Forall zero_or_missing (values macd) /\
  Forall zero_or_missing (values (ema g sig macd)).
Proof.
  intros ema macd.
  assert (Hc : Forall (fun v => v = None \/ v = Some c)
                      (values (const_series n c))).
  { rewrite const_series_values. apply Forall_forall.
    intros v Hv. apply repeat_spec in Hv. auto. }
  assert (Hm : Forall (fun v => v = None \/ v = Some (c - c)%Q) (values macd)).
  { unfold macd, ema.
    rewrite series_binop_on_index
      by now rewrite ewm_mean_length, values_length.
    apply Forall_forall. intros v Hv.
    apply on_index_values_incl, map2_in in Hv.
    destruct Hv as (x & y & Hx & Hy & ->).
    pose proof (ewm_mean_const_or_missing a (Z.of_nat fast) Hc) as Hf.
    pose proof (ewm_mean_const_or_missing b (Z.of_nat slow) Hc) as Hs.
    rewrite Forall_forall in Hf, Hs.
    destruct (Hf _ Hx) as [->| ->], (Hs _ Hy) as [->| ->]; simpl; auto. }
  assert (Hz : forall l, Forall (fun v => v = None \/ v = Some (c - c)%Q) l ->
                         Forall zero_or_missing l).
  { intros l. apply Forall_impl. intros v [->| ->]; simpl; [exact I | ring]. }
  split; [now apply Hz|]. apply Hz. unfold ema.
  apply Forall_forall. intros v Hv. apply on_index_values_incl in Hv.
  pose proof (ewm_mean_const_or_missing g (Z.of_nat sig) Hm) as Hg.
  rewrite Forall_forall in Hg. now apply Hg.
Qed.

(** X11.  On a constant price series the MACD and its signal line are zero
    wherever they are defined, in the second cell's version and in the
    third cell's version. *)
Theorem macd_of_constant_series (n : nat) (c : Q) (slow fast sig : nat)
        (m s : Series) :
  calculate_MACD (const_series n c) slow fast sig = Ok (m, s)
  \/ calculate_MACD_v2 (const_series n c) slow fast sig = Ok (m, s) ->
  Forall zero_or_missing (values m) /\ Forall zero_or_missing (values s).
Proof.
  intros H.
  assert (Hw : 1 <= slow /\ 1 <= fast /\ 1 <= sig).
  { destruct (macd_window_check_aux (const_series n c) slow fast sig)
      as [(E3 & E2)|Hw]; [|exact Hw].
    destruct H as [H|H]; congruence. }
  destruct Hw as (Hs & Hf & Hg). destruct H as [H|H].
  - pose proof (@calculate_MACD_unfold (const_series n c) slow fast sig
                  Hs Hf Hg) as HM. cbv zeta in HM.
    rewrite HM in H. injection H as <- <-.
    apply (macd_of_constant (ema_alpha fast) (ema_alpha slow) (ema_alpha sig)).
  - pose proof (@calculate_MACD_v2_unfold (const_series n c) slow fast sig
                  Hs Hf Hg) as HM. cbv zeta in HM.
    rewrite HM in H. injection H as <- <-.
    apply (macd_of_constant (wilder_alpha fast) (wilder_alpha slow)
             (wilder_alpha sig)).
Qed.

Lemma macd_of_constant_series_witness :
  exists m s,
    calculate_MACD (const_series 4 7) 3 2 2 = Ok (m, s) /\
    Forall zero_or_missing (values m) /\ Forall zero_or_missing (values s) /\
    exists z, nth_error (values s) 3 = Some (Some z).
Proof.
  eexists. eexists. split; [vm_compute; reflexivity|].
  match goal with
  | |- Forall _ (values ?m) /\ Forall _ (values ?s) /\ _ =>
      destruct (@macd_of_constant_series 4 7 3 2 2 m s) as [H1 H2];
      [left; vm_compute; reflexivity|]
  end.
  split; [exact H1|]. split; [exact H2|].
  eexists. vm_compute. reflexivity.
Defined.

(** *** Warm-up of the MACD and of its signal line *)

Lemma obs_count_observed (xs : list Q) : obs_count (map Some xs) = length xs.
Proof. induction xs as [|x xs IH]; simpl; auto. Qed.

Lemma firstn_succ_row {A} (l : list A) (k : nat) :
  k < length l ->
  exists v, nth_error l k = Some v /\ firstn (S k) l = firstn k l ++ [v].
Proof.
  revert k. induction l as [|x l IH]; intros k Hk; [simpl in Hk; lia|].
  destruct k as [|k].
  - exists x. split; reflexivity.
  - destruct (IH k) as (v & Hv & E); [simpl in Hk; lia|].
    exists v. split; [exact Hv|].
    change (firstn (S (S k)) (x :: l)) with (x :: firstn (S k) l).
    now rewrite E.
Qed.

Lemma obs_count_threshold (l : list value) (M k : nat) :
  1 <= M -> k <= length l ->
  (forall j v, j < k -> nth_error l j = Some v ->
               (is_obs v = true <-> M <= S j)) ->
  obs_count (firstn k l) = k - (M - 1).
Proof.
  intros HM. induction k as [|k IH]; intros Hk Hrows; [reflexivity|].
  destruct (@firstn_succ_row _ l k ltac:(lia)) as (v & Hv & E).
  rewrite E, obs_count_app, IH; [|lia|intros j u Hj; apply Hrows; lia].
  specialize (Hrows k v ltac:(lia) Hv).
  destruct v as [x|]; cbn [obs_count is_obs] in *.
  - assert (M <= S k) by now apply Hrows. lia.
  - assert (~ M <= S k) by (intros C; apply Hrows in C; discriminate). lia.
Qed.

Lemma ewm_observed_row (alpha : Q) (w : nat) (xs : list Q) (i : nat) :
  1 <= w -> i < length xs ->
  exists v, nth_error (ewm_mean alpha (Z.of_nat w) (map Some xs)) i = Some v /\
            (is_obs v = true <-> w <= S i).
Proof.
  intros Hw Hi.
  destruct (nth_error (ewm_mean alpha (Z.of_nat w) (map Some xs)) i)
    as [v|] eqn:Hv.
  - exists v. split; [reflexivity|].
    rewrite (@ewm_mean_defined alpha (Z.of_nat w) (map Some xs) i v
               ltac:(lia) Hv).
    rewrite firstn_map, obs_count_observed, length_firstn. lia.
  - apply nth_error_None in Hv.
    rewrite ewm_mean_length, length_map in Hv. lia.
Qed.

Lemma macd_rows_defined (a b g : Q) (fast slow sig : nat) (xs : list Q)
      (i : nat) :
  1 <= fast -> 1 <= slow -> 1 <= sig -> i < length xs ->
  let macd := map2 vsub (ewm_mean a (Z.of_nat fast) (map Some xs))
                   (ewm_mean b (Z.of_nat slow) (map Some xs)) in
  exists u v,
    nth_error macd i = Some u /\
    nth_error (ewm_mean g (Z.of_nat sig) macd) i = Some v /\
    (is_obs u = true <-> Nat.max slow fast <= S i) /\
    (is_obs v = true <-> Nat.max slow fast + sig <= S (S i)).
Proof.
  intros Hf Hs Hg Hi macd.
  assert (Hrow : forall j, j < length xs ->
            exists u, nth_error macd j = Some u /\
                      (is_obs u = true <-> Nat.max slow fast <= S j)).
  { intros j Hj. unfold macd. rewrite nth_error_map2.
    destruct (@ewm_observed_row a fast xs j Hf Hj) as (x & -> & Hx).
    destruct (@ewm_observed_row b slow xs j Hs Hj) as (y & -> & Hy).
    eexists. split; [reflexivity|].
    assert (E : is_obs (vsub x y) = (is_obs x && is_obs y)%bool)
      by now destruct x, y.
    rewrite E, andb_true_iff, Hx, Hy. lia. }
  assert (Hlen : length macd = length xs).
  { unfold macd. rewrite map2_length, !ewm_mean_length, length_map. lia. }
  destruct (Hrow i Hi) as (u & Hu & Hudef).
  destruct (nth_error (ewm_mean g (Z.of_nat sig) macd) i) as [v|] eqn:Hv.
  - exists u, v. split; [exact Hu|]. split; [reflexivity|].
    split; [exact Hudef|].
    rewrite (@ewm_mean_defined g (Z.of_nat sig) macd i v ltac:(lia) Hv).
    rewrite (@obs_count_threshold macd (Nat.max slow fast) (S i));
      [lia | lia | lia |].
    intros j w Hj Hw. destruct (Hrow j ltac:(lia)) as (u' & Hu' & Hdef).
    rewrite Hw in Hu'. injection Hu' as <-. exact Hdef.
  - apply nth_error_None in Hv. rewrite ewm_mean_length in Hv. lia.
Qed.

(** X12.  On a price series without missing cells, in both drafts, the MACD is
    defined exactly from row [max slow fast - 1] on, and its signal line
    exactly from row [max slow fast + signal - 2] on (rows 25 and 33 with
    the default windows 26, 12 and 9). *)
Theorem macd_warm_up (idx : list nat) (xs : list Q) (slow fast sig i : nat)
        (m s : Series) :
  length idx = length xs -> i < length xs ->
  calculate_MACD (combine idx (map Some xs)) slow fast sig = Ok (m, s)
  \/ calculate_MACD_v2 (combine idx (map Some xs)) slow fast sig = Ok (m, s) ->
  exists u v,
    nth_error (values m) i = Some u /\
    nth_error (values s) i = Some v /\
    (is_obs u = true <-> Nat.max slow fast <= S i) /\
    (is_obs v = true <-> Nat.max slow fast + sig <= S (S i)).
Proof.
  intros Hlen Hi H.
  set (data := combine idx (map Some xs)) in *.
  assert (Hvals : values data = map Some xs).
  { unfold values, data. apply combine_snd. now rewrite length_map. }
  assert (Hw : 1 <= slow /\ 1 <= fast /\ 1 <= sig).
  { destruct (macd_window_check_aux data slow fast sig)
      as [(E3 & E2)|Hw]; [|exact Hw].
    destruct H as [H|H]; congruence. }
  destruct Hw as (Hs & Hf & Hg).
  assert (Hgen : forall a b g : Q,
    let ema (al : Q) (w : nat) (t : Series) :=
        on_index t (ewm_mean al (Z.of_nat w) (values t)) in
    let macd := series_binop vsub (ema a fast data) (ema b slow data) in
    exists u v,
      nth_error (values macd) i = Some u /\
      nth_error (values (ema g sig macd)) i = Some v /\
      (is_obs u = true <-> Nat.max slow fast <= S i) /\
      (is_obs v = true <-> Nat.max slow fast + sig <= S (S i))).
  { intros a b g ema macd. unfold macd, ema.
    rewrite series_binop_on_index
      by now rewrite ewm_mean_length, values_length.
    assert (Hl : length (map2 vsub
                      (ewm_mean a (Z.of_nat fast) (values data))
                      (ewm_mean b (Z.of_nat slow) (values data)))
                 = length data).
    { rewrite map2_length, !ewm_mean_length, values_length. lia. }
    rewrite on_index_values by exact Hl.
    rewrite on_index_on_index by exact Hl.
    rewrite on_index_values by now rewrite ewm_mean_length.
    rewrite Hvals. now apply macd_rows_defined. }
  destruct H as [H|H].
  - pose proof (@calculate_MACD_unfold data slow fast sig Hs Hf Hg) as HM.
    cbv zeta in HM. rewrite HM in H. injection H as <- <-.
    apply (Hgen (ema_alpha fast) (ema_alpha slow) (ema_alpha sig)).
  - pose proof (@calculate_MACD_v2_unfold data slow fast sig Hs Hf Hg) as HM.
    cbv zeta in HM. rewrite HM in H. injection H as <- <-.
    apply (Hgen (wilder_alpha fast) (wilder_alpha slow) (wilder_alpha sig)).
Qed.

Lemma macd_warm_up_witness :
  exists m s u v,
    calculate_MACD (combine [0; 1; 2; 3] (map Some [1; 2; 6; 4]%Q)) 3 2 2
      = Ok (m, s) /\
    nth_error (values m) 2 = Some u /\ nth_error (values s) 2 = Some v /\
    is_obs u = true /\ is_obs v = false.
Proof.
  eexists. eexists.
  match goal with
  | |- exists u v, ?C = Ok (?m, ?s) /\ _ =>
      assert (Hc : C = Ok (m, s)) by (vm_compute; reflexivity);
      destruct (@macd_warm_up [0; 1; 2; 3] [1; 2; 6; 4]%Q 3 2 2 2 m s
                  eq_refl ltac:(simpl; lia) (or_introl Hc))
        as (u & v & Hu & Hv & Hud & Hvd)
  end.
  exists u, v. split; [exact Hc|]. split; [exact Hu|]. split; [exact Hv|].
  split.
  - apply Hud. simpl. lia.
  - destruct (is_obs v) eqn:E; [|reflexivity].
    assert (C : Nat.max 3 2 + 2 <= 4) by now apply Hvd. simpl in C. lia.
Defined.

(** ** Labelling: what [define_target] returns and when it fails *)

Lemma label_row_rule (features : Features) (n i : nat) :
  f_index features = seq 0 n ->
  length (EMA_crossover features) = n ->
  length (RSI_14 features) = n ->
  i < n ->
  label_row features i = Ok (rule_at features i).
Proof.
  intros Hidx Hc Hr Hi. unfold label_row, rule_at. rewrite Hidx.
  rewrite !loc_seq by exact Hi.
  destruct (nth_error (EMA_crossover features) i) as [c|] eqn:Ec;
    [|apply nth_error_None in Ec; lia].
  destruct (nth_error (RSI_14 features) i) as [r|] eqn:Er;
    [|apply nth_error_None in Er; lia].
  unfold py_and, row_rule. cbn [bind].
  destruct c; cbn [bind negb andb];
    destruct (vlt r (Some 30%Q)); cbn [bind]; try reflexivity;
    destruct (vgt r (Some 70%Q)); reflexivity.
Qed.

Lemma target_loop_rule (features : Features) (n : nat) (rows : list nat)
      (targets : list Label) :
  f_index features = seq 0 n ->
  length (EMA_crossover features) = n ->
  length (RSI_14 features) = n ->
  Forall (fun i => i < n) rows ->
  target_loop features rows targets
  = Ok (targets ++ map (rule_at features) rows).
Proof.
  intros Hidx Hc Hr. revert targets.
  induction rows as [|i rows IH]; intros targets Hrows; cbn [target_loop map].
  - now rewrite app_nil_r.
  - apply Forall_cons_iff in Hrows. destruct Hrows as [Hi Hrest].
    rewrite (@label_row_rule features n i Hidx Hc Hr Hi). cbn [bind].
    rewrite IH by exact Hrest. now rewrite <- app_assoc.
Qed.

(** X15.  On a price series with the dense integer index [0 .. n-1] and
    a feature table lined up with it, the third cell's [define_target]
    returns one label for each row, on the index of the series, and the
    label of row [i] follows the rule on that row's cells alone: Buy when
    the crossover flag is set and the RSI is below 30, Sell when the flag
    is not set and the RSI is above 70, Hold otherwise (a missing RSI
    gives Hold). *)
Theorem define_target_rule (data : Series) (features : Features) :
  range_indexed data -> aligned data features ->
  exists s,
    define_target data features = Ok s /\
    map fst s = index data /\
    length s = length data /\
    forall i c r,
      nth_error (EMA_crossover features) i = Some c ->
      nth_error (RSI_14 features) i = Some r ->
      nth_error (map snd s) i = Some (row_rule c r).
Proof.
  intros Hrange (Hidx & Hc & Hr). unfold define_target.
  rewrite Hrange in Hidx.
  rewrite (@target_loop_rule features (length data) (seq 0 (length data)) []
             Hidx Hc Hr)
    by (apply Forall_forall; intros i Hi; apply in_seq in Hi; lia).
  cbn [bind app].
  assert (Hlen : length (map (rule_at features) (seq 0 (length data)))
                 = length (index data))
    by now rewrite length_map, length_seq, index_length.
  rewrite pd_Series_ok by exact Hlen.
  eexists. split; [reflexivity|]. split; [now apply combine_fst|].
  split; [rewrite length_combine, Hlen, index_length; lia|].
  intros i c r Ec Er. rewrite combine_snd by (symmetry; exact Hlen).
  assert (Hi : i < length data).
  { rewrite <- Hc. apply nth_error_Some. congruence. }
  rewrite nth_error_map.
  rewrite (nth_error_nth' (seq 0 (length data)) 0)
    by now rewrite length_seq.
  rewrite seq_nth by exact Hi.
  cbn [option_map Nat.add]. unfold rule_at. now rewrite Ec, Er.
Qed.

Lemma define_target_rule_witness :
  exists s,
    define_target sma_example rule_example = Ok s /\
    nth_error (map snd s) 0 = Some Buy /\
    nth_error (map snd s) 1 = Some Sell /\
    nth_error (map snd s) 2 = Some Hold.
Proof.
  destruct (@define_target_rule sma_example rule_example eq_refl)
    as (s & Hs & _ & _ & Hrule); [repeat split|].
  exists s. split; [exact Hs|]. split; [|split].
  - apply (Hrule 0 true (Some 25%Q)); reflexivity.
  - apply (Hrule 1 false (Some 80%Q)); reflexivity.
  - apply (Hrule 2 true (Some 50%Q)); reflexivity.
Defined.

Lemma position_absent (l : nat) (idx : list nat) :
  ~ In l idx -> position l idx = None.
Proof.
  induction idx as [|k tl IH]; simpl; [reflexivity|]. intros H.
  destruct (Nat.eqb_spec k l) as [->|Hne]; [tauto|].
  rewrite IH by tauto. reflexivity.
Qed.

Lemma loc_raises {A} (idx : list nat) (col : list A) (l : nat) (e : exn) :
  loc idx col l = Raise e -> e = KeyError \/ e = ValueError.
Proof.
  unfold loc. destruct (position l idx) as [p|]; [|intros E; left; congruence].
  destruct (existsb _ _); [intros E; right; congruence|].
  destruct (nth_error col p); [discriminate | intros E; left; congruence].
Qed.

Lemma position_in (l : nat) (idx : list nat) (p : nat) :
  position l idx = Some p -> In l (firstn (S p) idx).
Proof.
  revert p. induction idx as [|k tl IH]; intros p; cbn [position];
    [discriminate|].
  destruct (Nat.eqb_spec k l) as [->|Hne].
  - intros _. now left.
  - destruct (position l tl) as [q|]; cbn [option_map]; [|discriminate].
    intros E. injection E as <-. right. now apply IH.
Qed.

(** Without repeated labels [loc] fails with [KeyError] only. *)
Lemma loc_distinct_labels {A} (idx : list nat) (col : list A) (l : nat)
      (e : exn) :
  NoDup idx -> loc idx col l = Raise e -> e = KeyError.
Proof.
  intros Hnd. unfold loc.
  destruct (position l idx) as [p|] eqn:Hp; [|congruence].
  destruct (existsb (Nat.eqb l) (skipn (S p) idx)) eqn:Hrep.
  - exfalso. apply existsb_exists in Hrep. destruct Hrep as (x & Hx & E).
    apply Nat.eqb_eq in E. subst x.
    apply position_in in Hp.
    rewrite <- (firstn_skipn (S p) idx) in Hnd.
    apply NoDup_app_remove_l in Hnd as Hnd'.
    revert Hnd Hp Hx. generalize (firstn (S p) idx), (skipn (S p) idx).
    clear. intros a b. induction a as [|y a IH]; cbn; [tauto|].
    intros Hnd [->|Hin] Hb.
    + apply NoDup_cons_iff in Hnd. apply (proj1 Hnd).
      apply in_or_app. now right.
    + apply NoDup_cons_iff in Hnd. now apply IH.
  - destruct (nth_error col p); congruence.
Qed.

Lemma label_row_raises (features : Features) (i : nat) (e : exn) :
  label_row features i = Raise e ->
  (e = KeyError \/ e = ValueError) /\
  (NoDup (f_index features) -> e = KeyError).
Proof.
  unfold label_row, py_and.
  destruct (loc (f_index features) (EMA_crossover features) i) as [c|e1] eqn:Ec;
    cbn [bind].
  - destruct (loc (f_index features) (RSI_14 features) i) as [r|e2] eqn:Er;
      cbn [bind].
    + destruct c; cbn [bind negb];
        repeat match goal with
               | |- context [if ?b then _ else _] => destruct b; cbn [bind]
               end; discriminate.
    + intros E.
      assert (e = e2) as -> by (destruct c; cbn [bind negb] in E; congruence).
      split; [eapply loc_raises, Er|].
      intros Hnd. eapply loc_distinct_labels; [exact Hnd | exact Er].
  - intros E. injection E as <-.
    split; [eapply loc_raises, Ec|].
    intros Hnd. eapply loc_distinct_labels; [exact Hnd | exact Ec].
Qed.

Lemma label_row_absent (features : Features) (i : nat) :
  ~ In i (f_index features) -> label_row features i = Raise KeyError.
Proof.
  intros H. unfold label_row, py_and, loc.
  rewrite (@position_absent i (f_index features) H). reflexivity.
Qed.

Lemma target_loop_absent (features : Features) (rows : list nat)
      (targets : list Label) (i : nat) :
  In i rows -> ~ In i (f_index features) ->
  exists e,
    target_loop features rows targets = Raise e /\
    (e = KeyError \/ e = ValueError) /\
    (NoDup (f_index features) -> e = KeyError).
Proof.
  intros Hin Hout. revert targets.
  induction rows as [|r rows IH]; intros targets; [contradiction|].
  cbn [target_loop].
  destruct (label_row features r) as [t|e] eqn:Er; cbn [bind].
  - destruct Hin as [->|Hin].
    + rewrite (@label_row_absent features i Hout) in Er. discriminate.
    + now apply IH.
  - exists e. split; [reflexivity|]. eapply label_row_raises, Er.
Qed.

(** X17.  The third cell's [define_target] looks rows up by the integers
    [0 .. n-1]: when one of them is not a label of the feature table, the
    call returns no label at all.  It fails with [KeyError] when the
    labels of the table are distinct; a repeated label met before the
    missing one fails with [ValueError] instead. *)
Theorem define_target_missing_label (data : Series) (features : Features)
        (i : nat) :
  i < length data -> ~ In i (f_index features) ->
  exists e,
    define_target data features = Raise e /\
    (e = KeyError \/ e = ValueError) /\
    (NoDup (f_index features) -> e = KeyError).
Proof.
  intros Hi Hout. unfold define_target.
  destruct (@target_loop_absent features (seq 0 (length data)) [] i)
    as (e & -> & He); [apply in_seq; lia | exact Hout|].
  exists e. split; [reflexivity | exact He].
Qed.

Lemma define_target_missing_label_witness :
  exists f, create_features (fun x => x) dated_row = Ok f /\
            f_index f = [5] /\
            define_target dated_row f = Raise KeyError /\
            define_target repeated_label_example repeated_label_features
            = Raise ValueError.
Proof.
  eexists. split; [vm_compute; reflexivity|]. split; [reflexivity|]. split.
  - match goal with
    | |- define_target _ ?f = _ =>
        destruct (@define_target_missing_label dated_row f 0)
          as (e & -> & _ & Hk)
    end.
    + simpl. lia.
    + simpl. intros [H|H]; [discriminate | exact H].
    + f_equal. apply Hk. repeat constructor; simpl; tauto.
  - reflexivity.
Defined.

(** X18.  The second cell's [define_target] returns a label series only for a
    price series of exactly one row; for an empty series it returns
    Python's [None]; it never returns anything else. *)
Theorem define_target_v2_results (data : Series) (features : Features_v2)
        (r : option LabelSeries) :
  define_target_v2 data features = Ok r ->
  (data = [] /\ r = None) \/
  (length data = 1 /\ exists t, r = Some [(hd 0 (index data), t)]).
Proof.
  unfold define_target_v2. destruct data as [|(k & v) rest].
  - cbn. intros E. injection E as <-. now left.
  - cbn [length seq target_loop_v2].
    destruct (label_row_v2 ((k, v) :: rest) features 0) as [t|e];
      cbn [bind]; [|discriminate].
    unfold pd_Series. cbn [app length index map fst].
    destruct rest as [|r1 rest]; cbn [length map Nat.eqb combine bind].
    + intros E. injection E as <-. right. split; [reflexivity|].
      exists t. reflexivity.
    + discriminate.
Qed.

Lemma define_target_v2_results_witness :
  exists r, define_target_v2 one_row one_row_features_v2 = Ok r /\
            r = Some [(0, Hold)].
Proof.
  eexists. split; [reflexivity|].
  destruct (@define_target_v2_results one_row one_row_features_v2
              (Some [(0, Hold)]) eq_refl) as [(E & _)|(_ & t & Et)];
    [discriminate | reflexivity].
Defined.

(** X16.  On a price series with the dense integer index the third cell's
    pipeline, [create_features] followed by [define_target], returns one
    label for each row, and every label is Hold. *)
Theorem pipeline_labels_all_hold (sqrtQ : Q -> Q) (data : Series) :
  range_indexed data ->
  exists f, create_features sqrtQ data = Ok f /\
            define_target data f
            = Ok (combine (index data) (repeat Hold (length data))).
Proof.
  intros Hrange. destruct (create_features_ok sqrtQ data) as (f & Hf).
  exists f. split; [exact Hf|].
  now apply (@define_target_after_create_features sqrtQ).
Qed.

Lemma pipeline_labels_all_hold_witness :
  exists f,
    create_features (fun x => x) four_rows = Ok f /\
    define_target four_rows f
    = Ok [(0, Hold); (1, Hold); (2, Hold); (3, Hold)].
Proof.
  destruct (@pipeline_labels_all_hold (fun x => x) four_rows eq_refl)
    as (f & Hf & Ht).
  exists f. split; [exact Hf | exact Ht].
Defined.

(** ** The script: labels after the warm-up of the average *)

Lemma script_row_label (close : Series) (i : nat) :
  i < length close ->
  exists l c sma,
    nth_error close i = Some (l, c) /\
    nth_error (rolling_mean 20 (values close)) i = Some sma /\
    nth_error (trading_decision (script_create_features close)) i
      = Some (l, if vgt c sma then Buy else Sell).
Proof.
  intros Hi.
  destruct (nth_error close i) as [(l & c)|] eqn:Hc;
    [|apply nth_error_None in Hc; lia].
  destruct (nth_error (rolling_mean 20 (values close)) i) as [sma|] eqn:Hs;
    [|apply nth_error_None in Hs;
      rewrite rolling_mean_length, values_length in Hs; lia].
  exists l, c, sma. split; [reflexivity|]. split; [reflexivity|].
  unfold trading_decision, script_create_features, calculate_SMA.
  rewrite on_index_values by now rewrite rolling_mean_length, values_length.
  now rewrite nth_error_map, nth_error_map2, Hc, Hs.
Qed.

(** X19.  In the script a row can only be labelled Buy once twenty closes
    are available for it: each of the first 19 rows is labelled Sell
    whatever the prices, and so is every later row with a missing cell
    among the 20 closes ending at it, since its 20-row average is
    missing and a comparison with a missing value does not hold.  Every
    row is labelled Buy or Sell. *)
Theorem script_labels (close : Series) (i : nat) :
  i < length close ->
  exists l t,
    nth_error (index close) i = Some l /\
    nth_error (trading_decision (script_create_features close)) i
      = Some (l, t) /\
    (t = Buy \/ t = Sell) /\
    (S i < 20 \/
     forallb is_obs (slice (values close) (S i - 20) (S i)) = false ->
     t = Sell).
Proof.
  intros Hi. destruct (script_row_label close Hi) as (l & c & sma & Hc & Hs & Ht).
  assert (Hi' : i < length (values close)) by now rewrite values_length.
  destruct (rolling_mean_spec 20 (values close) Hi')
    as (v & Hv & Hmean & Hwarm).
  rewrite Hs in Hv. injection Hv as <-.
  exists l. eexists. split; [|split; [exact Ht|]].
  { unfold index. now rewrite nth_error_map, Hc. }
  split; [destruct (vgt c sma); auto|].
  intros Hcase.
  assert (E : sma = None).
  { destruct (Nat.le_gt_cases 20 (S i)) as [Hw|Hw]; [|now apply Hwarm].
    destruct Hcase as [H|H]; [lia|].
    specialize (Hmean Hw). unfold mean_of in Hmean. rewrite H in Hmean.
    destruct sma; [contradiction | reflexivity]. }
  subst sma. unfold vgt, vlt. now destruct c.
Qed.

Lemma script_labels_witness :
  nth_error (trading_decision (script_create_features ramp)) 3
    = Some (3, Sell) /\
  nth_error (trading_decision (script_create_features ramp)) 20
    = Some (20, Buy).
Proof.
  destruct (@script_labels ramp 3 ltac:(simpl; lia))
    as (l & t & Hl & Ht & _ & Hwarm).
  injection Hl as <-. rewrite Ht. split.
  - rewrite Hwarm; [reflexivity | left; lia].
  - vm_compute. reflexivity.
Defined.

(** ** The script: the two tables handed to the AUC computation *)

Lemma classes_of_in (y : list Label) (c : Label) :
  In c (classes_of y) <-> In c y.
Proof.
  unfold classes_of. rewrite filter_In, existsb_exists. split.
  - intros (_ & x & Hx & E). destruct c, x; simpl in E; try discriminate; exact Hx.
  - intros H. split.
    + destruct c; simpl; auto.
    + exists c. split; [exact H | now destruct c].
Qed.

(** X20.  The true labels of the script come from [trading_decision] and never
    hold a Hold, so their indicator table has no Hold column and at most
    two columns; as soon as one prediction is Hold, the table of the
    predictions has a Hold column and the two tables handed to
    [roc_auc_score] do not have the same columns. *)
Theorem evaluate_tables_differ (data : ScriptFrame) (y_pred : list Label) :
  In Hold y_pred ->
  let y_true := map snd (trading_decision data) in
  ~ In Hold (classes_of y_true) /\
  length (classes_of y_true) <= 2 /\
  In Hold (classes_of y_pred) /\
  classes_of y_true <> classes_of y_pred /\
  forall row, In row (fst (evaluate_auc_args y_true y_pred)) ->
              length row <= 2.
Proof.
  intros Hp y_true.
  assert (Hno : ~ In Hold y_true).
  { unfold y_true, trading_decision. rewrite map_map. cbn [snd].
    intros H. apply in_map_iff in H. destruct H as (r & E & _).
    destruct (vgt _ _); discriminate. }
  assert (Hc : ~ In Hold (classes_of y_true)) by now rewrite classes_of_in.
  assert (Hlen : length (classes_of y_true) <= 2).
  { unfold classes_of in *. cbn [filter] in *.
    destruct (existsb (Label_eqb Buy) y_true),
             (existsb (Label_eqb Hold) y_true) eqn:EH,
             (existsb (Label_eqb Sell) y_true); cbn [length]; try lia;
      exfalso; apply Hc; cbn; auto. }
  split; [exact Hc|]. split; [exact Hlen|].
  split; [now apply classes_of_in|]. split.
  - intros E. apply Hc. rewrite E. now apply classes_of_in.
  - intros row Hrow. cbn [evaluate_auc_args fst] in Hrow.
    unfold get_dummies in Hrow. apply in_map_iff in Hrow.
    destruct Hrow as (l & <- & _). now rewrite length_map.
Qed.

Lemma evaluate_tables_differ_witness :
  classes_of (map snd (trading_decision script_example)) = [Buy; Sell] /\
  classes_of [Buy; Hold; Sell] = [Buy; Hold; Sell] /\
  classes_of (map snd (trading_decision script_example))
  <> classes_of [Buy; Hold; Sell].
Proof.
  destruct (@evaluate_tables_differ script_example [Buy; Hold; Sell])
    as (_ & _ & _ & H & _); [simpl; auto|].
  split; [reflexivity|]. split; [reflexivity | exact H].
Defined.

(** ** main: how a run ends *)

Lemma build_model_missing_rsi (split : nat -> list nat * list nat)
      (fit_and_score : list (list value) -> LabelSeries -> Result unit)
      (f : Features) (target : LabelSeries) :
  RSI_14 f = repeat None (length (f_index f)) ->
  (forall p, In p (fst (split (length (f_index f)))) ->
             p < length (f_index f)) ->
  build_model split fit_and_score f target = Raise ValueError.
Proof.
  intros Hrsi Hpos. unfold build_model.
  destruct (fst (split (length (f_index f)))) as [|p train] eqn:Et;
    [reflexivity|].
  cbn [length Nat.eqb]. unfold take_rows.
  replace (forallb (fun q => q <? length (f_index f)) (p :: train)) with true.
  2:{ symmetry. apply forallb_forall. intros q Hq. apply Nat.ltb_lt.
      now apply Hpos. }
  cbn [bind map]. unfold check_finite. cbn [forallb].
  replace (forallb is_obs (feature_cells f p)) with false; [reflexivity|].
  unfold feature_cells. rewrite Hrsi.
  replace (nth p (repeat None (length (f_index f))) None) with (@None Q)
    by (symmetry; apply nth_repeat).
  cbn [forallb is_obs]. now rewrite !andb_false_r.
Qed.

(** X23.  When the fetch returns a price series with the dense integer
    index, [main] never reaches the call of itself at the end of its
    body: the table and the labels are built, and [build_model] then
    fails with [ValueError], because the training set is empty or, as
    the RSI column is missing in every row, because a cell of the
    training rows is missing, whichever rows the split draws. *)
Theorem main_stops_at_first_fit (sqrtQ : Q -> Q)
        (download : nat -> Result Series)
        (split : nat -> list nat * list nat)
        (fit_and_score : list (list value) -> LabelSeries -> Result unit)
        (stack call : nat) (data : Series) :
  download call = Ok data ->
  range_indexed data ->
  (forall p, In p (fst (split (length data))) -> p < length data) ->
  main sqrtQ download (build_model split fit_and_score) (S stack) call
  = Raise ValueError.
Proof.
  intros Hd Hrange Hpos. cbn [main]. rewrite Hd. cbn [bind].
  pose proof (range_indexed_well_formed Hrange) as Hwf.
  rewrite (create_features_columns sqrtQ Hwf). cbn [bind].
  rewrite (@define_target_after_create_features sqrtQ data _ Hrange
             (create_features_columns sqrtQ Hwf)).
  cbn [bind]. rewrite build_model_missing_rsi; [reflexivity | |].
  - cbn [feature_columns RSI_14 f_index]. unfold rsi_column.
    now rewrite index_length, values_length.
  - cbn [feature_columns f_index]. now rewrite index_length.
Qed.

Lemma main_stops_at_first_fit_witness :
  main (fun x => x) (fun _ => Ok four_rows)
       (build_model (fun _ => ([0; 1; 2], [3])) (fun _ _ => Ok tt)) 3 0
  = Raise ValueError.
Proof.
  apply (@main_stops_at_first_fit (fun x => x) (fun _ => Ok four_rows)
           (fun _ => ([0; 1; 2], [3])) (fun _ _ => Ok tt) 2 0 four_rows).
  - reflexivity.
  - reflexivity.
  - cbn. intros p [<-|[<-|[<-|[]]]]; lia.
Defined.

(** ** Exponential moving average: rows with gaps, and the closed form *)

(** X13.  Row [i] of [calculate_EMA] is defined exactly when at least [window]
    of the cells in rows [0 .. i] are present: a missing price does not
    make the average missing once enough prices have been seen. *)
Theorem calculate_EMA_defined_rows (data : Series) (w : nat) (s : Series)
        (i : nat) (v : value) :
  calculate_EMA data w = Ok s ->
  nth_error (values s) i = Some v ->
  (is_obs v = true <-> w <= obs_count (firstn (S i) (values data))).
Proof.
  intros Hs Hv.
  assert (Hw : 1 <= w) by (destruct w; [discriminate Hs | lia]).
  rewrite calculate_EMA_ok in Hs by exact Hw. injection Hs as <-.
  rewrite on_index_values in Hv by now rewrite ewm_mean_length, values_length.
  rewrite (@ewm_mean_defined (ema_alpha w) (Z.of_nat w) (values data) i v
             ltac:(lia) Hv).
  lia.
Qed.

Lemma calculate_EMA_defined_rows_witness :
  exists s v, calculate_EMA gap_series 1 = Ok s /\
              nth_error (values s) 1 = Some v /\
              nth_error (values gap_series) 1 = Some None /\
              is_obs v = true.
Proof.
  eexists. eexists.
  match goal with
  | |- ?C = Ok ?s /\ ?R = Some ?v /\ _ =>
      assert (Hc : C = Ok s) by (vm_compute; reflexivity);
      assert (Hr : R = Some v) by (vm_compute; reflexivity);
      pose proof (@calculate_EMA_defined_rows gap_series 1 s 1 v Hc Hr) as H
  end.
  split; [exact Hc|]. split; [exact Hr|]. split; [reflexivity|].
  apply H. simpl. lia.
Defined.

(** X14.  On a price series without missing cells, once two consecutive rows
    of [calculate_EMA] are defined the later one is obtained from the
    earlier one, the new price and the weight accumulated so far:
    [y' * W' = x + (1 - alpha) * W * y] with [W' = 1 + (1 - alpha) * W],
    where [W] is the sum of the weights [(1 - alpha)^k] of the rows seen
    and [alpha = 2 / (window + 1)]. *)
Theorem calculate_EMA_recursion (idx : list nat) (xs : list Q) (w i : nat)
        (s : Series) (x : Q) :
  length idx = length xs ->
  calculate_EMA (combine idx (map Some xs)) w = Ok s ->
  w <= S i ->
  nth_error xs (S i) = Some x ->
  exists y_prev y,
    nth_error (values s) i = Some (Some y_prev) /\
    nth_error (values s) (S i) = Some (Some y) /\
    (y * ewm_den (ema_alpha w) (S (S i))
     == x + (1 - ema_alpha w) * ewm_den (ema_alpha w) (S i) * y_prev)%Q /\
    (ewm_den (ema_alpha w) (S (S i))
     == 1 + (1 - ema_alpha w) * ewm_den (ema_alpha w) (S i))%Q.
Proof.
  intros Hlen Hs Hw Hx.
  assert (Hw1 : 1 <= w) by (destruct w; [discriminate Hs | lia]).
  assert (Hi : S i < length xs) by (apply nth_error_Some; congruence).
  rewrite calculate_EMA_ok in Hs by exact Hw1. injection Hs as <-.
  assert (Hvals : values (combine idx (map Some xs)) = map Some xs).
  { unfold values. apply combine_snd. now rewrite length_map. }
  rewrite on_index_values by now rewrite ewm_mean_length, values_length.
  rewrite Hvals.
  destruct (ema_alpha_range Hw1) as [_ Ha].
  destruct (@ewm_mean_closed_form (ema_alpha w) (Z.of_nat w) xs i Ha
              ltac:(lia)) as (y0 & Hy0 & Hf0).
  destruct (@ewm_mean_closed_form (ema_alpha w) (Z.of_nat w) xs (S i) Ha Hi)
    as (y1 & Hy1 & Hf1).
  replace (Z.of_nat w <=? Z.of_nat (S i))%Z with true in Hy0
    by (symmetry; apply Z.leb_le; lia).
  replace (Z.of_nat w <=? Z.of_nat (S (S i)))%Z with true in Hy1
    by (symmetry; apply Z.leb_le; lia).
  exists y0, y1. split; [exact Hy0|]. split; [exact Hy1|].
  split; [|reflexivity].
  destruct (@firstn_succ_row _ xs (S i) Hi) as (x' & Hx' & E).
  rewrite Hx in Hx'. injection Hx' as <-.
  rewrite E, rev_app_distr in Hf1. cbn [rev app ewm_num] in Hf1.
  destruct (@ewm_den_pos (ema_alpha w) (S i) Ha) as [_ Hp0].
  destruct (@ewm_den_pos (ema_alpha w) (S (S i)) Ha) as [_ Hp1].
  specialize (Hp0 ltac:(lia)). specialize (Hp1 ltac:(lia)).
  rewrite Hf1, Hf0. field. split; lra.
Qed.

Lemma calculate_EMA_recursion_witness :
  exists s y_prev y,
    calculate_EMA (combine [0; 1; 2] (map Some [1; 2; 6]%Q)) 2 = Ok s /\
    nth_error (values s) 1 = Some (Some y_prev) /\
    nth_error (values s) 2 = Some (Some y) /\
    (y_prev == 7 # 4)%Q /\ (y == 61 # 13)%Q.
Proof.
  eexists.
  match goal with
  | |- exists y_prev y, ?C = Ok ?s /\ _ =>
      assert (Hc : C = Ok s) by (vm_compute; reflexivity);
      destruct (@calculate_EMA_recursion [0; 1; 2] [1; 2; 6]%Q 2 1 s 6%Q
                  eq_refl Hc ltac:(lia) eq_refl)
        as (y0 & y1 & H0 & H1 & _)
  end.
  exists y0, y1. split; [exact Hc|]. split; [exact H0|]. split; [exact H1|].
  vm_compute in H0, H1. injection H0 as <-. injection H1 as <-.
  split; reflexivity.
Defined.

(** ** The script's example run *)
Section ScriptRunProperties.
Import String.

Lemma find_column_absent (name : string) (cols : list (string * list value)) :
  ~ In name (map fst cols) -> find_column name cols = None.
Proof.
  induction cols as [|(k & c) tl IH]; simpl; [reflexivity|]. intros H.
  destruct (String.eqb_spec k name) as [->|Hne]; [tauto|]. apply IH. tauto.
Qed.

Lemma find_column_present (name : string) (cols : list (string * list value))
      (c : list value) :
  find_column name cols = Some c -> In name (map fst cols).
Proof.
  induction cols as [|(k & c') tl IH]; simpl; [discriminate|].
  destruct (String.eqb_spec k name) as [->|Hne]; [now left|].
  intros H. right. now apply IH.
Qed.

Lemma find_store_same (name : string) (col : list value)
      (cols : list (string * list value)) :
  find_column name (store_column name col cols) = Some col.
Proof.
  induction cols as [|(k & c) tl IH]; simpl.
  - now rewrite String.eqb_refl.
  - destruct (String.eqb_spec k name) as [->|Hne]; simpl.
    + now rewrite String.eqb_refl.
    + destruct (String.eqb_spec k name); [contradiction | exact IH].
Qed.

Lemma find_store_other (name other : string) (col : list value)
      (cols : list (string * list value)) :
  other <> name ->
  find_column other (store_column name col cols) = find_column other cols.
Proof.
  intros Hne. induction cols as [|(k & c) tl IH]; simpl.
  - destruct (String.eqb_spec name other); [congruence | reflexivity].
  - destruct (String.eqb_spec k name) as [->|Hk]; simpl.
    + destruct (String.eqb_spec name other); [congruence | reflexivity].
    + destruct (String.eqb_spec k other); [reflexivity | exact IH].
Qed.

(** X21.  The script's [create_features] needs a column [Close] and fails with
    [KeyError] without one.  With one, it returns the table with the same
    index in which [SMA_20] is the 20-row rolling mean of [Close] and
    every other column is as it was. *)
Theorem script_create_features_columns (data : NamedFrame) :
  match get_column "Close" data with
  | Raise e =>
      e = KeyError /\ script_create_features_named data = Raise KeyError
  | Ok close =>
      exists features,
        script_create_features_named data = Ok features /\
        nf_index features = nf_index data /\
        get_column "SMA_20" features = Ok (rolling_mean 20 close) /\
        forall name, name <> "SMA_20"%string ->
                     get_column name features = get_column name data
  end.
Proof.
  unfold script_create_features_named, script_calculate_SMA, get_column.
  destruct (find_column "Close" (nf_columns data)) as [close|] eqn:Hc;
    cbn [bind]; [|split; reflexivity].
  eexists. split; [reflexivity|]. split; [reflexivity|].
  cbn [set_column nf_columns]. split.
  - now rewrite find_store_same.
  - intros name Hne. now rewrite find_store_other.
Qed.

(** X22.  The example run fails before any model is built: on every table
    without a column [Signal], and the downloaded table has none,
    computing [X] raises [KeyError], with or without a [Close] column. *)
Theorem script_features_X_key_error (data : NamedFrame) :
  ~ In "Signal"%string (column_names data) ->
  script_features_X data = Raise KeyError.
Proof.
  intros Hno. unfold script_features_X, script_create_features_named,
    script_calculate_SMA, get_column.
  destruct (find_column "Close" (nf_columns data)) as [close|];
    cbn [bind]; [|reflexivity].
  unfold drop_column. cbn [set_column nf_columns].
  rewrite find_store_other by discriminate.
  now rewrite find_column_absent.
Qed.

Lemma script_features_X_key_error_witness :
  ~ In "Signal"%string (column_names downloaded_example) /\
  script_features_X downloaded_example = Raise KeyError.
Proof.
  assert (H : ~ In "Signal"%string (column_names downloaded_example)).
  { cbn. intros C. repeat (destruct C as [C|C]; [discriminate|]). exact C. }
  split; [exact H|]. now apply script_features_X_key_error.
Defined.
End ScriptRunProperties.

(** * The rolling mean in float64 *)

(** ** The walk and the windows *)

Section Float64Walk.
Import PrimFloat.
Variable St : Type.
Variable add remove : float -> St -> St.
Variable setup : float -> St.



Variable Inv : St -> list float -> Prop.
Hypothesis Inv_setup : forall x, Inv (setup x) [].
Hypothesis Inv_add : forall v st l, Inv st l -> Inv (add v st) (l ++ [v]).
Hypothesis Inv_remove : forall v st l, Inv st (v :: l) -> Inv (remove v st) l.





End Float64Walk.

(** The walk with the flag goes through the states of the walk without. *)
Section Float64Flag.
Import PrimFloat.
Variable St1 St2 : Type.
Variable add1 remove1 : float -> St1 -> St1.
Variable setup1 : float -> St1.
Variable add2 remove2 : float -> St2 -> St2.
Variable setup2 : float -> St2.
Variable proj : St2 -> St1.
Hypothesis proj_setup : forall x, proj (setup2 x) = setup1 x.
Hypothesis proj_add : forall v st, proj (add2 v st) = add1 v (proj st).
Hypothesis proj_remove : forall v st, proj (remove2 v st) = remove1 v (proj st).




End Float64Flag.

(** ** Binary64 numbers: sign, value and comparison *)

Section Float64Numbers.
Import PrimFloat FloatOps SpecFloat FloatAxioms.


Lemma F2Q_nan (x : float) : (x =? x)%float = false -> Float64.F2Q x = 0%Q.
Proof.
  intros H. unfold Float64.F2Q, Prim2SF, is_nan. now rewrite H.
Qed.










End Float64Numbers.

(** ** What the state of the rolling mean knows about the window *)

Section Float64Mean.
Import PrimFloat FloatOps SpecFloat.













End Float64Mean.

(** ** The rows of the rolling mean *)

Section Float64Rows.
Import PrimFloat FloatOps SpecFloat.









End Float64Rows.

(** ** calculate_SMA on binary64 cells *)

Section Float64SMA.
Import PrimFloat FloatOps SpecFloat String.




End Float64SMA.
